(** * Token-group wallet engine (src/tokens/tokengroupwallet.cpp)

    A shallow embedding of the wallet-side token-group engine: script
    encoding, balance aggregation, coin selection, transaction assembly and
    the melt / dropauthorities / subgroup operations, followed by the
    properties established about them.

    Conventions.
    - [CAmount] is C++ [int64_t]: a [Z] together with an explicit
      two's-complement wrap ([wrap64]) at every arithmetic operation.
    - [GroupAuthorityFlags] is a [uint64_t] enum: a [Z] in [0, 2^64).
    - [std::vector<unsigned char>] is [list byte]; [std::string] is [string].
    - A [CScript] is kept as the sequence of items pushed by [operator<<]
      (opcodes and data pushes); the byte encoding of one item lives in
      script/script.h, which is not among the sources.
    - Code that throws [JSONRPCError] returns [Throw code message]. *)

From Stdlib Require Import ZArith Lia Bool Ascii String.
From Stdlib Require Import Strings.Byte.
From stdpp Require Import base decidable countable list gmap.

Local Open Scope Z_scope.

(** ** Bytes and identifiers *)

#[global] Instance byte_eq_dec : EqDecision byte := Byte.byte_eq_dec.

#[global] Program Instance byte_countable : Countable byte :=
  inj_countable Byte.to_N Byte.of_N _.
Next Obligation. intros x. apply Byte.of_to_N. Qed.

(** [CTokenGroupID]: the identifier is its byte vector ([bytes()]);
    equality is structural. *)
Definition CTokenGroupID := list byte.

(** [NoGroup]: the default-constructed identifier, with no data. *)
Definition NoGroup : CTokenGroupID := [].

(** Modelled from the spec: [CTokenGroupID::isUserGroup] is declared in
    consensus/tokengroups.h, which is not among the sources.  The spec's data
    model makes the empty byte sequence the no-asset sentinel; every other
    identifier is a user group. *)
Definition isUserGroup (g : CTokenGroupID) : bool :=
  match g with [] => false | _ :: _ => true end.

(** Modelled from the spec: [CTokenGroupID::isSubgroup] and [parentGroup]
    (consensus/tokengroups.h, not among the sources).  A subgroup identifier
    is longer than the 20-byte parent identifier it starts with. *)
Definition PARENT_GROUP_ID_SIZE : nat := 20.

Definition isSubgroup (g : CTokenGroupID) : bool :=
  Nat.ltb PARENT_GROUP_ID_SIZE (length g).

Definition parentGroup (g : CTokenGroupID) : CTokenGroupID :=
  take PARENT_GROUP_ID_SIZE g.

(** ** CAmount arithmetic *)

Definition INT64_MAX : Z := 2 ^ 63 - 1.
Definition INT64_MIN : Z := - 2 ^ 63.

(** Reduction of a mathematical integer to the [int64_t] it is stored as. *)
Definition wrap64 (z : Z) : Z := (z + 2 ^ 63) mod 2 ^ 64 - 2 ^ 63.

Definition add64 (a b : Z) : Z := wrap64 (a + b).
Definition sub64 (a b : Z) : Z := wrap64 (a - b).
Definition mul64 (a b : Z) : Z := wrap64 (a * b).

(** [unsigned int] arithmetic (the approximate transaction size). *)
Definition wrapU32 (z : Z) : Z := z mod 2 ^ 32.
Definition addU32 (a b : Z) : Z := wrapU32 (a + b).
Definition mulU32 (a b : Z) : Z := wrapU32 (a * b).

(** Casts between [uint64_t] (flag words) and [CAmount]. *)
Definition to_uint64 (z : Z) : Z := z mod 2 ^ 64.
Definition to_CAmount (z : Z) : Z := wrap64 z.

Definition in_int64 (z : Z) : Prop := INT64_MIN <= z <= INT64_MAX.

(** ** Scripts and destinations *)

Inductive opcodetype : Set :=
| OP_GROUP | OP_DROP | OP_DUP | OP_HASH160
| OP_EQUALVERIFY | OP_CHECKSIG | OP_EQUAL.

(** One [operator<<] on a [CScript]: an opcode, or a data push. *)
Inductive ScriptItem : Set :=
| Op (o : opcodetype)
| Push (data : list byte).

Definition CScript := list ScriptItem.

(** [script << x] *)
Definition script_push (s : CScript) (x : ScriptItem) : CScript := s ++ [x].
Infix "<<" := script_push (at level 50, left associativity).

(** [CTxDestination]: a [boost::variant] over no destination, a key hash
    and a script hash; the payload is the 160-bit hash as bytes
    ([ToByteVector]). *)
Inductive CTxDestination : Set :=
| CNoDestination
| CKeyID (h : list byte)
| CScriptID (h : list byte).

#[global] Instance opcodetype_eq_dec : EqDecision opcodetype.
Proof. solve_decision. Defined.
#[global] Instance ScriptItem_eq_dec : EqDecision ScriptItem.
Proof. solve_decision. Defined.
#[global] Instance CTxDestination_eq_dec : EqDecision CTxDestination.
Proof. solve_decision. Defined.

(** ** Errors *)

Inductive RPCErrorCode : Set :=
| RPC_INVALID_PARAMS
| RPC_TYPE_ERROR
| RPC_WALLET_ERROR
| RPC_WALLET_INSUFFICIENT_FUNDS
| RPC_WALLET_KEYPOOL_RAN_OUT
| STD_RUNTIME_ERROR.

(** The result of code that may throw: [Throw code message] stands for
    [throw JSONRPCError(code, message)]; a message built with [strprintf]
    is kept as its format string. *)
Inductive Result (A : Type) : Type :=
| Ok (a : A)
| Throw (code : RPCErrorCode) (message : string).
Arguments Ok {A} a.
Arguments Throw {A} code message.

#[global] Instance Result_bind : MBind Result := fun A B k r =>
  match r with
  | Ok a => k a
  | Throw c m => Throw c m
  end.

(** ** Ledger data *)

Record COutPoint : Set := { hash : Z; n : Z }.

Record CTxOut : Set := { nValue : Z; scriptPubKey : CScript }.

Record CTxIn : Set := { prevout : COutPoint; scriptSig : CScript; nSequence : Z }.

Record CMutableTransaction : Set := { vin : list CTxIn; vout : list CTxOut }.

Record CRecipient : Set :=
  { recipientScript : CScript; nAmount : Z; fSubtractFeeFromAmount : bool }.

Definition UINT_MAX : Z := 2 ^ 32 - 1.

(** [CTxIn(prevout)]: empty signature script, final sequence number. *)
Definition mkTxIn (o : COutPoint) : CTxIn :=
  {| prevout := o; scriptSig := []; nSequence := UINT_MAX |}.

(** Modelled from the spec: [CTokenGroupInfo] (consensus/tokengroups.h, not
    among the sources) is the spec's TaggedOutput: the asset identifier
    announced by a script, whether the output is an authority, and the amount
    field, which holds a token quantity or, for an authority, the flag word. *)
Record CTokenGroupInfo : Set :=
  { associatedGroup : CTokenGroupID; isAuthority : bool; quantity : Z }.

(** A wallet coin ([COutput]): the output it refers to, and [groupInfo], the
    [CTokenGroupInfo] that the consensus layer decodes from its script
    ([CTokenGroupInfo tg(out->scriptPubKey)]). *)
Record COutput : Set :=
  { outpoint : COutPoint; txout : CTxOut; groupInfo : CTokenGroupInfo }.

Definition GetValue (c : COutput) : Z := nValue (txout c).
Definition GetOutPoint (c : COutput) : COutPoint := outpoint c.
Definition GetScriptPubKey (c : COutput) : CScript := scriptPubKey (txout c).

(** [COutput(nullptr, 0, 0, false)] *)
Definition nullCOutput : COutput :=
  {| outpoint := {| hash := 0; n := 0 |};
     txout := {| nValue := 0; scriptPubKey := [] |};
     groupInfo := {| associatedGroup := NoGroup; isAuthority := false; quantity := 0 |} |}.

#[global] Instance COutPoint_eq_dec : EqDecision COutPoint.
Proof. solve_decision. Defined.
#[global] Instance CTxOut_eq_dec : EqDecision CTxOut.
Proof. solve_decision. Defined.
#[global] Instance CTokenGroupInfo_eq_dec : EqDecision CTokenGroupInfo.
Proof. solve_decision. Defined.
#[global] Instance COutput_eq_dec : EqDecision COutput.
Proof. solve_decision. Defined.

(** ** Environment and script encoding *)

(** Constants, serializers and identifiers that the wallet code takes from
    consensus/tokengroups.h, serialize.h and the token-group manager.  None
    of them is defined in tokengroupwallet.cpp, so the development is
    parametric in them. *)
Class TokenGroupEnv := {
  (** [GroupAuthorityFlags] enumerators *)
  CTRL : Z;
  MINT : Z;
  MELT : Z;
  CCHILD : Z;
  RESCRIPT : Z;
  SUBGROUP : Z;
  ALL_BITS : Z;
  (** value carried by every grouped output *)
  GROUPED_SATOSHI_AMT : Z;
  (** [SerializeAmount]: the amount field of a grouped script *)
  SerializeAmount : Z -> list byte;
  (** [tokenGroupManager->GetDarkMatterID()] *)
  DarkMatterID : CTokenGroupID;
  (** [Hash160], behind [CPubKey::GetID] *)
  Hash160 : list byte -> list byte;
  (** [ExtractDestination] of script/standard.h: the destination a script
      pays to, when it is a standard one *)
  ExtractDestination : CScript -> option CTxDestination;
  (** [::GetSerializeSize] of a transaction output and of an input *)
  SerializeSizeOut : CTxOut -> Z;
  SerializeSizeIn : CTxIn -> Z;
}.

Definition NONE : Z := 0.

Section ScriptForDestination.
Context `{Env : TokenGroupEnv}.

(** [CGroupScriptVisitor]: the visitor clears the script and then appends
    the template of the destination kind; with a user group the template
    is preceded by the group annotation. *)
Definition CGroupScriptVisitor (group : CTokenGroupID) (quantity : Z)
    (dest : CTxDestination) : bool * CScript :=
  match dest with
  | CNoDestination => (false, [])
  | CKeyID keyID =>
      if isUserGroup group then
        (true, [] << Push group << Push (SerializeAmount quantity)
                  << Op OP_GROUP << Op OP_DROP << Op OP_DROP << Op OP_DUP
                  << Op OP_HASH160 << Push keyID << Op OP_EQUALVERIFY
                  << Op OP_CHECKSIG)
      else
        (true, [] << Op OP_DUP << Op OP_HASH160 << Push keyID
                  << Op OP_EQUALVERIFY << Op OP_CHECKSIG)
  | CScriptID scriptID =>
      if isUserGroup group then
        (true, [] << Push group << Push (SerializeAmount quantity)
                  << Op OP_GROUP << Op OP_DROP << Op OP_DROP
                  << Op OP_HASH160 << Push scriptID << Op OP_EQUAL)
      else
        (true, [] << Op OP_HASH160 << Push scriptID << Op OP_EQUAL)
  end.

(** [GetScriptForDestination(dest, group, amount)] *)
Definition GetScriptForDestination (dest : CTxDestination)
    (group : CTokenGroupID) (amount : Z) : CScript :=
  snd (CGroupScriptVisitor group amount dest).

(** The script grammar in the words of the specification: the standard
    templates, and the group prefix
    [identifier][amount][GROUP marker][DROP], with the extra DROP that
    both templates are preceded by. *)
Definition spec_keyhash_template (h : list byte) : CScript :=
  [Op OP_DUP; Op OP_HASH160; Push h; Op OP_EQUALVERIFY; Op OP_CHECKSIG].

Definition spec_scripthash_template (h : list byte) : CScript :=
  [Op OP_HASH160; Push h; Op OP_EQUAL].

Definition spec_group_prefix (g : CTokenGroupID) (q : Z) : CScript :=
  [Push g; Push (SerializeAmount q); Op OP_GROUP; Op OP_DROP].

Definition spec_extra_drop : CScript := [Op OP_DROP].

Definition spec_encode (dest : CTxDestination) (g : CTokenGroupID) (q : Z)
    : CScript :=
  match dest with
  | CNoDestination => []
  | CKeyID h =>
      if isUserGroup g
      then spec_group_prefix g q ++ spec_extra_drop ++ spec_keyhash_template h
      else spec_keyhash_template h
  | CScriptID h =>
      if isUserGroup g
      then spec_group_prefix g q ++ spec_extra_drop
             ++ spec_scripthash_template h
      else spec_scripthash_template h
  end.

End ScriptForDestination.

(** ** Authority flags *)

(** Bitwise operators of [GroupAuthorityFlags], on 64-bit words. *)
Definition flags_or (a b : Z) : Z := Z.lor a b.
Definition flags_and (a b : Z) : Z := Z.land a b.
Definition flags_not (a : Z) : Z := Z.land (Z.lnot a) (Z.ones 64).

(** Modelled from the spec: [hasCapability] (consensus/tokengroups.h, not
    among the sources): [(flags & required) == required]. *)
Definition hasCapability (flags required : Z) : bool :=
  Z.eqb (flags_and flags required) required.

Section GroupInfo.
Context `{Env : TokenGroupEnv}.

(** Modelled from the spec: the accessors of [CTokenGroupInfo]
    (consensus/tokengroups.h, not among the sources).  The flag word of an
    authority output is its amount field read as [uint64_t]; a
    non-authority output carries no capability.  Renewable means CHILD is
    set, subgroup delegation means SUBGROUP is set. *)
Definition controllingGroupFlags (tg : CTokenGroupInfo) : Z :=
  if isAuthority tg then to_uint64 (quantity tg) else NONE.

Definition allowsMelt (tg : CTokenGroupInfo) : bool :=
  hasCapability (controllingGroupFlags tg) MELT.
Definition allowsRenew (tg : CTokenGroupInfo) : bool :=
  hasCapability (controllingGroupFlags tg) CCHILD.
Definition allowsSubgroup (tg : CTokenGroupInfo) : bool :=
  hasCapability (controllingGroupFlags tg) SUBGROUP.
End GroupInfo.

(** ** The wallet *)

Definition CPubKey := list byte.

(** What the engine uses of [CWallet]: the coins that [FilterCoins] walks
    through, the key pool, the fee policy, and the signing and commit
    collaborators. *)
Record CWallet : Type :=
  { walletCoins : list COutput;
    setKeyPool : list CPubKey;
    GetRequiredFee : Z -> Z;
    SignTransaction : CMutableTransaction -> bool;
    CommitTransaction : CMutableTransaction -> bool }.

Definition withKeyPool (w : CWallet) (pool : list CPubKey) : CWallet :=
  {| walletCoins := walletCoins w;
     setKeyPool := pool;
     GetRequiredFee := GetRequiredFee w;
     SignTransaction := SignTransaction w;
     CommitTransaction := CommitTransaction w |}.

(** [wallet->FilterCoins(coins, pred)] with a predicate that only reads:
    the coins the predicate accepts, in wallet order; the call returns
    their number. *)
Definition FilterCoins (w : CWallet) (pred : COutput -> bool) : list COutput :=
  List.filter pred (walletCoins w).

(** [FilterCoins] with a predicate that updates variables captured by
    reference: the predicate is run on every coin in wallet order and the
    captured state is threaded through. *)
Definition FilterCoinsState {S : Type} (w : CWallet)
    (pred : S -> COutput -> S) (s : S) : S :=
  fold_left pred (walletCoins w) s.

(** [CReserveKey]: the key reserved so far, if any.  The first
    [GetReservedKey] takes the oldest key out of the pool, later calls on
    the same reservation hand out that key again; the call fails when the
    pool is empty. *)
Definition CReserveKey := option CPubKey.

Definition GetReservedKey (rk : CReserveKey) (pool : list CPubKey)
    : option CPubKey * CReserveKey * list CPubKey :=
  match rk with
  | Some k => (Some k, rk, pool)
  | None =>
      match pool with
      | [] => (None, None, [])
      | k :: pool' => (Some k, Some k, pool')
      end
  end.

(** ** Balance aggregation *)

Section Balances.
Context `{Env : TokenGroupEnv}.

(** The saturating update shared by the balance functions:
    [if (q > max - bal) bal = max; else bal += q;] *)
Definition accumulate (bal q : Z) : Z :=
  if q >? sub64 INT64_MAX bal then INT64_MAX else add64 bal q.

(** [balances[g]]: an absent key reads as a value-initialised amount. *)
Definition balanceAt (balances : gmap CTokenGroupID Z) (g : CTokenGroupID) : Z :=
  default 0 (balances !! g).
Definition flagsAt (authorities : gmap CTokenGroupID Z) (g : CTokenGroupID) : Z :=
  default NONE (authorities !! g).

(** The lambda of [GetAllGroupBalancesAndAuthorities]. *)
Definition GetAllGroupBalancesAndAuthorities_step
    (st : gmap CTokenGroupID Z * gmap CTokenGroupID Z) (coin : COutput)
    : gmap CTokenGroupID Z * gmap CTokenGroupID Z :=
  let '(balances, authorities) := st in
  let tg := groupInfo coin in
  let g := associatedGroup tg in
  if bool_decide (g <> NoGroup) then
    let authorities' :=
      <[g := flags_or (flagsAt authorities g) (controllingGroupFlags tg)]> authorities in
    if negb (isAuthority tg)
    then (<[g := accumulate (balanceAt balances g) (quantity tg)]> balances, authorities')
    else (<[g := add64 (balanceAt balances g) 0]> balances, authorities')
  else (balances, authorities).

Definition GetAllGroupBalancesAndAuthorities (w : CWallet)
    (balances authorities : gmap CTokenGroupID Z)
    : gmap CTokenGroupID Z * gmap CTokenGroupID Z :=
  FilterCoinsState w GetAllGroupBalancesAndAuthorities_step (balances, authorities).

(** The destination test shared by the per-group balance functions. *)
Definition useit (dest : CTxDestination) (coin : COutput) : bool :=
  if bool_decide (dest = CNoDestination) then true
  else match ExtractDestination (GetScriptPubKey coin) with
       | Some address => bool_decide (address = dest)
       | None => false
       end.

(** The lambda of [GetGroupBalance]. *)
Definition GetGroupBalance_step (grpID : CTokenGroupID) (dest : CTxDestination)
    (balance : Z) (coin : COutput) : Z :=
  let tg := groupInfo coin in
  if bool_decide (grpID = associatedGroup tg) && negb (isAuthority tg) then
    if useit dest coin then accumulate balance (quantity tg) else balance
  else balance.

Definition GetGroupBalance (grpID : CTokenGroupID) (dest : CTxDestination)
    (w : CWallet) : Z :=
  FilterCoinsState w (GetGroupBalance_step grpID dest) 0.
End Balances.

(** ** Coin selection *)

(** The state of the scan of [NearestGreaterCoin]: [ret], [curBest] and the
    caller's [chosenCoin]. *)
Definition NearestGreaterCoin_step (amt : Z) (st : bool * Z * COutput)
    (coin : COutput) : bool * Z * COutput :=
  let '(ret, curBest, chosenCoin) := st in
  let camt := GetValue coin in
  if (camt >? amt) && (camt <? curBest)
  then (true, camt, coin)
  else (ret, curBest, chosenCoin).

(** [NearestGreaterCoin(coins, amt, chosenCoin)]: the returned flag and the
    value left in [chosenCoin]. *)
Definition NearestGreaterCoin (coins : list COutput) (amt : Z)
    (chosenCoin : COutput) : bool * COutput :=
  let '(ret, _, chosen) :=
    fold_left (NearestGreaterCoin_step amt) coins (false, INT64_MAX, chosenCoin) in
  (ret, chosen).

(** The loop shared by the two greedy selections; [value] is what is added
    for a coin. *)
Fixpoint selection_loop (value : COutput -> Z) (coins : list COutput)
    (amt cur : Z) (chosenCoins : list COutput) : Z * list COutput :=
  match coins with
  | [] => (cur, chosenCoins)
  | coin :: rest =>
      let chosenCoins' := chosenCoins ++ [coin] in
      let cur' := add64 cur (value coin) in
      if cur' >=? amt then (cur', chosenCoins')
      else selection_loop value rest amt cur' chosenCoins'
  end.

(** [CoinSelection(coins, amt, chosenCoins)]: the returned total and the
    contents of [chosenCoins] afterwards. *)
Definition CoinSelection (coins : list COutput) (amt : Z)
    (chosenCoins : list COutput) : Z * list COutput :=
  selection_loop GetValue coins amt 0 chosenCoins.

(** [GroupCoinSelection(coins, amt, chosenCoins)] *)
Definition GroupCoinSelection (coins : list COutput) (amt : Z)
    (chosenCoins : list COutput) : Z * list COutput :=
  selection_loop (fun coin => quantity (groupInfo coin)) coins amt 0 chosenCoins.

(** ** Transaction assembly *)

(** allow this many times fee overpayment, rather than make a change output *)
Definition FEE_FUDGE : Z := 2.

(** Approximate size of signature in a script -- used for guessing fees *)
Definition TX_SIG_SCRIPT_LEN : Z := 72.

Section Assembly.
Context `{Env : TokenGroupEnv}.

(** [pubkey.GetID()] *)
Definition GetID (pubkey : CPubKey) : CTxDestination := CKeyID (Hash160 pubkey).

(** Modelled from the spec: the one-argument [GetScriptForDestination] of
    script/standard.h (not among the sources) emits the untagged template
    of the destination. *)
Definition GetScriptForDestinationStd (dest : CTxDestination) : CScript :=
  match dest with
  | CNoDestination => []
  | CKeyID h => [Op OP_DUP; Op OP_HASH160; Push h; Op OP_EQUALVERIFY; Op OP_CHECKSIG]
  | CScriptID h => [Op OP_HASH160; Push h; Op OP_EQUAL]
  end.

(** [RenewAuthority(authority, outputs, childAuthorityKey)]: the returned
    amount ([uint64_t]), [outputs] afterwards, and the reservation and key
    pool afterwards.  The result of [GetReservedKey] is not looked at: with
    an empty pool the public key stays the default-constructed, empty one. *)
Definition RenewAuthority (authority : COutput) (outputs : list CRecipient)
    (childAuthorityKey : CReserveKey) (pool : list CPubKey)
    : Z * list CRecipient * CReserveKey * list CPubKey :=
  let tg := groupInfo authority in
  if allowsRenew tg then
    let '(got, childAuthorityKey', pool') := GetReservedKey childAuthorityKey pool in
    let pubkey := default [] got in
    let authDest := GetID pubkey in
    let script := GetScriptForDestination authDest (associatedGroup tg)
                    (to_CAmount (flags_and (controllingGroupFlags tg) ALL_BITS)) in
    let recipient := {| recipientScript := script; nAmount := GROUPED_SATOSHI_AMT;
                        fSubtractFeeFromAmount := false |} in
    (to_uint64 (0 + GROUPED_SATOSHI_AMT), outputs ++ [recipient], childAuthorityKey', pool')
  else (0, outputs, childAuthorityKey, pool).

Definition txoutOfRecipient (r : CRecipient) : CTxOut :=
  {| nValue := nAmount r; scriptPubKey := recipientScript r |}.

(** First loop of [ConstructTx]: the recipients become outputs. *)
Definition addOutputs (outputs : list CRecipient) (st : list CTxOut * Z)
    : list CTxOut * Z :=
  fold_left (fun '(vout, approxSize) recipient =>
               let txout := txoutOfRecipient recipient in
               (vout ++ [txout], addU32 approxSize (SerializeSizeOut txout)))
            outputs st.

(** Second loop: the chosen coins become inputs; [inpSize] keeps the size
    of the last one. *)
Definition addInputs (chosenCoins : list COutput) (st : list CTxIn * Z * Z)
    : list CTxIn * Z * Z :=
  fold_left (fun '(vin, inpSize, approxSize) coin =>
               let txin := mkTxIn (GetOutPoint coin) in
               let inpSize' := addU32 (SerializeSizeIn txin) TX_SIG_SCRIPT_LEN in
               (vin ++ [txin], inpSize', addU32 approxSize inpSize'))
            chosenCoins st.

(** A grouped change output of [ConstructTx], made when [available]
    exceeds [needed]; the key comes from [groupChangeKeyReservation]. *)
Definition groupChange (available needed : Z) (grp : CTokenGroupID)
    (st : list CTxOut * Z * CReserveKey * list CPubKey)
    : Result (list CTxOut * Z * CReserveKey * list CPubKey) :=
  let '(vout, approxSize, rk, pool) := st in
  if available >? needed then
    match GetReservedKey rk pool with
    | (None, _, _) =>
        Throw RPC_WALLET_KEYPOOL_RAN_OUT
              "Error: Keypool ran out, please call keypoolrefill first"
    | (Some newKey, rk', pool') =>
        let txout := {| nValue := GROUPED_SATOSHI_AMT;
                        scriptPubKey := GetScriptForDestination (GetID newKey) grp
                                          (sub64 available needed) |} in
        Ok (vout ++ [txout], addU32 approxSize (SerializeSizeOut txout), rk', pool')
    end
  else Ok st.

(** The fee input of [ConstructTx], looked for when the base currency at
    hand does not cover [totalNeeded + fee]. *)
Definition feeInput (w : CWallet) (totalAvailable totalNeeded fee : Z)
    (vin : list CTxIn) : Result (list CTxIn * Z) :=
  if totalAvailable <? add64 totalNeeded fee then
    let bchcoins :=
      FilterCoins w (fun coin => bool_decide (NoGroup = associatedGroup (groupInfo coin))) in
    let '(found, feeCoin) := NearestGreaterCoin bchcoins fee nullCOutput in
    if negb found then
      Throw RPC_WALLET_INSUFFICIENT_FUNDS "Not enough funds for fee of %d ION."
    else
      let txin := {| prevout := GetOutPoint feeCoin; scriptSig := [];
                     nSequence := UINT_MAX - 1 |} in
      Ok (vin ++ [txin], add64 totalAvailable (GetValue feeCoin))
  else Ok (vin, totalAvailable).

(** The base-currency change of [ConstructTx]. *)
Definition feeChange (totalAvailable totalNeeded fee : Z)
    (vout : list CTxOut) (rk : CReserveKey) (pool : list CPubKey)
    : Result (list CTxOut * CReserveKey * list CPubKey) :=
  if totalAvailable >? add64 totalNeeded (mul64 FEE_FUDGE fee) then
    match GetReservedKey rk pool with
    | (None, _, _) =>
        Throw RPC_WALLET_KEYPOOL_RAN_OUT
              "Error: Keypool ran out, please call keypoolrefill first"
    | (Some newKey, rk', pool') =>
        let txout := {| nValue := sub64 (sub64 totalAvailable totalNeeded) fee;
                        scriptPubKey := GetScriptForDestinationStd (GetID newKey) |} in
        Ok (vout ++ [txout], rk', pool')
    end
  else Ok (vout, rk, pool).

(** [ConstructTx]: the committed transaction and the wallet with the keys
    that were kept taken out of its pool. *)
Definition ConstructTx (chosenCoins : list COutput) (outputs : list CRecipient)
    (totalAvailable totalNeeded totalGroupedAvailable totalGroupedNeeded
       totalXDMAvailable totalXDMNeeded : Z)
    (grpID : CTokenGroupID) (w : CWallet)
    : Result (CMutableTransaction * CWallet) :=
  let groupChangeKeyReservation : CReserveKey := None in
  let feeChangeKeyReservation : CReserveKey := None in
  let '(vout, approxSize) := addOutputs outputs ([], 0) in
  let '(vin, inpSize, approxSize) := addInputs chosenCoins ([], 0, approxSize) in
  '(vout, approxSize, groupChangeKeyReservation, pool) ←
    groupChange totalGroupedAvailable totalGroupedNeeded grpID
      (vout, approxSize, groupChangeKeyReservation, setKeyPool w);
  '(vout, approxSize, groupChangeKeyReservation, pool) ←
    groupChange totalXDMAvailable totalXDMNeeded DarkMatterID
      (vout, approxSize, groupChangeKeyReservation, pool);
  let approxSize := addU32 approxSize (mulU32 inpSize 3) in
  let fee := GetRequiredFee w approxSize in
  '(vin, totalAvailable) ← feeInput w totalAvailable totalNeeded fee vin;
  '(vout, feeChangeKeyReservation, pool) ←
    feeChange totalAvailable totalNeeded fee vout feeChangeKeyReservation pool;
  let tx := {| vin := vin; vout := vout |} in
  if negb (SignTransaction w tx) then
    Throw RPC_WALLET_ERROR "Signing transaction failed"
  else if negb (CommitTransaction w tx) then
    Throw RPC_WALLET_ERROR
          ("Error: The transaction was rejected! This might happen if some of the "
           ++ "coins in your wallet were already spent, such as if you used a copy of "
           ++ "wallet.dat and coins were spent in the copy but not marked as spent "
           ++ "here.")
  else Ok (tx, withKeyPool w pool).

(** ** Melt *)

(** [GroupMelt(wtxNew, grpID, totalNeeded, wallet)] *)
Definition GroupMelt (grpID : CTokenGroupID) (totalNeeded : Z) (w : CWallet)
    : Result (CMutableTransaction * CWallet) :=
  let outputs : list CRecipient := [] in
  let coins :=
    FilterCoins w (fun coin =>
      let tg := groupInfo coin in
      bool_decide (associatedGroup tg = grpID) && allowsMelt tg) in
  let coins :=
    if (length coins =? 0)%nat && isSubgroup grpID then
      FilterCoins w (fun coin =>
        let tg := groupInfo coin in
        isAuthority tg && allowsRenew tg && allowsSubgroup tg && allowsMelt tg
        && bool_decide (associatedGroup tg = parentGroup grpID))
    else coins in
  match coins with
  | [] =>
      Throw RPC_WALLET_INSUFFICIENT_FUNDS
            "To melt coins, an authority output with melt capability is needed."
  | authority :: _ =>
      let totalBchAvailable := add64 0 (nValue (txout authority)) in
      let coins :=
        FilterCoins w (fun coin =>
          let tg := groupInfo coin in
          bool_decide (grpID = associatedGroup tg) && negb (isAuthority tg)) in
      let '(totalAvailable, chosenCoins) := GroupCoinSelection coins totalNeeded [] in
      if totalAvailable <? totalNeeded then
        Throw RPC_WALLET_INSUFFICIENT_FUNDS "Not enough tokens in the wallet.  Need %d more."
      else
        let chosenCoins := chosenCoins ++ [authority] in
        let '(renewNeeded, outputs, childAuthorityKey, pool) :=
          RenewAuthority authority outputs None (setKeyPool w) in
        let totalBchNeeded := wrap64 (0 + renewNeeded) in
        ConstructTx chosenCoins outputs totalBchAvailable totalBchNeeded
          (sub64 totalAvailable totalNeeded) 0 0 0 grpID (withKeyPool w pool)
  end.
End Assembly.

(** ** Dropping authorities *)

Section DropAuthorities.
Context `{Env : TokenGroupEnv}.

(** The flag word that stays on the coin:
    [tgInfo.controllingGroupFlags() & ~authoritiesToDrop]. *)
Definition authoritiesToKeep (tgInfo : CTokenGroupInfo) (authoritiesToDrop : Z) : Z :=
  flags_and (controllingGroupFlags tgInfo) (flags_not authoritiesToDrop).

(** The branch of [dropauthorities] that decides on a replacement
    authority: [outputs] and [totalBchNeeded] as handed to [ConstructTx]. *)
Definition dropauthorities_outputs (grpID : CTokenGroupID) (coin : COutput)
    (authoritiesToDrop : Z) : list CRecipient * Z :=
  let script := GetScriptPubKey coin in
  let tgInfo := groupInfo coin in
  let dest := default CNoDestination (ExtractDestination script) in
  let keep := authoritiesToKeep tgInfo authoritiesToDrop in
  if (keep =? CTRL) || (keep =? NONE) || negb (hasCapability keep CTRL) then
    ([], 0)
  else
    let script := GetScriptForDestination dest grpID (to_CAmount keep) in
    let recipient := {| recipientScript := script; nAmount := GROUPED_SATOSHI_AMT;
                        fSubtractFeeFromAmount := false |} in
    ([] ++ [recipient], add64 0 GROUPED_SATOSHI_AMT).

(** [token dropauthorities], from the coin found for the given outpoint
    on: the flag word kept ([authorities_new]) and the transaction. *)
Definition dropauthorities (grpID : CTokenGroupID) (chosenCoins : list COutput)
    (authoritiesToDrop : Z) (w : CWallet)
    : Result (Z * CMutableTransaction * CWallet) :=
  match chosenCoins with
  | [] => Throw RPC_INVALID_PARAMS "Invalid parameter: provided output is not available"
  | coin :: _ =>
      let totalBchAvailable := 0 in
      let '(outputs, totalBchNeeded) :=
        dropauthorities_outputs grpID coin authoritiesToDrop in
      '(tx, w') ← ConstructTx chosenCoins outputs totalBchAvailable totalBchNeeded
                    0 0 0 0 grpID w;
      Ok (authoritiesToKeep (groupInfo coin) authoritiesToDrop, tx, w')
  end.
End DropAuthorities.

(** ** Subgroup identifiers *)

(** The data argument of [token subgroup] as a [UniValue]: an integral
    number, another number, a string, or anything else (including a missing
    argument). *)
Inductive UniValue : Set :=
| VNUM (i : Z)
| VREAL
| VSTR (s : string)
| VOTHER.

Definition is_digit (c : ascii) : bool :=
  (48 <=? nat_of_ascii c)%nat && (nat_of_ascii c <=? 57)%nat.

Fixpoint digits_value (s : string) (acc : Z) : option Z :=
  match s with
  | EmptyString => Some acc
  | String c s' =>
      if is_digit c
      then digits_value s' (acc * 10 + (Z.of_nat (nat_of_ascii c) - 48))
      else None
  end.

(** [boost::lexical_cast<int64_t>(std::string)] in the classic locale: an
    optional sign, then one or more decimal digits and nothing else, denoting
    a value that fits [int64_t]; [None] stands for [bad_lexical_cast]. *)
Definition lexical_cast_int64 (s : string) : option Z :=
  let '(negative, body) :=
    match s with
    | String "-"%char rest => (true, rest)
    | String "+"%char rest => (false, rest)
    | _ => (false, s)
    end in
  match body with
  | EmptyString => None
  | _ =>
      match digits_value body 0 with
      | None => None
      | Some v =>
          if negative
          then (if v <=? 2 ^ 63 then Some (- v) else None)
          else (if v <=? INT64_MAX then Some v else None)
      end
  end.

(** [postfixStr[0]]: the first character, the terminating NUL for the empty
    string. *)
Definition char0 (s : string) : ascii :=
  match s with
  | EmptyString => zero
  | String c _ => c
  end.

Definition byte_of_Z (z : Z) : byte :=
  default x00 (Byte.of_N (Z.to_N (z mod 256))).

(** [WRITEDATA(ss, xSize)] for a [uint64_t]: its eight bytes, least
    significant first (the object representation on the little-endian hosts
    the code runs on). *)
Fixpoint le_bytes (count : nat) (v : Z) : list byte :=
  match count with
  | O => []
  | S count' => byte_of_Z v :: le_bytes count' (Z.shiftr v 8)
  end.

Definition WRITEDATA64 (xSize : Z) : list byte := le_bytes 8 xSize.

(** The postfix computed from the data argument: [isNum], [postfixNum] and
    the bytes pushed by the string branch.  [get_int64()] throws for a JSON
    number that is not an integer of the [int64_t] range. *)
Definition parsePostfix (data : UniValue) : Result (list byte) :=
  match data with
  | VNUM i =>
      if (INT64_MIN <=? i) && (i <=? INT64_MAX)
      then Ok (WRITEDATA64 (to_uint64 i))
      else Throw STD_RUNTIME_ERROR "JSON integer out of range"
  | VREAL => Throw STD_RUNTIME_ERROR "JSON integer out of range"
  | VOTHER => Throw STD_RUNTIME_ERROR "JSON value is not a string as expected"
  | VSTR postfixStr =>
      if Ascii.eqb (char0 postfixStr) "0" && Ascii.eqb (char0 postfixStr) "x" then
        Throw RPC_INVALID_PARAMS "Invalid parameter: Hex not implemented yet"
      else
        match lexical_cast_int64 postfixStr with
        | Some postfixNum => Ok (WRITEDATA64 (to_uint64 postfixNum))
        | None => Ok (list_byte_of_string postfixStr)
        end
  end.

(** [for (...; i++) subgroupbytes[i] = src[...]]: writes [src] into [dst]
    from index [i] on. *)
Fixpoint copy_from (src : list byte) (i : nat) (dst : list byte) : list byte :=
  match src with
  | [] => dst
  | b :: src' => copy_from src' (S i) (<[i := b]> dst)
  end.

(** The vector [subgroupbytes] after the two copy loops. *)
Definition subgroupbytes (grpID : CTokenGroupID) (postfix : list byte) : list byte :=
  let v := replicate (length grpID + length postfix) x00 in
  copy_from postfix (length grpID) (copy_from grpID 0%nat v).

(** [token subgroup] for a group identifier decoded from the first argument
    and the data argument: the identifier handed to [EncodeTokenGroup]. *)
Definition token_subgroup (grpID : CTokenGroupID) (data : UniValue)
    : Result CTokenGroupID :=
  if negb (isUserGroup grpID) then
    Throw RPC_INVALID_PARAMS "Invalid parameter: No group specified"
  else
    postfix ← parsePostfix data;
    if (length postfix =? 0)%nat then
      Throw RPC_INVALID_PARAMS "Invalid parameter: no subgroup postfix provided"
    else Ok (subgroupbytes grpID postfix).

(** ** Quantities used in the statements *)

(** The exact (unbounded) sum of [value] over a list of coins. *)
Definition total (value : COutput -> Z) (coins : list COutput) : Z :=
  foldr (fun coin acc => value coin + acc) 0 coins.

(** The total as the selection loops compute it, one [int64_t] addition
    per coin. *)
Definition total64 (value : COutput -> Z) (coins : list COutput) : Z :=
  fold_left (fun cur coin => add64 cur (value coin)) coins 0.

Definition tokenQuantity (coin : COutput) : Z := quantity (groupInfo coin).

(** The coins that hold a spendable quantity of group [g]. *)
Definition holdsTokens (g : CTokenGroupID) (coin : COutput) : bool :=
  bool_decide (associatedGroup (groupInfo coin) = g)
  && negb (isAuthority (groupInfo coin)).

(** Saturation at the largest [CAmount]. *)
Definition saturate (z : Z) : Z := Z.min INT64_MAX z.

(** A token quantity is a non-negative [CAmount]; only authority outputs
    use the amount field for something else. *)
Definition quantityOk (coin : COutput) : Prop :=
  isAuthority (groupInfo coin) = false -> 0 <= tokenQuantity coin <= INT64_MAX.

(** The result of [NearestGreaterCoin] as the optional coin of the
    specification. *)
Definition nearestGreater (coins : list COutput) (amt : Z) : option COutput :=
  let '(found, coin) := NearestGreaterCoin coins amt nullCOutput in
  if found then Some coin else None.

(** ** A concrete environment and wallet

    Used to run the model on examples.  The capability bits are laid out
    from the top of the flag word, so that an authority's amount field is a
    negative [CAmount]; amounts are serialized in the shortest of 1, 2, 4 or
    8 bytes; [Hash160] is replaced by a 20-byte truncation, which is all the
    examples need. *)

Definition exSerializeAmount (num : Z) : list byte :=
  if num <? 0 then le_bytes 8 (to_uint64 num)
  else if num <? 256 then le_bytes 1 num
  else if num <=? 65535 then le_bytes 2 num
  else if num <=? 4294967295 then le_bytes 4 num
  else le_bytes 8 num.

Definition exExtractDestination (script : CScript) : option CTxDestination :=
  match script with
  | [Op OP_DUP; Op OP_HASH160; Push h; Op OP_EQUALVERIFY; Op OP_CHECKSIG]
  | [Push _; Push _; Op OP_GROUP; Op OP_DROP; Op OP_DROP;
     Op OP_DUP; Op OP_HASH160; Push h; Op OP_EQUALVERIFY; Op OP_CHECKSIG] =>
      Some (CKeyID h)
  | [Op OP_HASH160; Push h; Op OP_EQUAL]
  | [Push _; Push _; Op OP_GROUP; Op OP_DROP; Op OP_DROP;
     Op OP_HASH160; Push h; Op OP_EQUAL] =>
      Some (CScriptID h)
  | _ => None
  end.

Definition exEnv : TokenGroupEnv :=
  {| CTRL := 2 ^ 63;
     MINT := 2 ^ 62;
     MELT := 2 ^ 61;
     CCHILD := 2 ^ 60;
     RESCRIPT := 2 ^ 59;
     SUBGROUP := 2 ^ 58;
     ALL_BITS := 65535 * 2 ^ 48;
     GROUPED_SATOSHI_AMT := 1;
     SerializeAmount := exSerializeAmount;
     DarkMatterID := replicate 32 xff;
     Hash160 := fun data => take 20 (data ++ replicate 20 x00);
     ExtractDestination := exExtractDestination;
     SerializeSizeOut := fun out => 9 + Z.of_nat (length (scriptPubKey out));
     SerializeSizeIn := fun inp => 41 + Z.of_nat (length (scriptSig inp)) |}.

(** A group identifier of 32 bytes (a minted identifier, not a single one)
    and one of 20 bytes. *)
Definition exGroup32 : CTokenGroupID := replicate 32 x07.
Definition exGroup20 : CTokenGroupID := replicate 20 x05.

Definition exKeyA : CPubKey := replicate 33 x0a.
Definition exKeyB : CPubKey := replicate 33 x0b.
Definition exKeyC : CPubKey := replicate 33 x0c.
Definition exOwner : CTxDestination := CKeyID (replicate 20 x01).

(** A coin paying to [exOwner] with the given annotation. *)
Definition exCoin (id : Z) (value : Z) (g : CTokenGroupID) (authority : bool)
    (amount : Z) : COutput :=
  {| outpoint := {| hash := id; n := 0 |};
     txout := {| nValue := value;
                 scriptPubKey := @GetScriptForDestination exEnv exOwner g amount |};
     groupInfo := {| associatedGroup := g; isAuthority := authority;
                     quantity := amount |} |}.

(** A plain coin of the given value. *)
Definition exPlain (id value : Z) : COutput := exCoin id value NoGroup false 0.

(** A token coin: [amount] tokens of [g]. *)
Definition exToken (id : Z) (g : CTokenGroupID) (amount : Z) : COutput :=
  exCoin id 1 g false amount.

(** An authority coin of [g] with flag word [flags]. *)
Definition exAuthority (id : Z) (g : CTokenGroupID) (flags : Z) : COutput :=
  exCoin id 1 g true (to_CAmount flags).

(** A wallet holding a melt authority (not renewable) for [exGroup32], two
    token coins of 7 and 5 tokens, and a plain coin of 100000; flat fee of
    1000; signing and commit succeed. *)
Definition exWallet : CWallet :=
  {| walletCoins :=
       [ exAuthority 1 exGroup32 (Z.lor (@CTRL exEnv) (@MELT exEnv));
         exToken 2 exGroup32 7;
         exToken 3 exGroup32 5;
         exPlain 4 100000 ];
     setKeyPool := [exKeyA; exKeyB; exKeyC];
     GetRequiredFee := fun _ => 1000;
     SignTransaction := fun _ => true;
     CommitTransaction := fun _ => true |}.

(** Three coins of [exGroup20], worth 5, 7 and 9 in base currency and
    holding 3, 4 and 5 tokens. *)
Definition exPool : list COutput :=
  [ exCoin 11 5 exGroup20 false 3;
    exCoin 12 7 exGroup20 false 4;
    exCoin 13 9 exGroup20 false 5 ].

(** A plain coin worth the largest [CAmount]. *)
Definition exHugeCoin : COutput := exPlain 21 INT64_MAX.

(** A wallet whose tokens of [exGroup20] exceed the largest amount: two
    token coins and an authority. *)
Definition exRichWallet : CWallet :=
  {| walletCoins :=
       [ exToken 31 exGroup20 INT64_MAX;
         exAuthority 32 exGroup20 (Z.lor (@CTRL exEnv) (@MINT exEnv));
         exToken 33 exGroup20 5 ];
     setKeyPool := [];
     GetRequiredFee := fun _ => 1000;
     SignTransaction := fun _ => true;
     CommitTransaction := fun _ => true |}.

(** Whether an output carries the annotation of group [g]. *)
Definition taggedWith (g : CTokenGroupID) (out : CTxOut) : bool :=
  match scriptPubKey out with
  | Push g' :: Push _ :: Op OP_GROUP :: _ => bool_decide (g' = g)
  | _ => false
  end.

(** An authority coin of [exGroup20] that may mint and nothing else. *)
Definition exMintAuthority : COutput :=
  exAuthority 41 exGroup20 (Z.lor (@CTRL exEnv) (@MINT exEnv)).

(** An authority coin of [exGroup20] that may mint and melt. *)
Definition exMintMeltAuthority : COutput :=
  exAuthority 42 exGroup20 (Z.lor (Z.lor (@MINT exEnv) (@MELT exEnv)) (@CTRL exEnv)).

(** The replacement authority output of [dropauthorities] for the flag
    word [keep]. *)
Definition replacementAuthority `{Env : TokenGroupEnv} (grpID : CTokenGroupID)
    (coin : COutput) (keep : Z) : CRecipient :=
  {| recipientScript :=
       GetScriptForDestination
         (default CNoDestination (ExtractDestination (GetScriptPubKey coin)))
         grpID (to_CAmount keep);
     nAmount := GROUPED_SATOSHI_AMT;
     fSubtractFeeFromAmount := false |}.

(** Three capability words that are non-empty 64-bit words with no bit in
    common. *)
Definition distinctFlags (a b c : Z) : Prop :=
  (0 < a < 2 ^ 64 /\ 0 < b < 2 ^ 64 /\ 0 < c < 2 ^ 64)
  /\ Z.land a b = 0 /\ Z.land a c = 0 /\ Z.land b c = 0.

(** A grouped output worth [GROUPED_SATOSHI_AMT] that pays [amount] of group
    [grp] (or, for an authority, the flag word) to the key [key]. *)
Definition groupedOutput `{Env : TokenGroupEnv} (key : CPubKey) (grp : CTokenGroupID)
    (amount : Z) : CTxOut :=
  {| nValue := GROUPED_SATOSHI_AMT;
     scriptPubKey := GetScriptForDestination (GetID key) grp amount |}.

(** An untagged output paying [value] in base currency to the key [key]. *)
Definition plainOutput `{Env : TokenGroupEnv} (key : CPubKey) (value : Z) : CTxOut :=
  {| nValue := value; scriptPubKey := GetScriptForDestinationStd (GetID key) |}.

(** The coins [GroupMelt] offers to the selection: the non-authority
    outputs of the group, in wallet order. *)
Definition meltableCoins (grpID : CTokenGroupID) (w : CWallet) : list COutput :=
  FilterCoins w (fun coin =>
    bool_decide (grpID = associatedGroup (groupInfo coin))
    && negb (isAuthority (groupInfo coin))).

(** Assembling a transaction that spends the plain coin of [exWallet] and
    asks for nothing: 100000 at hand, nothing needed. *)
Definition exChangeRun : Result (CMutableTransaction * CWallet) :=
  @ConstructTx exEnv [exPlain 4 100000] [] 100000 0 0 0 0 0 exGroup32 exWallet.

(** Melting 4 tokens of [exGroup32] from [exWallet]: the first token coin,
    of 7 tokens, is selected. *)
Definition exMeltRun : Result (CMutableTransaction * CWallet) :=
  @GroupMelt exEnv exGroup32 4 exWallet.

(** ** Further operations of the engine *)

Section MoreBalances.
Context `{Env : TokenGroupEnv}.

(** The lambda of [GetAllGroupBalances]. *)
Definition GetAllGroupBalances_step (balances : gmap CTokenGroupID Z)
    (coin : COutput) : gmap CTokenGroupID Z :=
  let tg := groupInfo coin in
  if bool_decide (associatedGroup tg <> NoGroup) && negb (isAuthority tg)
  then <[associatedGroup tg :=
           accumulate (balanceAt balances (associatedGroup tg)) (quantity tg)]> balances
  else balances.

(** [GetAllGroupBalances(wallet, balances)]: [balances] afterwards. *)
Definition GetAllGroupBalances (w : CWallet)
    (balances : gmap CTokenGroupID Z) : gmap CTokenGroupID Z :=
  FilterCoinsState w GetAllGroupBalances_step balances.

(** The lambda of [GetGroupBalanceAndAuthorities]. *)
Definition GetGroupBalanceAndAuthorities_step (grpID : CTokenGroupID)
    (dest : CTxDestination) (st : Z * Z) (coin : COutput) : Z * Z :=
  let '(balance, authorities) := st in
  let tg := groupInfo coin in
  if bool_decide (grpID = associatedGroup tg) then
    if useit dest coin then
      let authorities' := flags_or authorities (controllingGroupFlags tg) in
      if negb (isAuthority tg)
      then (accumulate balance (quantity tg), authorities')
      else (add64 balance 0, authorities')
    else (balance, authorities)
  else (balance, authorities).

(** [GetGroupBalanceAndAuthorities(balance, authorities, grpID, dest, wallet)]:
    the two out-parameters afterwards. *)
Definition GetGroupBalanceAndAuthorities (grpID : CTokenGroupID)
    (dest : CTxDestination) (w : CWallet) : Z * Z :=
  FilterCoinsState w (GetGroupBalanceAndAuthorities_step grpID dest) (0, NONE).

(** [ListAllGroupAuthorities(wallet, coins)] *)
Definition ListAllGroupAuthorities (w : CWallet) : list COutput :=
  FilterCoins w (fun coin => if isAuthority (groupInfo coin) then true else false).

(** [ListGroupAuthorities(wallet, coins, grpID)] *)
Definition ListGroupAuthorities (w : CWallet) (grpID : CTokenGroupID) : list COutput :=
  FilterCoins w (fun coin =>
    if isAuthority (groupInfo coin)
       && bool_decide (associatedGroup (groupInfo coin) = grpID)
    then true else false).

End MoreBalances.

(** The wallet with its authority coins taken out. *)
Definition withoutAuthorities (w : CWallet) : CWallet :=
  {| walletCoins := List.filter (fun coin => negb (isAuthority (groupInfo coin)))
                                (walletCoins w);
     setKeyPool := setKeyPool w;
     GetRequiredFee := GetRequiredFee w;
     SignTransaction := SignTransaction w;
     CommitTransaction := CommitTransaction w |}.

(** The coins of the wallet that carry the annotation of group [g]. *)
Definition coinsOfGroup (g : CTokenGroupID) (w : CWallet) : list COutput :=
  List.filter (fun coin => bool_decide (associatedGroup (groupInfo coin) = g))
              (walletCoins w).

(** ** Groups and addresses *)

(** The address kinds that [ControllingAddress] tells apart: the
    script-hash kind, and every other enumerator of [txnouttype]. *)
Inductive txnouttype : Set :=
| TX_SCRIPTHASH
| TX_OTHER.

(** [GetTokenGroup(const CTxDestination &)]: the visitor
    [CTxDestinationTokenGroupExtractor]; a group built from a key or script
    identifier holds the bytes of that identifier. *)
Definition GetTokenGroup (id : CTxDestination) : CTokenGroupID :=
  match id with
  | CKeyID h => h
  | CScriptID h => h
  | CNoDestination => NoGroup
  end.

(** [ControllingAddress(grp, addrType)] *)
Definition ControllingAddress (grp : CTokenGroupID) (addrType : txnouttype)
    : CTxDestination :=
  let data := grp in
  if negb (length data =? 20)%nat then CNoDestination
  else match addrType with
       | TX_SCRIPTHASH => CScriptID data
       | TX_OTHER => CKeyID data
       end.

(** The bitwise union of the flag words of the coins of group [g], on top
    of [start]. *)
Definition unionFlags (g : CTokenGroupID) (coins : list COutput) (start : Z) : Z :=
  fold_left (fun acc coin =>
               if bool_decide (associatedGroup (groupInfo coin) = g)
               then flags_or acc (controllingGroupFlags (groupInfo coin))
               else acc)
            coins start.

(** The number that a sequence of bytes denotes, least significant byte
    first. *)
Definition le_value (bytes : list byte) : Z :=
  foldr (fun b acc => Z.of_N (Byte.to_N b) + 256 * acc) 0 bytes.

(** ** Parsing authority flags *)

(** [::tolower] in the classic locale. *)
Definition tolower (c : ascii) : ascii :=
  let code := nat_of_ascii c in
  if (65 <=? code)%nat && (code <=? 90)%nat then ascii_of_nat (code + 32) else c.

(** [std::transform(p.begin(), p.end(), std::back_inserter(sflag), ::tolower)] *)
Fixpoint lowercase (p : string) : string :=
  match p with
  | EmptyString => EmptyString
  | String c rest => String (tolower c) (lowercase rest)
  end.

(** [params[i].get_str()] on the parameter array: a missing element reads as
    the null value, and only a string value has a string. *)
Definition get_str (params : list UniValue) (i : nat) : Result string :=
  match params !! i with
  | Some (VSTR s) => Ok s
  | _ => Throw STD_RUNTIME_ERROR "JSON value is not a string as expected"
  end.

Section AuthorityParams.
Context `{Env : TokenGroupEnv}.

(** The chain of comparisons in the loop of [ParseAuthorityParams]: the
    flags after a recognised name, nothing for any other string. *)
Definition applyAuthorityFlag (sflag : string) (flags : Z) : option Z :=
  if String.eqb sflag "mint" then Some (flags_or flags MINT)
  else if String.eqb sflag "melt" then Some (flags_or flags MELT)
  else if String.eqb sflag "nochild" then Some (flags_and flags (flags_not CCHILD))
  else if String.eqb sflag "child" then Some (flags_or flags CCHILD)
  else if String.eqb sflag "rescript" then Some (flags_or flags RESCRIPT)
  else if String.eqb sflag "subgroup" then Some (flags_or flags SUBGROUP)
  else None.

(** The loop of [ParseAuthorityParams] on the parameters from [curparam]
    on: the flags and [curparam] at the end. *)
Fixpoint ParseAuthorityParams_loop (rest : list UniValue) (flags : Z) (curparam : nat)
    : Result (Z * nat) :=
  match rest with
  | [] => Throw STD_RUNTIME_ERROR "JSON value is not a string as expected"
  | VSTR p :: rest' =>
      match applyAuthorityFlag (lowercase p) flags with
      | Some flags' =>
          match rest' with
          | [] => Ok (flags', S curparam)
          | _ :: _ => ParseAuthorityParams_loop rest' flags' (S curparam)
          end
      | None => Ok (flags, curparam)
      end
  | _ :: _ => Throw STD_RUNTIME_ERROR "JSON value is not a string as expected"
  end.

(** [ParseAuthorityParams(params, curparam)]: the returned flags and
    [curparam] afterwards. *)
Definition ParseAuthorityParams (params : list UniValue) (curparam : nat)
    : Result (Z * nat) :=
  ParseAuthorityParams_loop (drop curparam params) (flags_or CTRL CCHILD) curparam.

(** The capability that a flag name adds. *)
Definition flagNamed (sflag : string) : Z :=
  if String.eqb sflag "mint" then MINT
  else if String.eqb sflag "melt" then MELT
  else if String.eqb sflag "child" then CCHILD
  else if String.eqb sflag "rescript" then RESCRIPT
  else if String.eqb sflag "subgroup" then SUBGROUP
  else NONE.

End AuthorityParams.

(** The names that [ParseAuthorityParams] recognises. *)
Definition isAuthorityFlagName (sflag : string) : bool :=
  existsb (String.eqb sflag) ["mint"; "melt"; "nochild"; "child"; "rescript"; "subgroup"]%string.

(** A parameter with its string, if it is one, in lower case. *)
Definition lowerParam (v : UniValue) : UniValue :=
  match v with
  | VSTR s => VSTR (lowercase s)
  | _ => v
  end.

(** The parameters of [token createauthority <group> <address> MINT NoChild]. *)
Definition exAuthorityParams : list UniValue :=
  [VSTR "createauthority"; VSTR "group"; VSTR "address"; VSTR "MINT"; VSTR "NoChild"].

(** Assembling a transaction with 5 tokens at hand and 2 needed, 9 of the
    fee token at hand and 4 needed, and 100000 in base currency. *)
Definition exTwoChangeRun : Result (CMutableTransaction * CWallet) :=
  @ConstructTx exEnv [] [] 100000 0 5 2 9 4 exGroup32 exWallet.

(** The input that [ConstructTx] adds for the fee coin. *)
Definition feeTxIn (feeCoin : COutput) : CTxIn :=
  {| prevout := GetOutPoint feeCoin; scriptSig := []; nSequence := UINT_MAX - 1 |}.

(** The coins without a group annotation, among which the fee coin is
    looked for. *)
Definition ungroupedCoins (w : CWallet) : list COutput :=
  FilterCoins w (fun coin => bool_decide (NoGroup = associatedGroup (groupInfo coin))).

(** [exWallet] with an empty key pool. *)
Definition exNoKeysWallet : CWallet := withKeyPool exWallet [].

(** ** Sending tokens *)

(** [FilterCoins] with a predicate whose answer depends on variables it
    captures by reference and updates: the captured state at the end and
    the coins accepted, in wallet order. *)
Definition FilterCoinsWith {S : Type} (w : CWallet)
    (pred : S -> COutput -> S * bool) (s : S) : S * list COutput :=
  fold_left (fun '(s, coins) coin =>
               let '(s', keep) := pred s coin in
               (s', if keep then coins ++ [coin] else coins))
            (walletCoins w) (s, []).

(** The lambda that [GroupSend] filters with: the non-authority outputs of
    [g], whose quantities it adds up in the captured total. *)
Definition sendFilter (g : CTokenGroupID) (totalAvailable : Z) (coin : COutput) : Z * bool :=
  let tg := groupInfo coin in
  if bool_decide (g = associatedGroup tg) && negb (isAuthority tg)
  then (add64 totalAvailable (quantity tg), true)
  else (totalAvailable, false).

Section Send.
Context `{Env : TokenGroupEnv}.

(** [tokenGroupManager->MatchesDarkMatter] (tokens/tokengroupmanager.h,
    not among the sources): whether the group is the auxiliary fee token. *)
Variable MatchesDarkMatter : CTokenGroupID -> bool.

(** The first part of [GroupSend]: the token quantity and the quantity of
    the fee token to provide, the total of the fee-token coins selected,
    and the coins chosen so far. *)
Definition GroupSend_XDM (grpID : CTokenGroupID) (totalNeeded totalXDMNeeded : Z)
    (w : CWallet) : Result (Z * Z * Z * list COutput) :=
  let chosenCoins : list COutput := [] in
  let totalXDMAvailable := 0 in
  if MatchesDarkMatter grpID then
    Ok (add64 totalNeeded totalXDMNeeded, 0, totalXDMAvailable, chosenCoins)
  else if totalXDMNeeded >? 0 then
    let XDMGrpID := DarkMatterID in
    let '(totalXDMAvailable, coins) :=
      FilterCoinsWith w (sendFilter XDMGrpID) totalXDMAvailable in
    if totalXDMAvailable <? totalXDMNeeded then
      Throw RPC_WALLET_INSUFFICIENT_FUNDS "Not enough XDM in the wallet.  Need %d more."
    else
      let '(totalXDMAvailable, chosenCoins) :=
        GroupCoinSelection coins totalXDMNeeded chosenCoins in
      Ok (totalNeeded, totalXDMNeeded, totalXDMAvailable, chosenCoins)
  else Ok (totalNeeded, totalXDMNeeded, totalXDMAvailable, chosenCoins).

(** [GroupSend(wtxNew, grpID, outputs, totalNeeded, totalXDMNeeded, wallet)].
    The loop that logs the outputs has no effect on the transaction.  The
    base currency needed is [GROUPED_SATOSHI_AMT * outputs.size()], a
    product of 64-bit words. *)
Definition GroupSend (grpID : CTokenGroupID) (outputs : list CRecipient)
    (totalNeeded totalXDMNeeded : Z) (w : CWallet)
    : Result (CMutableTransaction * CWallet) :=
  '(totalNeeded, totalXDMNeeded, totalXDMAvailable, chosenCoins) ←
    GroupSend_XDM grpID totalNeeded totalXDMNeeded w;
  let '(totalAvailable, coins) := FilterCoinsWith w (sendFilter grpID) 0 in
  if totalAvailable <? totalNeeded then
    Throw RPC_WALLET_INSUFFICIENT_FUNDS "Not enough tokens in the wallet.  Need %d more."
  else
    let '(totalAvailable, chosenCoins) :=
      GroupCoinSelection coins totalNeeded chosenCoins in
    ConstructTx chosenCoins outputs 0
      (mul64 GROUPED_SATOSHI_AMT (Z.of_nat (length outputs)))
      totalAvailable totalNeeded totalXDMAvailable totalXDMNeeded grpID w.

End Send.

(** ** Group, address and amount parameters *)

Section GroupAddrValue.
Context `{Env : TokenGroupEnv}.

(** Not among the sources: [GetTokenGroup(const std::string &)]
    (tokens/tokengroupmanager), [DecodeDestination] (base58.h) and
    [tokenGroupManager->AmountFromTokenValue], which may throw. *)
Variable GetTokenGroup_str : string -> CTokenGroupID.
Variable DecodeDestination : string -> CTxDestination.
Variable AmountFromTokenValue : UniValue -> CTokenGroupID -> Result Z.

(** [get_str()] on one value. *)
Definition str_of (v : UniValue) : Result string :=
  match v with
  | VSTR s => Ok s
  | _ => Throw STD_RUNTIME_ERROR "JSON value is not a string as expected"
  end.

(** The recipient that the loop of [ParseGroupAddrValue] builds. *)
Definition recipientFor (groupedOutputs : bool) (grpID : CTokenGroupID)
    (dst : CTxDestination) (amount : Z) : CRecipient :=
  if groupedOutputs then
    {| recipientScript := GetScriptForDestination dst grpID amount;
       nAmount := GROUPED_SATOSHI_AMT; fSubtractFeeFromAmount := false |}
  else
    {| recipientScript := GetScriptForDestination dst NoGroup 0;
       nAmount := amount; fSubtractFeeFromAmount := false |}.

(** The loop [while (curparam + 1 < params.size())] on the parameters from
    [curparam] on, two per round. *)
Fixpoint ParseGroupAddrValue_loop (grpID : CTokenGroupID) (groupedOutputs : bool)
    (rest : list UniValue) (outputs : list CRecipient) (totalValue : Z) (curparam : nat)
    : Result (nat * list CRecipient * Z) :=
  match rest with
  | addr :: value :: rest' =>
      s ← str_of addr;
      let dst := DecodeDestination s in
      match dst with
      | CNoDestination =>
          Throw RPC_INVALID_PARAMS "Invalid parameter: destination address"
      | _ =>
          amount ← AmountFromTokenValue value grpID;
          if amount <=? 0 then Throw RPC_TYPE_ERROR "Invalid parameter: amount"
          else
            let recipient := recipientFor groupedOutputs grpID dst amount in
            ParseGroupAddrValue_loop grpID groupedOutputs rest'
              (outputs ++ [recipient]) (add64 totalValue amount) (curparam + 2)
      end
  | _ => Ok (curparam, outputs, totalValue)
  end.

(** [ParseGroupAddrValue(params, curparam, grpID, outputs, totalValue,
    groupedOutputs)]: the returned [curparam], and [grpID], [outputs] and
    [totalValue] afterwards. *)
Definition ParseGroupAddrValue (params : list UniValue) (curparam : nat)
    (outputs : list CRecipient) (groupedOutputs : bool)
    : Result (nat * CTokenGroupID * list CRecipient * Z) :=
  s ← get_str params curparam;
  let grpID := GetTokenGroup_str s in
  if negb (isUserGroup grpID) then
    Throw RPC_INVALID_PARAMS "Invalid parameter: No group specified"
  else
    let curparam := S curparam in
    let totalValue := 0 in
    '(curparam, outputs, totalValue) ←
      ParseGroupAddrValue_loop grpID groupedOutputs (drop curparam params)
        outputs totalValue curparam;
    Ok (curparam, grpID, outputs, totalValue).

End GroupAddrValue.

(** ** Creating an authority *)

Section CreateAuthority.
Context `{Env : TokenGroupEnv}.

(** Not among the sources: [GetTokenGroup(const std::string &)],
    [DecodeDestination], and the enumerator [GroupAuthorityFlags::ALL]
    (consensus/tokengroups.h). *)
Variable GetTokenGroup_str : string -> CTokenGroupID.
Variable DecodeDestination : string -> CTxDestination.
Variable ALL : Z.




End CreateAuthority.

(** ** Sample command lines *)

(** Stand-ins for the decoders that are not among the sources, for the
    examples: one group name, one address, and amounts given as integers. *)
Definition exGetTokenGroup (s : string) : CTokenGroupID :=
  if String.eqb s "group" then exGroup32 else NoGroup.

Definition exDecodeDestination (s : string) : CTxDestination :=
  if String.eqb s "address" then exOwner else CNoDestination.

Definition exAmountFromTokenValue (v : UniValue) (g : CTokenGroupID) : Result Z :=
  match v with
  | VNUM i => Ok i
  | _ => Throw RPC_TYPE_ERROR "Invalid amount"
  end.

(** [token send group address 9]. *)
Definition exSendParams : list UniValue :=
  [VSTR "send"; VSTR "group"; VSTR "address"; VNUM 9].

(** Sending 9 tokens of [exGroup32] from [exWallet], where the group is
    not the fee token and no fee quantity is asked for. *)
Definition exSendRun : Result (CMutableTransaction * CWallet) :=
  @GroupSend exEnv (fun _ => false) exGroup32
    [@recipientFor exEnv true exGroup32 exOwner 9] 9 0 exWallet.

(** All capabilities, for the examples. *)
Definition exALL : Z :=
  Z.lor (@CTRL exEnv) (Z.lor (@MINT exEnv) (Z.lor (@MELT exEnv)
    (Z.lor (@CCHILD exEnv) (Z.lor (@RESCRIPT exEnv) (@SUBGROUP exEnv))))).



(** ** Creating a group *)

Section NewGroup.
Context `{Env : TokenGroupEnv}.

(** [Params().MaxMoneyOut()] (chainparams.h, not among the sources). *)
Variable MaxMoneyOut : Z.

(** The lambda that [token new] looks for its input with: an ungrouped
    output worth less than the lowest value seen so far, which it then
    records in the captured [lowest]. *)
Definition newCoinFilter (lowest : Z) (coin : COutput) : Z * bool :=
  let tg := groupInfo coin in
  if bool_decide (associatedGroup tg = NoGroup) && (nValue (txout coin) <? lowest)
  then (nValue (txout coin), true)
  else (lowest, false).

(** The input of [token new]: [coins[coins.size() - 1]] of the coins the
    filter accepted. *)
Definition new_coin (w : CWallet) : Result COutput :=
  let lowest := MaxMoneyOut in
  let '(lowest, coins) := FilterCoinsWith w newCoinFilter lowest in
  if (0 =? length coins)%nat then
    Throw RPC_INVALID_PARAMS "No coins available in the wallet"
  else Ok (default nullCOutput (coins !! (length coins - 1)%nat)).

End NewGroup.

(** What [findGroupId] feeds to its [CHashWriter]. *)
Inductive HashItem : Set :=
| HOutPoint (input : COutPoint)
| HData (data : CScript)
| HNonce (nonce : Z).

Section FindGroupId.
Context `{Env : TokenGroupEnv}.

(** [CHashWriter::GetHash] (hash.h, not among the sources) on what was
    written, as the 32 bytes of a group identifier. *)
Variable GetHash : list HashItem -> CTokenGroupID.

(** The nonce of one round: incremented, then
    [nonce &= ~((uint64_t)GroupAuthorityFlags::ALL_BITS)]. *)
Definition nextNonce (nonce : Z) : Z :=
  Z.land (to_uint64 (nonce + 1)) (flags_not ALL_BITS).

(** The identifier hashed in one round. *)
Definition groupIdCandidate (input : COutPoint) (opRetTokDesc : CScript) (nonce : Z)
    : CTokenGroupID :=
  GetHash ([HOutPoint input]
           ++ (if (length opRetTokDesc =? 0)%nat then [] else [HData opRetTokDesc])
           ++ [HNonce nonce]).

(** [findGroupId(input, opRetTokDesc, flags, nonce)], for at most [fuel]
    rounds of its [do ... while] loop: the identifier and [nonce]
    afterwards. *)
Fixpoint findGroupId (fuel : nat) (input : COutPoint) (opRetTokDesc : CScript)
    (flags : byte) (nonce : Z) : option (CTokenGroupID * Z) :=
  match fuel with
  | O => None
  | S fuel' =>
      let nonce := nextNonce nonce in
      let ret := groupIdCandidate input opRetTokDesc nonce in
      if bool_decide (ret !! 31%nat <> Some flags)
      then findGroupId fuel' input opRetTokDesc flags nonce
      else Some (ret, nonce)
  end.

End FindGroupId.

(** ** Token description parameters *)

(** [url.find(":") != std::string::npos] *)
Definition has_colon (url : string) : bool :=
  existsb (Ascii.eqb ":"%char) (list_ascii_of_string url).

Section GroupDescParams.

(** [ParseInt32] (utilstrencodings.h) and [uint256::SetHex] followed by
    the 32 bytes of the number (uint256.h), not among the sources. *)
Variable ParseInt32 : string -> option Z.
Variable SetHex : string -> list byte.

(** [ParseGroupDescParams(params, curparam)]: the description fields and
    [curparam] afterwards. *)
Definition ParseGroupDescParams (params : list UniValue) (curparam : nat)
    : Result (list (list byte) * nat) :=
  let ret : list (list byte) := [] in
  tickerStr ← get_str params curparam;
  if (8 <? String.length tickerStr)%nat then
    Throw RPC_INVALID_PARAMS "Ticker %s has too many characters (8 max)"
  else
    let ret := ret ++ [list_byte_of_string tickerStr] in
    let curparam := S curparam in
    if (length params <=? curparam)%nat then
      Throw RPC_INVALID_PARAMS "Missing parameter: token name"
    else
      name ← get_str params curparam;
      let ret := ret ++ [list_byte_of_string name] in
      let curparam := S curparam in
      if (length params <=? curparam)%nat then
        Ok (ret ++ [[]] ++ [[]] ++ [[]], curparam)
      else
        s ← get_str params curparam;
        match ParseInt32 s with
        | Some decimalPosition =>
            if (decimalPosition >? 16) || (decimalPosition <? 0) then
              Throw RPC_INVALID_PARAMS
                    "Parameter %d is invalid - valid values are between 0 and 16"
            else
              let ret := ret ++ [[byte_of_Z decimalPosition]] in
              let curparam := S curparam in
              if (length params <=? curparam)%nat then
                Ok (ret ++ [[]] ++ [[]], curparam)
              else
                url ← get_str params curparam;
                if negb (has_colon url) then
                  Throw RPC_INVALID_PARAMS "Parameter %s is not a URL, missing colon"
                else
                  let ret := ret ++ [list_byte_of_string url] in
                  let curparam := S curparam in
                  if (length params <=? curparam)%nat then
                    Throw RPC_INVALID_PARAMS
                          "Missing parameter: token description document hash"
                  else
                    hexDocHash ← get_str params curparam;
                    Ok (ret ++ [SetHex hexDocHash], curparam)
        | None =>
            Throw RPC_INVALID_PARAMS
                  "Parameter %d is invalid - valid values are between 0 and 16"
        end.

End GroupDescParams.

(** ** More examples *)

(** A hash for the examples: 32 bytes, the last of which is the nonce
    modulo 4. *)
Definition exGetHash (items : list HashItem) : CTokenGroupID :=
  match last items with
  | Some (HNonce nonce) => le_bytes 32 ((nonce mod 4) * 2 ^ 248)
  | _ => replicate 32 x00
  end.

(** [ParseInt32] for the examples: decimal digits only. *)
Definition exParseInt32 (s : string) : option Z :=
  match s with
  | EmptyString => None
  | _ => digits_value s 0
  end.

(** The parameters of [token new TICK Name 8 http://x.y/z 00ff]. *)
Definition exDescParams : list UniValue :=
  [VSTR "new"; VSTR "TICK"; VSTR "Name"; VSTR "8"; VSTR "http://x.y/z"; VSTR "00ff"].

(** ** The capabilities to drop *)

Section DropFlags.
Context `{Env : TokenGroupEnv}.

(** The enumerator [GroupAuthorityFlags::ALL] (consensus/tokengroups.h,
    not among the sources). *)
Variable ALL : Z.

(** The chain of comparisons in the loop of [token dropauthorities]: the
    flags to drop after a recognised name, nothing for any other string. *)
Definition applyDropFlag (sflag : string) (authoritiesToDrop : Z) : option Z :=
  if String.eqb sflag "mint" then Some (flags_or authoritiesToDrop MINT)
  else if String.eqb sflag "melt" then Some (flags_or authoritiesToDrop MELT)
  else if String.eqb sflag "child" then Some (flags_or authoritiesToDrop CCHILD)
  else if String.eqb sflag "rescript" then Some (flags_or authoritiesToDrop RESCRIPT)
  else if String.eqb sflag "subgroup" then Some (flags_or authoritiesToDrop SUBGROUP)
  else if String.eqb sflag "all" then Some (flags_or authoritiesToDrop ALL)
  else None.

(** The loop [while (1)] of [token dropauthorities] on the parameters from
    [curparam] on: the flags to drop and [curparam] at the end. *)
Fixpoint dropauthorities_loop (rest : list UniValue) (authoritiesToDrop : Z)
    (curparam : nat) : Result (Z * nat) :=
  match rest with
  | [] => Throw STD_RUNTIME_ERROR "JSON value is not a string as expected"
  | VSTR p :: rest' =>
      match applyDropFlag (lowercase p) authoritiesToDrop with
      | Some authoritiesToDrop' =>
          match rest' with
          | [] => Ok (authoritiesToDrop', S curparam)
          | _ :: _ => dropauthorities_loop rest' authoritiesToDrop' (S curparam)
          end
      | None => Ok (authoritiesToDrop, curparam)
      end
  | _ :: _ => Throw STD_RUNTIME_ERROR "JSON value is not a string as expected"
  end.

(** The part of [token dropauthorities] that reads the capabilities to
    drop from the parameters at [curparam] and after. *)
Definition dropauthorities_flags (params : list UniValue) (curparam : nat) : Result Z :=
  let authoritiesToDrop := NONE in
  if (curparam <? length params)%nat then
    '(authoritiesToDrop, curparam) ←
      dropauthorities_loop (drop curparam params) authoritiesToDrop curparam;
    if (curparam <? length params)%nat then
      _ ← get_str params curparam;
      Throw RPC_INVALID_PARAMS "Invalid parameter: flag %s"
    else Ok authoritiesToDrop
  else
    Throw RPC_INVALID_PARAMS
          "Invalid parameter: need to specify which capabilities to drop".

(** The capability that a name stands for in that loop. *)
Definition dropFlagNamed (sflag : string) : Z :=
  if String.eqb sflag "mint" then MINT
  else if String.eqb sflag "melt" then MELT
  else if String.eqb sflag "child" then CCHILD
  else if String.eqb sflag "rescript" then RESCRIPT
  else if String.eqb sflag "subgroup" then SUBGROUP
  else if String.eqb sflag "all" then ALL
  else NONE.

End DropFlags.

(** The names that the loop of [token dropauthorities] recognises. *)
Definition isDropFlagName (sflag : string) : bool :=
  existsb (String.eqb sflag) ["mint"; "melt"; "child"; "rescript"; "subgroup"; "all"]%string.

(** The union of the capabilities named, starting from [flags]. *)
Definition unionOfNamed (named : string -> Z) (names : list string) (flags : Z) : Z :=
  fold_left (fun acc s => flags_or acc (named (lowercase s))) names flags.

(** Three token coins of 2^62 tokens of [exGroup20] each: together they
    hold more than the largest [CAmount]. *)
Definition exOverflowPool : list COutput :=
  [ exCoin 51 1 exGroup20 false (2 ^ 62);
    exCoin 52 1 exGroup20 false (2 ^ 62);
    exCoin 53 1 exGroup20 false (2 ^ 62) ].

(** * Properties *)

(** ** Arithmetic *)

Lemma wrap64_id z : in_int64 z -> wrap64 z = z.
Proof.
  unfold in_int64, wrap64, INT64_MIN, INT64_MAX. intros Hz.
  rewrite Z.mod_small by lia. lia.
Qed.

Lemma wrap64_range z : in_int64 (wrap64 z).
Proof.
  unfold in_int64, wrap64, INT64_MIN, INT64_MAX.
  pose proof (Z.mod_pos_bound (z + 2 ^ 63) (2 ^ 64) ltac:(lia)). lia.
Qed.

Lemma add64_exact a b : in_int64 (a + b) -> add64 a b = a + b.
Proof. apply wrap64_id. Qed.

Lemma sub64_exact a b : in_int64 (a - b) -> sub64 a b = a - b.
Proof. apply wrap64_id. Qed.


Lemma to_uint64_to_CAmount z : 0 <= z < 2 ^ 64 -> to_uint64 (to_CAmount z) = z.
Proof.
  intros Hz. unfold to_uint64, to_CAmount, wrap64.
  destruct (Z_lt_le_dec z (2 ^ 63)) as [Hlt | Hge].
  - rewrite (Z.mod_small (z + 2 ^ 63)) by lia.
    replace (z + 2 ^ 63 - 2 ^ 63) with z by lia. apply Z.mod_small; lia.
  - replace (z + 2 ^ 63) with ((z - 2 ^ 63) + 1 * 2 ^ 64) by lia.
    rewrite Z.mod_add by lia. rewrite (Z.mod_small (z - 2 ^ 63)) by lia.
    replace (z - 2 ^ 63 - 2 ^ 63) with (z + (-1) * 2 ^ 64) by lia.
    rewrite Z.mod_add by lia. apply Z.mod_small; lia.
Qed.

(** ** Coin selection *)

Lemma total_app value (l1 l2 : list COutput) :
  total value (l1 ++ l2) = total value l1 + total value l2.
Proof. induction l1 as [| c l1 IH]; simpl; [reflexivity | rewrite IH; lia]. Qed.

Lemma total_cons value (c : COutput) (l : list COutput) :
  total value (c :: l) = value c + total value l.
Proof. reflexivity. Qed.

Lemma total_nonneg value (l : list COutput) :
  Forall (fun c => 0 <= value c) l -> 0 <= total value l.
Proof. induction 1; simpl; lia. Qed.

(** The selection loop only appends: running it on a non-empty
    [chosenCoins] gives the same total, and the same coins put behind
    those already there. *)
Lemma selection_loop_frame value coins : forall amt cur chosen,
  selection_loop value coins amt cur chosen
  = ((selection_loop value coins amt cur []).1,
     chosen ++ (selection_loop value coins amt cur []).2).
Proof.
  induction coins as [| coin rest IH]; intros amt cur chosen; simpl.
  - by rewrite app_nil_r.
  - destruct (add64 cur (value coin) >=? amt); simpl; [done |].
    rewrite (IH amt _ (chosen ++ [coin])), (IH amt _ [coin]). simpl.
    by rewrite <- app_assoc.
Qed.

(** What one run of the loop appends is an initial segment of the coins,
    and the returned total is the 64-bit sum of exactly those coins. *)
Lemma selection_loop_prefix value coins : forall amt cur,
  let r := selection_loop value coins amt cur [] in
  r.2 `prefix_of` coins
  /\ r.1 = fold_left (fun acc coin => add64 acc (value coin)) r.2 cur.
Proof.
  induction coins as [| coin rest IH]; intros amt cur; simpl.
  - split; [done | reflexivity].
  - destruct (add64 cur (value coin) >=? amt); simpl.
    + split; [| reflexivity]. by exists rest.
    + rewrite (selection_loop_frame value rest amt _ [coin]). simpl.
      destruct (IH amt (add64 cur (value coin))) as [Hp Ht].
      split; [by apply prefix_cons | exact Ht].
Qed.

(** The loop on amounts that are non-negative and whose sum is
    representable: no addition wraps, the loop stops at the first running
    total that reaches the target, and it exhausts the list otherwise. *)
Lemma selection_loop_exact value coins : forall amt cur,
  0 <= cur ->
  Forall (fun c => 0 <= value c) coins ->
  cur + total value coins <= INT64_MAX ->
  let r := selection_loop value coins amt cur [] in
  exists rest,
    coins = r.2 ++ rest
    /\ r.1 = cur + total value r.2
    /\ (rest <> [] -> amt <= r.1)
    /\ (forall k, (0 < k < length r.2)%nat -> cur + total value (take k r.2) < amt).
Proof.
  induction coins as [| coin coins IH]; intros amt cur Hcur Hpos Hsum; simpl.
  - exists []. repeat split; try done; simpl; try lia.
  - inversion Hpos as [| ? ? Hc Hrest]; subst. simpl in Hsum.
    pose proof (total_nonneg value coins Hrest) as Hnn.
    assert (Hadd : add64 cur (value coin) = cur + value coin).
    { apply add64_exact. unfold in_int64, INT64_MIN, INT64_MAX in *. lia. }
    rewrite Hadd.
    destruct (cur + value coin >=? amt) eqn:Hge; simpl.
    + exists coins. repeat split; try lia.
    + rewrite (selection_loop_frame value coins amt _ [coin]). simpl.
      destruct (IH amt (cur + value coin)) as (rest & Heq & Ht & Hstop & Hrun);
        [lia | done | lia |].
      exists rest. split; [by rewrite <- Heq |].
      split; [rewrite Ht; lia |].
      split; [done |].
      intros [| k] Hk; [lia |]. simpl. destruct k as [| k].
      * rewrite take_0. simpl. lia.
      * specialize (Hrun (S k)). simpl in Hk.
        assert (Hk' : (0 < S k < length (selection_loop value coins amt (cur + value coin) []).2)%nat) by lia.
        specialize (Hrun Hk'). lia.
Qed.

(** The loop on the example pool: 5 + 7 reaches the target 10 and the
    third coin is not touched; an earlier selection stays in front. *)
Example CoinSelection_exPool :
  CoinSelection exPool 10 [exHugeCoin]
  = (12, [exHugeCoin; exCoin 11 5 exGroup20 false 3; exCoin 12 7 exGroup20 false 4]).
Proof. reflexivity. Qed.

Example GroupCoinSelection_exPool :
  GroupCoinSelection exPool 100 [] = (12, exPool).
Proof. reflexivity. Qed.

(** C9.  Both greedy selections only append to the caller's list of chosen
    coins: after the call the list is the old list followed by an initial
    segment of the coins offered (so every coin chosen earlier keeps its
    position), and the returned total is the sum, in 64-bit arithmetic, of
    the newly appended coins only; it does not depend on what the list
    held before. *)
Theorem selection_only_appends (coins chosenCoins : list COutput) (amt : Z) :
  (let r := CoinSelection coins amt chosenCoins in
   let appended := (CoinSelection coins amt []).2 in
   r.2 = chosenCoins ++ appended
   /\ appended `prefix_of` coins
   /\ (forall i c, chosenCoins !! i = Some c -> r.2 !! i = Some c)
   /\ r.1 = total64 GetValue appended)
  /\
  (let r := GroupCoinSelection coins amt chosenCoins in
   let appended := (GroupCoinSelection coins amt []).2 in
   r.2 = chosenCoins ++ appended
   /\ appended `prefix_of` coins
   /\ (forall i c, chosenCoins !! i = Some c -> r.2 !! i = Some c)
   /\ r.1 = total64 tokenQuantity appended).
Proof.
  unfold CoinSelection, GroupCoinSelection, total64, tokenQuantity.
  split; cbv zeta.
  - rewrite (selection_loop_frame GetValue coins amt 0 chosenCoins). simpl.
    destruct (selection_loop_prefix GetValue coins amt 0) as [Hp Ht].
    repeat split; [done | | done].
    intros i c Hi. by apply lookup_app_l_Some.
  - rewrite (selection_loop_frame _ coins amt 0 chosenCoins). simpl.
    destruct (selection_loop_prefix (fun coin => quantity (groupInfo coin)) coins amt 0)
      as [Hp Ht].
    repeat split; [done | | done].
    intros i c Hi. by apply lookup_app_l_Some.
Qed.

(** The contract of greedy accumulation for one value function, on coins
    with non-negative amounts whose sum is representable. *)
Lemma greedy_contract value coins amt :
  Forall (fun c => 0 <= value c) coins ->
  total value coins <= INT64_MAX ->
  let r := selection_loop value coins amt 0 [] in
  r.2 `prefix_of` coins
  /\ r.1 = total value r.2
  /\ (forall k, (0 < k < length r.2)%nat -> total value (take k r.2) < amt)
  /\ (amt <= total value coins -> amt <= r.1)
  /\ (total value coins < amt -> r.2 = coins /\ r.1 = total value coins).
Proof.
  intros Hpos Hsum.
  destruct (selection_loop_exact value coins amt 0) as (rest & Heq & Ht & Hstop & Hrun);
    [lia | done | lia |].
  cbv zeta. set (r := selection_loop value coins amt 0 []) in *.
  assert (Hrest : Forall (fun c => 0 <= value c) rest).
  { rewrite Heq in Hpos. by apply Forall_app in Hpos as [_ ?]. }
  pose proof (total_nonneg value rest Hrest) as Hnn.
  assert (Htot : total value coins = total value r.2 + total value rest).
  { rewrite Heq at 1. apply total_app. }
  split; [by exists rest |].
  split; [lia |].
  split; [intros k Hk; specialize (Hrun k Hk); lia |].
  split.
  - intros Hamt. destruct rest as [| c rest]; [simpl in Htot; lia |].
    by apply Hstop.
  - intros Hamt. destruct rest as [| c rest].
    + rewrite app_nil_r in Heq. split; [done | simpl in Htot; lia].
    + assert (amt <= r.1) by by apply Hstop. lia.
Qed.

(** The contract of the two selections where no addition overflows: on
    coins with non-negative values whose sum is representable, the
    selection is an initial segment of the list and the returned total is
    its sum; the running total after every coin but the last one selected
    is below the target; the returned total reaches the target whenever the
    whole pool does; otherwise the whole pool is returned with its total,
    which is below the target. *)
Theorem greedy_accumulate_contract (coins : list COutput) (amt : Z) :
  (Forall (fun c => 0 <= GetValue c) coins ->
   total GetValue coins <= INT64_MAX ->
   let r := CoinSelection coins amt [] in
   r.2 `prefix_of` coins
   /\ r.1 = total GetValue r.2
   /\ (forall k, (0 < k < length r.2)%nat -> total GetValue (take k r.2) < amt)
   /\ (amt <= total GetValue coins -> amt <= r.1)
   /\ (total GetValue coins < amt -> r.2 = coins /\ r.1 = total GetValue coins))
  /\
  (Forall (fun c => 0 <= tokenQuantity c) coins ->
   total tokenQuantity coins <= INT64_MAX ->
   let r := GroupCoinSelection coins amt [] in
   r.2 `prefix_of` coins
   /\ r.1 = total tokenQuantity r.2
   /\ (forall k, (0 < k < length r.2)%nat -> total tokenQuantity (take k r.2) < amt)
   /\ (amt <= total tokenQuantity coins -> amt <= r.1)
   /\ (total tokenQuantity coins < amt -> r.2 = coins /\ r.1 = total tokenQuantity coins)).
Proof.
  split; intros Hpos Hsum.
  - exact (greedy_contract GetValue coins amt Hpos Hsum).
  - exact (greedy_contract tokenQuantity coins amt Hpos Hsum).
Qed.

Lemma greedy_accumulate_contract_witness :
  Forall (fun c => 0 <= GetValue c) exPool
  /\ total GetValue exPool <= INT64_MAX
  /\ 10 <= (CoinSelection exPool 10 []).1
  /\ Forall (fun c => 0 <= tokenQuantity c) exPool
  /\ total tokenQuantity exPool <= INT64_MAX
  /\ (GroupCoinSelection exPool 100 []).2 = exPool.
Proof.
  assert (Hv : Forall (fun c => 0 <= GetValue c) exPool)
    by (repeat constructor; vm_compute; discriminate).
  assert (Hq : Forall (fun c => 0 <= tokenQuantity c) exPool)
    by (repeat constructor; vm_compute; discriminate).
  assert (Hsv : total GetValue exPool <= INT64_MAX) by (vm_compute; discriminate).
  assert (Hsq : total tokenQuantity exPool <= INT64_MAX) by (vm_compute; discriminate).
  split; [exact Hv |]. split; [exact Hsv |]. split; [| split; [exact Hq |]; split; [exact Hsq |]].
  - destruct (greedy_accumulate_contract exPool 10) as [H _].
    destruct (H Hv Hsv) as (_ & _ & _ & Hreach & _).
    apply Hreach. vm_compute. discriminate.
  - destruct (greedy_accumulate_contract exPool 100) as [_ H].
    destruct (H Hq Hsq) as (_ & _ & _ & _ & Hall).
    apply Hall. vm_compute. reflexivity.
Defined.

(** C5, at the failing input.  Three token coins of 2^62 tokens each,
    well-formed quantities, hold 3 * 2^62 tokens, at least the target
    2^63 - 1.  The running total of [GroupCoinSelection] is not guarded
    against overflow as the balance functions are: it wraps to -2^63 at the
    second coin, the loop never sees the target reached, and the call
    returns the whole pool with the total -2^62, below the target. *)
Theorem greedy_accumulate_overflow :
  Forall (fun c => 0 <= tokenQuantity c <= INT64_MAX) exOverflowPool
  /\ INT64_MAX <= total tokenQuantity exOverflowPool
  /\ GroupCoinSelection exOverflowPool INT64_MAX [] = (- 2 ^ 62, exOverflowPool)
  /\ ~ (INT64_MAX <= (GroupCoinSelection exOverflowPool INT64_MAX []).1).
Proof.
  split; [| split; [| split]].
  - repeat (apply Forall_cons_2; [vm_compute; split; discriminate |]). apply Forall_nil_2.
  - vm_compute. discriminate.
  - vm_compute. reflexivity.
  - vm_compute. intros H. by apply H.
Qed.

(** ** Nearest greater coin *)

(** The state of the scan after a list of coins: either nothing was
    found, the caller's coin is untouched and no coin lies strictly between
    the target and the largest amount; or the best coin so far is in the
    list, lies strictly between the two, and no coin above the target is
    smaller. *)
Lemma NearestGreaterCoin_scan (coins : list COutput) (amt : Z) (c0 : COutput) :
  match fold_left (NearestGreaterCoin_step amt) coins (false, INT64_MAX, c0) with
  | (true, best, c) =>
      c ∈ coins /\ GetValue c = best /\ amt < best < INT64_MAX
      /\ Forall (fun c' => amt < GetValue c' -> best <= GetValue c') coins
  | (false, best, c) =>
      c = c0 /\ best = INT64_MAX
      /\ Forall (fun c' => ~ (amt < GetValue c' < INT64_MAX)) coins
  end.
Proof.
  induction coins as [| coin coins IH] using rev_ind; simpl.
  - repeat split; constructor.
  - rewrite fold_left_app. simpl.
    destruct (fold_left (NearestGreaterCoin_step amt) coins (false, INT64_MAX, c0))
      as [[ret best] c].
    unfold NearestGreaterCoin_step.
    destruct ((GetValue coin >? amt) && (GetValue coin <? best)) eqn:Hcond.
    + apply andb_true_iff in Hcond as [Hgt Hlt].
      apply Z.gtb_lt in Hgt. apply Z.ltb_lt in Hlt.
      destruct ret.
      * destruct IH as (Hin & Hval & Hrange & Hmin).
        split; [apply elem_of_app; right; by apply list_elem_of_singleton |].
        split; [done |]. split; [lia |].
        apply Forall_app. split.
        -- eapply Forall_impl; [exact Hmin |]. simpl. intros c' Hc' Hgt'.
           specialize (Hc' Hgt'). lia.
        -- repeat constructor. lia.
      * destruct IH as (Hc & Hbest & Hnone). subst best.
        split; [apply elem_of_app; right; by apply list_elem_of_singleton |].
        split; [done |]. split; [lia |].
        apply Forall_app. split.
        -- eapply Forall_impl; [exact Hnone |]. simpl. intros c' Hc' Hgt'. lia.
        -- repeat constructor. lia.
    + apply andb_false_iff in Hcond.
      assert (Hno : ~ (amt < GetValue coin < best)).
      { intros [H1 H2]. destruct Hcond as [Hc | Hc].
        - rewrite Z.gtb_ltb in Hc. apply Z.ltb_ge in Hc. lia.
        - apply Z.ltb_ge in Hc. lia. }
      destruct ret.
      * destruct IH as (Hin & Hval & Hrange & Hmin).
        split; [apply elem_of_app; by left |]. split; [done |]. split; [lia |].
        apply Forall_app. split; [done |].
        repeat constructor. lia.
      * destruct IH as (Hc & Hbest & Hnone). subst best.
        split; [done |]. split; [done |].
        apply Forall_app. split; [done |].
        repeat constructor. done.
Qed.

Example nearestGreater_exPool :
  nearestGreater exPool 6 = Some (exCoin 12 7 exGroup20 false 4)
  /\ nearestGreater exPool 9 = None.
Proof. split; reflexivity. Qed.

(** What [NearestGreaterCoin] reports on any list.  When it reports a coin,
    that coin is one of the list, its value is strictly above the target
    (and strictly below the largest [CAmount]), and no coin of the list
    above the target has a smaller value.  It reports none, leaving the
    caller's coin as it was, exactly when no coin has a value strictly
    between the target and the largest [CAmount], which is the initial
    value of [curBest]. *)
Lemma nearest_greater_below_max (coins : list COutput) (amt : Z) (c0 : COutput) :
  match NearestGreaterCoin coins amt c0 with
  | (true, c) =>
      c ∈ coins /\ amt < GetValue c < INT64_MAX
      /\ Forall (fun c' => amt < GetValue c' -> GetValue c <= GetValue c') coins
  | (false, c) =>
      c = c0 /\ Forall (fun c' => ~ (amt < GetValue c' < INT64_MAX)) coins
  end.
Proof.
  unfold NearestGreaterCoin.
  pose proof (NearestGreaterCoin_scan coins amt c0) as H.
  destruct (fold_left (NearestGreaterCoin_step amt) coins (false, INT64_MAX, c0))
    as [[ret best] c].
  destruct ret.
  - destruct H as (Hin & Hval & Hrange & Hmin). subst best. done.
  - destruct H as (Hc & _ & Hnone). done.
Qed.

(** C6.  On coins worth less than the largest [CAmount], as every amount
    of the money range is, [NearestGreaterCoin] reports a coin of the list
    whose value strictly exceeds the target and is minimal among the coins
    of the list whose value strictly exceeds the target, and it reports
    none exactly when no coin of the list has a value strictly greater than
    the target. *)
Theorem nearest_greater_contract (coins : list COutput) (amt : Z) :
  Forall (fun c => GetValue c < INT64_MAX) coins ->
  (forall c, nearestGreater coins amt = Some c ->
     c ∈ coins /\ amt < GetValue c
     /\ forall c', c' ∈ coins -> amt < GetValue c' -> GetValue c <= GetValue c')
  /\ (nearestGreater coins amt = None
      <-> forall c, c ∈ coins -> ~ (amt < GetValue c)).
Proof.
  intros Hmoney. unfold nearestGreater, NearestGreaterCoin.
  pose proof (NearestGreaterCoin_scan coins amt nullCOutput) as H.
  destruct (fold_left (NearestGreaterCoin_step amt) coins (false, INT64_MAX, nullCOutput))
    as [[ret best] c].
  rewrite Forall_forall in Hmoney.
  destruct ret.
  - destruct H as (Hin & Hval & Hrange & Hmin). subst best. split.
    + intros c1 [= <-]. split; [done |]. split; [lia |].
      rewrite Forall_forall in Hmin. intros c' Hc' Hgt. by apply Hmin.
    + split; [discriminate |]. intros Hnone. exfalso. apply (Hnone c Hin). lia.
  - destruct H as (_ & _ & Hnone). split; [discriminate |].
    split; [| done]. intros _ c' Hc' Hgt.
    rewrite Forall_forall in Hnone. apply (Hnone c' Hc').
    specialize (Hmoney c' Hc'). lia.
Qed.

Lemma nearest_greater_contract_witness :
  Forall (fun c => GetValue c < INT64_MAX) exPool
  /\ (exists c, nearestGreater exPool 6 = Some c /\ c ∈ exPool /\ 6 < GetValue c)
  /\ (nearestGreater exPool 9 = None <-> forall c, c ∈ exPool -> ~ (9 < GetValue c)).
Proof.
  assert (Hmoney : Forall (fun c => GetValue c < INT64_MAX) exPool).
  { repeat (apply Forall_cons_2; [vm_compute; reflexivity |]). apply Forall_nil_2. }
  split; [exact Hmoney |]. split.
  - exists (exCoin 12 7 exGroup20 false 4). split; [reflexivity |].
    destruct (proj1 (nearest_greater_contract exPool 6 Hmoney)
                (exCoin 12 7 exGroup20 false 4) eq_refl) as (Hin & Hgt & _).
    split; [exact Hin | exact Hgt].
  - exact (proj2 (nearest_greater_contract exPool 9 Hmoney)).
Defined.

(** The bound on the values is needed.  A single coin worth the largest
    [CAmount], which no amount of the money range is, exceeds the target 5,
    yet none is reported, because [curBest] starts at that very value. *)
Lemma nearest_greater_misses_max_coin :
  ~ (nearestGreater [exHugeCoin] 5 = None
     <-> forall c, c ∈ [exHugeCoin] -> ~ (5 < GetValue c)).
Proof.
  intros [Hnone _].
  apply (Hnone eq_refl exHugeCoin); [by apply list_elem_of_singleton |].
  vm_compute. reflexivity.
Qed.

(** ** Script encoding *)

Section ScriptProperties.
Context `{Env : TokenGroupEnv}.

(** C8.  For a key-hash and for a script-hash destination, encoding with
    the no-group identifier gives exactly the standard template, and
    encoding with a user group (a non-empty identifier) gives exactly the
    identifier push, the serialized amount push, the group marker and two
    DROP opcodes, followed by the template.  In all cases the code agrees
    with the grammar of the specification, in which the [marker][DROP]
    prefix is followed by one extra DROP for both templates. *)
Theorem script_encoding_grammar (h : list byte) (b : byte) (g : list byte) (q : Z) :
  GetScriptForDestination (CKeyID h) NoGroup q
  = [Op OP_DUP; Op OP_HASH160; Push h; Op OP_EQUALVERIFY; Op OP_CHECKSIG]
  /\ GetScriptForDestination (CScriptID h) NoGroup q
     = [Op OP_HASH160; Push h; Op OP_EQUAL]
  /\ GetScriptForDestination (CKeyID h) (b :: g) q
     = [Push (b :: g); Push (SerializeAmount q); Op OP_GROUP; Op OP_DROP; Op OP_DROP;
        Op OP_DUP; Op OP_HASH160; Push h; Op OP_EQUALVERIFY; Op OP_CHECKSIG]
  /\ GetScriptForDestination (CScriptID h) (b :: g) q
     = [Push (b :: g); Push (SerializeAmount q); Op OP_GROUP; Op OP_DROP; Op OP_DROP;
        Op OP_HASH160; Push h; Op OP_EQUAL]
  /\ (forall dest grp, GetScriptForDestination dest grp q = spec_encode dest grp q).
Proof.
  repeat split.
  intros dest grp. unfold GetScriptForDestination, spec_encode.
  destruct dest as [| h' | h']; simpl; [reflexivity | |];
    destruct (isUserGroup grp); reflexivity.
Qed.

End ScriptProperties.

(** ** Balance aggregation *)

Lemma accumulate_saturates bal q :
  0 <= bal <= INT64_MAX -> 0 <= q <= INT64_MAX ->
  accumulate bal q = saturate (bal + q).
Proof.
  intros Hb Hq. unfold accumulate, saturate.
  rewrite sub64_exact by (unfold in_int64, INT64_MIN, INT64_MAX in *; lia).
  destruct (q >? INT64_MAX - bal) eqn:Hgt.
  - rewrite Z.gtb_ltb in Hgt. apply Z.ltb_lt in Hgt. lia.
  - rewrite Z.gtb_ltb in Hgt. apply Z.ltb_ge in Hgt.
    rewrite add64_exact by (unfold in_int64, INT64_MIN, INT64_MAX in *; lia). lia.
Qed.

Lemma saturate_range z : 0 <= z -> 0 <= saturate z <= INT64_MAX.
Proof. unfold saturate, INT64_MAX. lia. Qed.

Lemma saturate_saturate a b : 0 <= b -> saturate (saturate a + b) = saturate (a + b).
Proof. unfold saturate, INT64_MAX. lia. Qed.

Lemma balanceAt_insert (m : gmap CTokenGroupID Z) g v g' :
  balanceAt (<[g := v]> m) g' = if decide (g = g') then v else balanceAt m g'.
Proof.
  unfold balanceAt. rewrite lookup_insert.
  destruct (decide (g = g')); reflexivity.
Qed.

Lemma holdsTokens_quantity g coins :
  Forall quantityOk coins ->
  Forall (fun c => 0 <= tokenQuantity c) (List.filter (holdsTokens g) coins).
Proof.
  intros Hok. apply Forall_forall. intros c Hc.
  apply list_elem_of_In, filter_In in Hc as [Hin Hholds].
  apply list_elem_of_In in Hin.
  rewrite Forall_forall in Hok. specialize (Hok c Hin).
  unfold holdsTokens in Hholds. apply andb_true_iff in Hholds as [_ Hna].
  apply negb_true_iff in Hna. apply Hok in Hna. lia.
Qed.

Section BalanceProperties.
Context `{Env : TokenGroupEnv}.

(** One coin of the wallet-wide scan: the balance read at [g] grows, with
    saturation, by the coin's quantity when the coin holds tokens of [g],
    and all balances stay non-negative amounts. *)
Lemma GetAllGroupBalancesAndAuthorities_step_spec balances authorities coin :
  (forall g, 0 <= balanceAt balances g <= INT64_MAX) ->
  quantityOk coin ->
  let st := GetAllGroupBalancesAndAuthorities_step (balances, authorities) coin in
  (forall g, 0 <= balanceAt st.1 g <= INT64_MAX)
  /\ (forall g, g <> NoGroup ->
        balanceAt st.1 g
        = saturate (balanceAt balances g
                    + (if holdsTokens g coin then tokenQuantity coin else 0))).
Proof.
  intros Hinv Hok. unfold GetAllGroupBalancesAndAuthorities_step, holdsTokens.
  set (tg := groupInfo coin). set (grp := associatedGroup tg).
  assert (Hsat0 : forall g, saturate (balanceAt balances g + 0) = balanceAt balances g).
  { intros g. specialize (Hinv g). unfold saturate. lia. }
  destruct (bool_decide (grp <> NoGroup)) eqn:Hgrp; cbv zeta.
  - destruct (isAuthority tg) eqn:Hauth; simpl.
    + assert (Hsame : add64 (balanceAt balances grp) 0 = balanceAt balances grp).
      { rewrite add64_exact; [lia |]. specialize (Hinv grp).
        unfold in_int64, INT64_MIN, INT64_MAX in *. lia. }
      rewrite Hsame. split.
      * intros g. rewrite balanceAt_insert. destruct (decide (grp = g)); subst; apply Hinv.
      * intros g _. rewrite balanceAt_insert, andb_false_r, Hsat0.
        destruct (decide (grp = g)); by subst.
    + assert (Hq : 0 <= tokenQuantity coin <= INT64_MAX) by by apply Hok.
      change (quantity tg) with (tokenQuantity coin).
      rewrite (accumulate_saturates _ _ (Hinv grp) Hq). split.
      * intros g. rewrite balanceAt_insert. destruct (decide (grp = g)); [| apply Hinv].
        apply saturate_range. specialize (Hinv grp). lia.
      * intros g _. rewrite balanceAt_insert, andb_true_r.
        destruct (decide (grp = g)) as [-> | Hne].
        -- by rewrite bool_decide_eq_true_2.
        -- by rewrite bool_decide_eq_false_2, Hsat0.
  - apply bool_decide_eq_false in Hgrp. apply dec_stable in Hgrp. simpl. split; [done |].
    intros g Hg. rewrite bool_decide_eq_false_2, Hsat0; [done | congruence].
Qed.

Lemma GetAllGroupBalancesAndAuthorities_fold coins : forall balances authorities g,
  g <> NoGroup ->
  (forall g', 0 <= balanceAt balances g' <= INT64_MAX) ->
  Forall quantityOk coins ->
  balanceAt (fold_left GetAllGroupBalancesAndAuthorities_step coins
               (balances, authorities)).1 g
  = saturate (balanceAt balances g
              + total tokenQuantity (List.filter (holdsTokens g) coins)).
Proof.
  induction coins as [| coin coins IH]; intros balances authorities g Hg Hinv Hok.
  - simpl. specialize (Hinv g). unfold saturate. lia.
  - inversion Hok as [| ? ? Hcoin Hrest]; subst.
    destruct (GetAllGroupBalancesAndAuthorities_step_spec balances authorities coin Hinv Hcoin)
      as [Hinv' Hstep].
    cbn [fold_left].
    destruct (GetAllGroupBalancesAndAuthorities_step (balances, authorities) coin)
      as [balances' authorities'] eqn:Hst.
    simpl in Hinv', Hstep.
    rewrite (IH balances' authorities' g Hg Hinv' Hrest), (Hstep g Hg).
    pose proof (total_nonneg tokenQuantity _ (holdsTokens_quantity g coins Hrest)) as Hnn.
    rewrite saturate_saturate by done.
    cbn [List.filter]. destruct (holdsTokens g coin); simpl; f_equal; lia.
Qed.

Lemma GetGroupBalance_step_spec grpID dest balance coin :
  0 <= balance <= INT64_MAX ->
  quantityOk coin ->
  GetGroupBalance_step grpID dest balance coin
  = saturate (balance
              + (if holdsTokens grpID coin && useit dest coin
                 then tokenQuantity coin else 0)).
Proof.
  intros Hb Hok. unfold GetGroupBalance_step, holdsTokens.
  assert (Hsat0 : saturate (balance + 0) = balance) by (unfold saturate; lia).
  rewrite (bool_decide_ext (grpID = associatedGroup (groupInfo coin))
                           (associatedGroup (groupInfo coin) = grpID)) by done.
  destruct (bool_decide (associatedGroup (groupInfo coin) = grpID)); simpl; [| done].
  destruct (isAuthority (groupInfo coin)) eqn:Hauth; simpl; [done |].
  destruct (useit dest coin); [| done].
  apply accumulate_saturates; [done | by apply Hok].
Qed.

Lemma GetGroupBalance_fold grpID dest coins : forall balance,
  0 <= balance <= INT64_MAX ->
  Forall quantityOk coins ->
  fold_left (GetGroupBalance_step grpID dest) coins balance
  = saturate (balance
              + total tokenQuantity
                  (List.filter (fun c => holdsTokens grpID c && useit dest c) coins)).
Proof.
  induction coins as [| coin coins IH]; intros balance Hb Hok.
  - simpl. unfold saturate. lia.
  - inversion Hok as [| ? ? Hcoin Hrest]; subst. cbn [fold_left List.filter].
    assert (Hnn : 0 <= total tokenQuantity
                    (List.filter (fun c => holdsTokens grpID c && useit dest c) coins)).
    { apply total_nonneg, Forall_forall. intros c Hc.
      apply list_elem_of_In, filter_In in Hc as [Hin Hc].
      apply andb_true_iff in Hc as [Hc _].
      pose proof (holdsTokens_quantity grpID coins Hrest) as Hall.
      rewrite Forall_forall in Hall. apply Hall.
      apply list_elem_of_In, filter_In. by split. }
    rewrite (GetGroupBalance_step_spec grpID dest balance coin Hb Hcoin).
    destruct (holdsTokens grpID coin && useit dest coin) eqn:Hsel.
    + assert (Hq : 0 <= tokenQuantity coin <= INT64_MAX).
      { apply Hcoin. apply andb_true_iff in Hsel as [Hh _]. unfold holdsTokens in Hh.
        apply andb_true_iff in Hh as [_ Hna]. by apply negb_true_iff in Hna. }
      assert (Hb' : 0 <= saturate (balance + tokenQuantity coin) <= INT64_MAX)
        by (apply saturate_range; lia).
      rewrite (IH _ Hb' Hrest), saturate_saturate by done.
      rewrite total_cons. f_equal. lia.
    + assert (Hsat0 : saturate (balance + 0) = balance) by (unfold saturate; lia).
      rewrite Hsat0. by rewrite (IH _ Hb Hrest).
Qed.

(** C4.  In a wallet whose token quantities are non-negative amounts, the
    balance that the wallet-wide aggregation reports for a group is the sum
    of the quantities of the non-authority outputs of that group, clamped
    to the largest amount (never wrapped); the per-group balance is the
    same sum over the outputs that also pass the destination filter.
    Authority outputs are no part of either sum, whatever their amount
    field holds. *)
Theorem balance_is_saturated_sum (w : CWallet) :
  Forall quantityOk (walletCoins w) ->
  (forall g, g <> NoGroup ->
     balanceAt (GetAllGroupBalancesAndAuthorities w ∅ ∅).1 g
     = saturate (total tokenQuantity (List.filter (holdsTokens g) (walletCoins w))))
  /\ (forall g dest,
        GetGroupBalance g dest w
        = saturate (total tokenQuantity
                      (List.filter (fun c => holdsTokens g c && useit dest c)
                                   (walletCoins w))))
  /\ (forall g,
        GetGroupBalance g CNoDestination w
        = saturate (total tokenQuantity (List.filter (holdsTokens g) (walletCoins w)))).
Proof.
  intros Hok.
  assert (H2 : forall g dest,
        GetGroupBalance g dest w
        = saturate (total tokenQuantity
                      (List.filter (fun c => holdsTokens g c && useit dest c)
                                   (walletCoins w)))).
  { intros g dest. unfold GetGroupBalance, FilterCoinsState.
    rewrite GetGroupBalance_fold; [f_equal | unfold INT64_MAX; lia | done]. }
  split; [| split; [exact H2 |]].
  - intros g Hg. unfold GetAllGroupBalancesAndAuthorities, FilterCoinsState.
    rewrite GetAllGroupBalancesAndAuthorities_fold; [done | done | | done].
    intros g'. unfold balanceAt. rewrite lookup_empty. simpl. unfold INT64_MAX. lia.
  - intros g. rewrite H2. do 2 f_equal.
    apply filter_ext. intros c. unfold useit. simpl. by rewrite andb_true_r.
Qed.

End BalanceProperties.

Lemma exWallet_quantities : Forall quantityOk (walletCoins exRichWallet).
Proof.
  unfold exRichWallet; cbn [walletCoins].
  apply Forall_cons_2; [| apply Forall_cons_2; [| apply Forall_cons_2; [| apply Forall_nil_2]]];
    intros Hauth; vm_compute in Hauth |- *;
    first [discriminate Hauth | split; discriminate].
Defined.

Lemma balance_is_saturated_sum_witness :
  Forall quantityOk (walletCoins exRichWallet)
  /\ balanceAt (GetAllGroupBalancesAndAuthorities exRichWallet ∅ ∅).1 exGroup20
     = INT64_MAX
  /\ @GetGroupBalance exEnv exGroup20 exOwner exRichWallet = INT64_MAX.
Proof.
  pose proof (@balance_is_saturated_sum exEnv exRichWallet exWallet_quantities)
    as (Hall & Hdest & _).
  split; [exact exWallet_quantities |]. split.
  - rewrite (Hall exGroup20) by discriminate. vm_compute. reflexivity.
  - rewrite (Hdest exGroup20 exOwner). vm_compute. reflexivity.
Defined.

(** ** Subgroup identifiers *)

(** Writing [src] over a segment of the same length leaves what is before
    and after the segment alone. *)
Lemma copy_from_segment (src : list byte) : forall (pre mid post : list byte),
  length mid = length src ->
  copy_from src (length pre) (pre ++ mid ++ post) = pre ++ src ++ post.
Proof.
  induction src as [| b src IH]; intros pre mid post Hlen.
  - destruct mid; [reflexivity | discriminate].
  - destruct mid as [| m mid]; [discriminate |]. simpl in Hlen.
    cbn [copy_from].
    replace (<[length pre := b]> (pre ++ (m :: mid) ++ post))
      with ((pre ++ [b]) ++ mid ++ post).
    + replace (S (length pre)) with (length (pre ++ [b]))
        by (rewrite length_app; simpl; lia).
      rewrite (IH (pre ++ [b]) mid post) by lia.
      by rewrite <- app_assoc.
    + replace (length pre) with (length pre + 0)%nat at 1 by lia.
      rewrite insert_app_r. simpl. by rewrite <- app_assoc.
Qed.

(** The two copy loops build the concatenation. *)
Lemma subgroupbytes_app (grpID : CTokenGroupID) (postfix : list byte) :
  subgroupbytes grpID postfix = grpID ++ postfix.
Proof.
  unfold subgroupbytes. rewrite replicate_add.
  pose proof (copy_from_segment grpID [] (replicate (length grpID) x00)
                (replicate (length postfix) x00) (length_replicate _ _)) as Hfirst.
  simpl in Hfirst. rewrite Hfirst.
  pose proof (copy_from_segment postfix grpID (replicate (length postfix) x00) []
                (length_replicate _ _)) as Hsecond.
  by rewrite !app_nil_r in Hsecond.
Qed.

Example token_subgroup_number :
  token_subgroup [x01; x02] (VNUM 258)
  = Ok [x01; x02; x02; x01; x00; x00; x00; x00; x00; x00].
Proof. reflexivity. Qed.

Example token_subgroup_numeric_string :
  token_subgroup [x01; x02] (VSTR "258") = token_subgroup [x01; x02] (VNUM 258).
Proof. reflexivity. Qed.

Example token_subgroup_hex_string :
  token_subgroup [x01; x02] (VSTR "0x1f")
  = Ok ([x01; x02] ++ list_byte_of_string "0x1f").
Proof. reflexivity. Qed.

(** [token subgroup] once the postfix bytes are known. *)
Lemma token_subgroup_of_postfix (grpID : CTokenGroupID) (data : UniValue) (s : list byte) :
  parsePostfix data = Ok s ->
  token_subgroup grpID data
  = match grpID, s with
    | [], _ => Throw RPC_INVALID_PARAMS "Invalid parameter: No group specified"
    | _ :: _, [] =>
        Throw RPC_INVALID_PARAMS "Invalid parameter: no subgroup postfix provided"
    | _ :: _, _ :: _ => Ok (grpID ++ s)
    end.
Proof.
  intros Hparse. unfold token_subgroup.
  destruct grpID as [| b g]; [reflexivity |]. simpl. rewrite Hparse. simpl.
  destruct s as [| c s]; [reflexivity |]. simpl.
  by rewrite subgroupbytes_app.
Qed.

(** A number given as data is accepted exactly in the [int64_t] range. *)
Lemma parsePostfix_VNUM (i : Z) :
  parsePostfix (VNUM i)
  = if (INT64_MIN <=? i) && (i <=? INT64_MAX)
    then Ok (WRITEDATA64 (to_uint64 i))
    else Throw STD_RUNTIME_ERROR "JSON integer out of range".
Proof. reflexivity. Qed.

Lemma parsePostfix_VNUM_Ok (i : Z) (s : list byte) :
  parsePostfix (VNUM i) = Ok s -> in_int64 i /\ s = WRITEDATA64 (to_uint64 i).
Proof.
  rewrite parsePostfix_VNUM.
  destruct ((INT64_MIN <=? i) && (i <=? INT64_MAX)) eqn:Hrange; [| discriminate].
  apply andb_true_iff in Hrange as [Hlo Hhi].
  apply Z.leb_le in Hlo, Hhi. intros [= <-]. by split.
Qed.

(** A number outside the [int64_t] range is refused before any identifier
    is built. *)
Example token_subgroup_number_out_of_range :
  token_subgroup exGroup20 (VNUM (2 ^ 64 + 5))
  = Throw STD_RUNTIME_ERROR "JSON integer out of range".
Proof. reflexivity. Qed.

(** C3, as amended.  For a data argument from which the postfix bytes [s]
    are obtained (a number is one of the [int64_t] range, and gives its
    eight bytes), [token subgroup] returns the concatenation of the group
    identifier's bytes and [s] for every non-empty identifier, whatever its
    length, and fails with an invalid-parameter error exactly when the
    identifier is the empty no-group one or [s] is empty. *)
Theorem subgroup_concatenates (grpID : CTokenGroupID) (data : UniValue) (s : list byte) :
  parsePostfix data = Ok s ->
  (length s = 8%nat \/ exists str, data = VSTR str /\ s = list_byte_of_string str)
  /\ (forall i, data = VNUM i -> in_int64 i /\ s = WRITEDATA64 (to_uint64 i))
  /\ token_subgroup grpID data
     = match grpID, s with
       | [], _ => Throw RPC_INVALID_PARAMS "Invalid parameter: No group specified"
       | _ :: _, [] =>
           Throw RPC_INVALID_PARAMS "Invalid parameter: no subgroup postfix provided"
       | _ :: _, _ :: _ => Ok (grpID ++ s)
       end.
Proof.
  intros Hparse. split; [| split; [| by apply token_subgroup_of_postfix]].
  - destruct data as [i | | str |]; try discriminate.
    + left. by apply parsePostfix_VNUM_Ok in Hparse as [_ ->].
    + simpl in Hparse.
      destruct (Ascii.eqb (char0 str) "0" && Ascii.eqb (char0 str) "x"); [discriminate |].
      destruct (lexical_cast_int64 str).
      * left. by injection Hparse as <-.
      * right. exists str. by injection Hparse as <-.
  - intros i ->. by apply parsePostfix_VNUM_Ok.
Qed.

Lemma subgroup_concatenates_witness :
  parsePostfix (VSTR "rewards") = Ok (list_byte_of_string "rewards")
  /\ token_subgroup exGroup20 (VSTR "rewards")
     = Ok (exGroup20 ++ list_byte_of_string "rewards").
Proof.
  split; [reflexivity |].
  exact (proj2 (proj2 (subgroup_concatenates exGroup20 (VSTR "rewards")
                         (list_byte_of_string "rewards") eq_refl))).
Defined.

(** C3, counterexample.  A 32-byte identifier is not a single (20-byte)
    identifier, yet deriving a subgroup from it does not fail: the result is
    the concatenation. *)
Lemma subgroup_of_non_single_parent :
  ~ (length exGroup32 <> 20%nat ->
     exists message, token_subgroup exGroup32 (VSTR "a") = Throw RPC_INVALID_PARAMS message).
Proof.
  intros Hclaim. destruct Hclaim as [message Hfail]; [discriminate |].
  vm_compute in Hfail. discriminate Hfail.
Qed.

(** C10.  The guard in front of the hexadecimal error compares the first
    character with both '0' and 'x' and never holds, so no data argument
    makes [token subgroup] fail with that error; a string that is not a
    decimal number is turned into the postfix byte for byte, and a string
    that begins with 0x is such a string, so on a user group the result is
    the identifier followed by the bytes of the string, 0x included. *)
Theorem hex_guard_unreachable (grpID : CTokenGroupID) (data : UniValue) (s rest : string) :
  (Ascii.eqb (char0 s) "0" && Ascii.eqb (char0 s) "x" = false)
  /\ parsePostfix data
     <> Throw RPC_INVALID_PARAMS "Invalid parameter: Hex not implemented yet"
  /\ token_subgroup grpID data
     <> Throw RPC_INVALID_PARAMS "Invalid parameter: Hex not implemented yet"
  /\ parsePostfix (VSTR s)
     = match lexical_cast_int64 s with
       | Some postfixNum => Ok (WRITEDATA64 (to_uint64 postfixNum))
       | None => Ok (list_byte_of_string s)
       end
  /\ lexical_cast_int64 (String "0" (String "x" rest)) = None
  /\ token_subgroup grpID (VSTR (String "0" (String "x" rest)))
     = match grpID with
       | [] => Throw RPC_INVALID_PARAMS "Invalid parameter: No group specified"
       | _ :: _ => Ok (grpID ++ list_byte_of_string (String "0" (String "x" rest)))
       end.
Proof.
  assert (Hguard : forall t, Ascii.eqb (char0 t) "0" && Ascii.eqb (char0 t) "x" = false).
  { intros t. destruct (Ascii.eqb (char0 t) "0") eqn:H0; [| reflexivity].
    apply Ascii.eqb_eq in H0. rewrite H0. reflexivity. }
  assert (Hparse : forall t, parsePostfix (VSTR t)
     = match lexical_cast_int64 t with
       | Some postfixNum => Ok (WRITEDATA64 (to_uint64 postfixNum))
       | None => Ok (list_byte_of_string t)
       end).
  { intros t. unfold parsePostfix. rewrite Hguard. by destruct (lexical_cast_int64 t). }
  assert (Hnohex : forall d, parsePostfix d
     <> Throw RPC_INVALID_PARAMS "Invalid parameter: Hex not implemented yet").
  { intros [i | | t |]; try discriminate.
    - rewrite parsePostfix_VNUM.
      destruct ((INT64_MIN <=? i) && (i <=? INT64_MAX)); discriminate.
    - rewrite Hparse. destruct (lexical_cast_int64 t); discriminate. }
  assert (H0x : lexical_cast_int64 (String "0" (String "x" rest)) = None) by reflexivity.
  split; [apply Hguard |]. split; [apply Hnohex |]. split.
  - unfold token_subgroup. destruct (isUserGroup grpID); simpl; [| discriminate].
    specialize (Hnohex data). destruct (parsePostfix data) as [postfix | code message]; simpl.
    + destruct (length postfix =? 0)%nat; discriminate.
    + exact Hnohex.
  - split; [apply Hparse |]. split; [exact H0x |].
    rewrite (token_subgroup_of_postfix grpID _
               (list_byte_of_string (String "0" (String "x" rest)))).
    + destruct grpID; [reflexivity |]. reflexivity.
    + by rewrite Hparse, H0x.
Qed.

(** ** Transaction assembly *)

Section AssemblyProperties.
Context `{Env : TokenGroupEnv}.

Lemma addOutputs_vout (outputs : list CRecipient) : forall vout approxSize,
  (addOutputs outputs (vout, approxSize)).1 = vout ++ map txoutOfRecipient outputs.
Proof.
  unfold addOutputs.
  induction outputs as [| r outputs IH]; intros vout approxSize; simpl.
  - by rewrite app_nil_r.
  - rewrite IH. by rewrite <- app_assoc.
Qed.

(** A successful token-change step appends one grouped output paying the
    surplus to a reserved key, or nothing when there is no surplus. *)
Lemma groupChange_vout available needed grp vout approxSize rk pool st' :
  groupChange available needed grp (vout, approxSize, rk, pool) = Ok st' ->
  exists key,
    st'.1.1.1
    = vout ++ (if available >? needed
               then [groupedOutput key grp (sub64 available needed)] else []).
Proof.
  unfold groupChange. destruct (available >? needed).
  - destruct (GetReservedKey rk pool) as [[[key |] rk'] pool']; [| discriminate].
    intros [= <-]. by exists key.
  - intros [= <-]. exists []. simpl. by rewrite app_nil_r.
Qed.

(** A successful base-change step appends one untagged output to a reserved
    key when the test of the code holds, and nothing otherwise. *)
Lemma feeChange_vout totalAvailable totalNeeded fee vout rk pool st' :
  feeChange totalAvailable totalNeeded fee vout rk pool = Ok st' ->
  exists key,
    st'.1.1
    = vout ++ (if totalAvailable >? add64 totalNeeded (mul64 FEE_FUDGE fee)
               then [plainOutput key (sub64 (sub64 totalAvailable totalNeeded) fee)]
               else []).
Proof.
  unfold feeChange. destruct (totalAvailable >? add64 totalNeeded (mul64 FEE_FUDGE fee)).
  - destruct (GetReservedKey rk pool) as [[[key |] rk'] pool']; [| discriminate].
    intros [= <-]. by exists key.
  - intros [= <-]. exists []. simpl. by rewrite app_nil_r.
Qed.

(** The outputs of a transaction that [ConstructTx] commits: the requested
    outputs, then the change of the group, then the change of the auxiliary
    fee token, then the base-currency change, each change present exactly
    when its test in the code holds.  [available] is the base currency at
    hand after the optional fee input. *)
Lemma ConstructTx_vout chosenCoins outputs totalAvailable totalNeeded
    totalGroupedAvailable totalGroupedNeeded totalXDMAvailable totalXDMNeeded
    grpID w tx w' :
  ConstructTx chosenCoins outputs totalAvailable totalNeeded totalGroupedAvailable
    totalGroupedNeeded totalXDMAvailable totalXDMNeeded grpID w = Ok (tx, w') ->
  exists size vin0 available groupKey xdmKey feeKey,
    let fee := GetRequiredFee w size in
    feeInput w totalAvailable totalNeeded fee vin0 = Ok (vin tx, available)
    /\ vout tx
       = map txoutOfRecipient outputs
         ++ (if totalGroupedAvailable >? totalGroupedNeeded
             then [groupedOutput groupKey grpID
                     (sub64 totalGroupedAvailable totalGroupedNeeded)] else [])
         ++ (if totalXDMAvailable >? totalXDMNeeded
             then [groupedOutput xdmKey DarkMatterID
                     (sub64 totalXDMAvailable totalXDMNeeded)] else [])
         ++ (if available >? add64 totalNeeded (mul64 FEE_FUDGE fee)
             then [plainOutput feeKey (sub64 (sub64 available totalNeeded) fee)]
             else []).
Proof.
  unfold ConstructTx.
  pose proof (addOutputs_vout outputs [] 0) as Hout.
  destruct (addOutputs outputs ([], 0)) as [vout0 approx0]. simpl in Hout. subst vout0.
  destruct (addInputs chosenCoins ([], 0, approx0)) as [[vin0 inpSize] approx1].
  unfold mbind, Result_bind.
  match goal with
  | |- context [groupChange ?a ?b ?c ?d] =>
      destruct (groupChange a b c d) as [[[[vout1 approx2] rk1] pool1] |] eqn:Hg1
  end; [| intros; discriminate].
  apply groupChange_vout in Hg1 as [groupKey Hv1]. simpl in Hv1.
  match goal with
  | |- context [groupChange ?a ?b ?c ?d] =>
      destruct (groupChange a b c d) as [[[[vout2 approx3] rk2] pool2] |] eqn:Hg2
  end; [| intros; discriminate].
  apply groupChange_vout in Hg2 as [xdmKey Hv2]. simpl in Hv2.
  set (fee := GetRequiredFee w (addU32 approx3 (mulU32 inpSize 3))).
  destruct (feeInput w totalAvailable totalNeeded fee vin0)
    as [[vin1 available] |] eqn:Hfi; [| intros; discriminate].
  match goal with
  | |- context [feeChange ?a ?b ?c ?d ?e ?f] =>
      destruct (feeChange a b c d e f) as [[[vout3 rk3] pool3] |] eqn:Hfc
  end; [| intros; discriminate].
  apply feeChange_vout in Hfc as [feeKey Hv3]. simpl in Hv3.
  destruct (negb (SignTransaction w _)); [intros; discriminate |].
  destruct (negb (CommitTransaction w _)); [intros; discriminate |].
  intros [= <- <-].
  exists (addU32 approx3 (mulU32 inpSize 3)), vin0, available, groupKey, xdmKey, feeKey.
  cbv zeta. fold fee. split; [exact Hfi |]. simpl.
  rewrite Hv3, Hv2, Hv1. by rewrite <- !app_assoc.
Qed.




End AssemblyProperties.


(** The transaction of the example run: one untagged change output of
    100000 - 0 - 1000. *)
Example exChangeRun_vout :
  exists tx w', exChangeRun = Ok (tx, w') /\ vout tx = [@plainOutput exEnv exKeyA 99000].
Proof.
  destruct exChangeRun as [[tx w'] | code message] eqn:Hrun;
    [| vm_compute in Hrun; discriminate Hrun].
  exists tx, w'. split; [reflexivity |].
  vm_compute in Hrun. injection Hrun as <- _. reflexivity.
Qed.

(** ** Dropping authorities *)

Lemma testbit_above64 (x n : Z) : 0 <= x < 2 ^ 64 -> 64 <= n -> Z.testbit x n = false.
Proof.
  intros Hx Hn. destruct (Z.eq_dec x 0) as [-> | Hne]; [apply Z.bits_0 |].
  apply Z.bits_above_log2; [lia |].
  assert (Z.log2 x < 64) by (apply Z.log2_lt_pow2; lia). lia.
Qed.

Lemma testbit_disjoint (a b n : Z) :
  Z.land a b = 0 -> Z.testbit a n && Z.testbit b n = false.
Proof. intros H. rewrite <- Z.land_spec, H. apply Z.bits_0. Qed.

Lemma testbit_ones64 (n : Z) : 0 <= n -> Z.testbit (Z.ones 64) n = (n <? 64).
Proof.
  intros Hn. destruct (n <? 64) eqn:Hlt.
  - apply Z.ltb_lt in Hlt. apply Z.ones_spec_low. lia.
  - apply Z.ltb_ge in Hlt. apply Z.ones_spec_high. lia.
Qed.

(** Dropping [b] from [a | b | c] leaves [a | c] when the three words are
    distinct capabilities. *)
Lemma drop_middle_flag (a b c : Z) :
  distinctFlags a b c ->
  flags_and (flags_or (flags_or a b) c) (flags_not b) = flags_or a c.
Proof.
  intros ((Ha & Hb & Hc) & Hab & Hac & Hbc).
  unfold flags_and, flags_or, flags_not. apply Z.bits_inj'. intros n Hn.
  rewrite !Z.land_spec, !Z.lor_spec, Z.lnot_spec, testbit_ones64 by lia.
  pose proof (testbit_disjoint a b n Hab) as Hd1.
  pose proof (testbit_disjoint b c n Hbc) as Hd2.
  destruct (n <? 64) eqn:Hlt.
  - destruct (Z.testbit a n), (Z.testbit b n), (Z.testbit c n); simpl in *; congruence.
  - apply Z.ltb_ge in Hlt.
    rewrite (testbit_above64 a n), (testbit_above64 c n) by lia.
    by rewrite !andb_false_r.
Qed.

(** Dropping every bit of a word leaves the empty word. *)
Lemma drop_all_flags (x : Z) : flags_and x (flags_not x) = NONE.
Proof.
  unfold flags_and, flags_not, NONE. apply Z.bits_inj'. intros n Hn.
  rewrite !Z.land_spec, Z.lnot_spec, Z.bits_0 by lia.
  by destruct (Z.testbit x n).
Qed.

Lemma flags_or_contains (a c : Z) : hasCapability (flags_or a c) c = true.
Proof.
  unfold hasCapability, flags_and, flags_or. apply Z.eqb_eq.
  apply Z.bits_inj'. intros n Hn. rewrite Z.land_spec, Z.lor_spec.
  by destruct (Z.testbit a n), (Z.testbit c n).
Qed.

Lemma flags_or_proper (a c : Z) :
  0 < a -> 0 < c -> Z.land a c = 0 -> flags_or a c <> c /\ flags_or a c <> NONE.
Proof.
  intros Ha Hc Hac. unfold flags_or, NONE. split; intros Heq.
  - assert (Hsub : Z.land a (Z.lor a c) = a).
    { apply Z.bits_inj'. intros n Hn. rewrite Z.land_spec, Z.lor_spec.
      by destruct (Z.testbit a n), (Z.testbit c n). }
    rewrite Heq, Hac in Hsub. lia.
  - apply Z.lor_eq_0_iff in Heq. lia.
Qed.

Section DropProperties.
Context `{Env : TokenGroupEnv}.

(** The replacement decision of [dropauthorities], in one equation. *)
Lemma dropauthorities_outputs_rule (grpID : CTokenGroupID) (coin : COutput)
    (authoritiesToDrop : Z) :
  let keep := authoritiesToKeep (groupInfo coin) authoritiesToDrop in
  dropauthorities_outputs grpID coin authoritiesToDrop
  = if hasCapability keep CTRL && negb (keep =? CTRL) && negb (keep =? NONE)
    then ([replacementAuthority grpID coin keep], add64 0 GROUPED_SATOSHI_AMT)
    else ([], 0).
Proof.
  cbv zeta. unfold dropauthorities_outputs, replacementAuthority.
  destruct (authoritiesToKeep (groupInfo coin) authoritiesToDrop =? CTRL);
    destruct (authoritiesToKeep (groupInfo coin) authoritiesToDrop =? NONE);
    destruct (hasCapability (authoritiesToKeep (groupInfo coin) authoritiesToDrop) CTRL);
    reflexivity.
Qed.

(** The transaction of [dropauthorities]: the outputs decided on, followed
    by at most one untagged base-currency change output. *)
Lemma dropauthorities_vout grpID coin others authoritiesToDrop w keep tx w' :
  dropauthorities grpID (coin :: others) authoritiesToDrop w = Ok (keep, tx, w') ->
  keep = authoritiesToKeep (groupInfo coin) authoritiesToDrop
  /\ exists baseChange,
       (length baseChange <= 1)%nat
       /\ Forall (fun out => exists key value, out = plainOutput key value) baseChange
       /\ vout tx
          = map txoutOfRecipient (dropauthorities_outputs grpID coin authoritiesToDrop).1
            ++ baseChange.
Proof.
  unfold dropauthorities.
  destruct (dropauthorities_outputs grpID coin authoritiesToDrop)
    as [outputs totalBchNeeded].
  unfold mbind, Result_bind.
  match goal with
  | |- context [ConstructTx ?a ?b ?c ?d ?e ?f ?g ?h ?i ?j] =>
      destruct (ConstructTx a b c d e f g h i j) as [[tx0 w0] |] eqn:Hrun
  end; [| intros; discriminate].
  intros [= <- <- <-]. split; [reflexivity |].
  apply ConstructTx_vout in Hrun
    as (size & vin0 & available & groupKey & xdmKey & feeKey & _ & Hvout).
  cbv zeta in Hvout.
  match type of Hvout with
  | _ = _ ++ _ ++ _ ++ ?base => exists base
  end.
  split; [| split; [| exact Hvout]].
  - destruct (available >? _); simpl; lia.
  - destruct (available >? _); repeat constructor. by eexists _, _.
Qed.

(** C2, as amended.  [dropauthorities] computes the flags to keep as the old
    flag word without the dropped bits, and hands exactly one replacement
    authority output carrying them to the transaction when they contain
    CTRL and are neither CTRL alone nor empty; in every other case it hands
    over no output.  The committed transaction holds that output, if any,
    and besides it only base-currency change.  With MINT, MELT and CTRL
    distinct capabilities, dropping MELT from MINT|MELT|CTRL keeps MINT|CTRL
    and yields the replacement, and dropping MINT|MELT|CTRL keeps nothing
    and yields no output. *)
Theorem drop_authority_replacement (grpID : CTokenGroupID) (coin : COutput)
    (authoritiesToDrop : Z) :
  distinctFlags MINT MELT CTRL ->
  let old := controllingGroupFlags (groupInfo coin) in
  let keep := authoritiesToKeep (groupInfo coin) authoritiesToDrop in
  keep = Z.land old (Z.land (Z.lnot authoritiesToDrop) (Z.ones 64))
  /\ (dropauthorities_outputs grpID coin authoritiesToDrop).1
     = (if hasCapability keep CTRL && negb (keep =? CTRL) && negb (keep =? NONE)
        then [replacementAuthority grpID coin keep] else [])
  /\ (forall others w keep' tx w',
        dropauthorities grpID (coin :: others) authoritiesToDrop w = Ok (keep', tx, w') ->
        keep' = keep
        /\ exists baseChange,
             (length baseChange <= 1)%nat
             /\ Forall (fun out => exists key value, out = plainOutput key value) baseChange
             /\ vout tx
                = (if hasCapability keep CTRL && negb (keep =? CTRL) && negb (keep =? NONE)
                   then [txoutOfRecipient (replacementAuthority grpID coin keep)] else [])
                  ++ baseChange)
  /\ (old = flags_or (flags_or MINT MELT) CTRL ->
      authoritiesToKeep (groupInfo coin) MELT = flags_or MINT CTRL
      /\ (dropauthorities_outputs grpID coin MELT).1
         = [replacementAuthority grpID coin (flags_or MINT CTRL)]
      /\ authoritiesToKeep (groupInfo coin) (flags_or (flags_or MINT MELT) CTRL) = NONE
      /\ (dropauthorities_outputs grpID coin (flags_or (flags_or MINT MELT) CTRL)).1 = []).
Proof.
  intros Hflags. cbv zeta. split; [reflexivity |].
  assert (Hrule : (dropauthorities_outputs grpID coin authoritiesToDrop).1
     = (if hasCapability (authoritiesToKeep (groupInfo coin) authoritiesToDrop) CTRL
           && negb (authoritiesToKeep (groupInfo coin) authoritiesToDrop =? CTRL)
           && negb (authoritiesToKeep (groupInfo coin) authoritiesToDrop =? NONE)
        then [replacementAuthority grpID coin
                (authoritiesToKeep (groupInfo coin) authoritiesToDrop)] else [])).
  { rewrite dropauthorities_outputs_rule. cbv zeta.
    by destruct (hasCapability _ CTRL && _ && _). }
  split; [exact Hrule |]. split.
  - intros others w keep' tx w' Hrun.
    apply dropauthorities_vout in Hrun as (Hkeep & baseChange & Hlen & Hplain & Hvout).
    split; [exact Hkeep |]. exists baseChange. split; [exact Hlen |].
    split; [exact Hplain |]. rewrite Hvout, Hrule.
    by destruct (hasCapability _ CTRL && _ && _).
  - intros Hold.
    assert (Hkeep : authoritiesToKeep (groupInfo coin) MELT = flags_or MINT CTRL).
    { unfold authoritiesToKeep. rewrite Hold. by apply drop_middle_flag. }
    assert (Hnone : authoritiesToKeep (groupInfo coin) (flags_or (flags_or MINT MELT) CTRL)
                    = NONE).
    { unfold authoritiesToKeep. rewrite Hold. apply drop_all_flags. }
    destruct Hflags as ((Hmint & Hmelt & Hctrl) & Hmm & Hmc & Hlc).
    destruct (flags_or_proper MINT CTRL) as [Hne1 Hne2]; [lia | lia | done |].
    split; [exact Hkeep |]. split; [| split; [exact Hnone |]].
    + rewrite dropauthorities_outputs_rule. cbv zeta. rewrite Hkeep.
      rewrite flags_or_contains.
      apply Z.eqb_neq in Hne1, Hne2. by rewrite Hne1, Hne2.
    + rewrite dropauthorities_outputs_rule. cbv zeta. rewrite Hnone.
      by rewrite Z.eqb_refl, andb_false_r.
Qed.

End DropProperties.

Lemma exFlags_distinct : distinctFlags (@MINT exEnv) (@MELT exEnv) (@CTRL exEnv).
Proof. vm_compute. repeat split; discriminate || reflexivity. Defined.

Lemma drop_authority_replacement_witness :
  distinctFlags (@MINT exEnv) (@MELT exEnv) (@CTRL exEnv)
  /\ (@dropauthorities_outputs exEnv exGroup20 exMintMeltAuthority (@MELT exEnv)).1
     = [@replacementAuthority exEnv exGroup20 exMintMeltAuthority
          (Z.lor (@MINT exEnv) (@CTRL exEnv))]
  /\ (@dropauthorities_outputs exEnv exGroup20 exMintMeltAuthority
        (Z.lor (Z.lor (@MINT exEnv) (@MELT exEnv)) (@CTRL exEnv))).1 = [].
Proof.
  destruct (@drop_authority_replacement exEnv exGroup20 exMintMeltAuthority 0
              exFlags_distinct) as (_ & _ & _ & Hscenario).
  destruct (Hscenario eq_refl) as (_ & Hmelt & _ & Hall).
  split; [exact exFlags_distinct |]. split; [exact Hmelt | exact Hall].
Defined.

(** C2, counterexample.  Dropping MINT from an authority holding MINT|CTRL
    leaves CTRL: the flags kept contain CTRL and are not empty, yet no
    replacement output is made. *)
Lemma drop_to_bare_ctrl_gives_no_replacement :
  ~ ((@dropauthorities_outputs exEnv exGroup20 exMintAuthority (@MINT exEnv)).1 <> []
     <-> (hasCapability (authoritiesToKeep (groupInfo exMintAuthority) (@MINT exEnv))
                        (@CTRL exEnv) = true
          /\ authoritiesToKeep (groupInfo exMintAuthority) (@MINT exEnv) <> NONE)).
Proof.
  intros [_ Hclaim]. apply Hclaim; [| reflexivity].
  split; [vm_compute; reflexivity | vm_compute; discriminate].
Qed.

(** ** Melt *)

Lemma selection_loop_range value coins : forall amt cur chosen,
  in_int64 cur -> in_int64 (selection_loop value coins amt cur chosen).1.
Proof.
  induction coins as [| coin coins IH]; intros amt cur chosen Hcur; simpl; [done |].
  destruct (add64 cur (value coin) >=? amt); simpl; [apply wrap64_range |].
  apply IH, wrap64_range.
Qed.

Lemma filter_elem_of (pred : COutput -> bool) (l : list COutput) (c : COutput) :
  c ∈ List.filter pred l -> c ∈ l.
Proof. intros H. apply list_elem_of_In, filter_In in H as [H _]. by apply list_elem_of_In. Qed.

(** The example melt: 7 tokens are selected to melt 4; the transaction
    returns 3 tokens to the wallet in a grouped change output and the spare
    base currency in an untagged one. *)
Example exMeltRun_vout :
  (GroupCoinSelection (meltableCoins exGroup32 exWallet) 4 []).1 = 7
  /\ exists tx w',
       exMeltRun = Ok (tx, w')
       /\ vout tx = [@groupedOutput exEnv exKeyA exGroup32 3;
                     @plainOutput exEnv exKeyB 99001].
Proof.
  split; [vm_compute; reflexivity |].
  destruct exMeltRun as [[tx w'] | code message] eqn:Hrun;
    [| vm_compute in Hrun; discriminate Hrun].
  exists tx, w'. split; [reflexivity |].
  vm_compute in Hrun. injection Hrun as <- _. reflexivity.
Qed.

(** C1, counterexample.  Melting 4 tokens selects a coin of 7; the
    transaction then contains an output tagged with the melted group, the
    change output holding the surplus of 3: it is not true that the outputs
    exclude the surplus. *)
Lemma melt_surplus_is_not_destroyed :
  ~ (forall tx w',
       exMeltRun = Ok (tx, w') ->
       4 <= (GroupCoinSelection (meltableCoins exGroup32 exWallet) 4 []).1 ->
       forall out, out ∈ vout tx -> taggedWith exGroup32 out = false).
Proof.
  intros Hclaim.
  destruct exMeltRun as [[tx w'] | code message] eqn:Hrun;
    [| vm_compute in Hrun; discriminate Hrun].
  assert (Hsel : 4 <= (GroupCoinSelection (meltableCoins exGroup32 exWallet) 4 []).1)
    by (vm_compute; discriminate).
  specialize (Hclaim tx w' eq_refl Hsel).
  vm_compute in Hrun. injection Hrun as <- _.
  specialize (Hclaim _ ltac:(by left)).
  vm_compute in Hclaim. discriminate Hclaim.
Qed.

(** ** The balance functions side by side *)

Lemma accumulate_range bal q : in_int64 (accumulate bal q).
Proof.
  unfold accumulate. destruct (q >? sub64 INT64_MAX bal); [| apply wrap64_range].
  unfold in_int64, INT64_MIN, INT64_MAX. lia.
Qed.

Section BalanceAgreement.
Context `{Env : TokenGroupEnv}.

Lemma useit_no_destination coin : useit CNoDestination coin = true.
Proof. reflexivity. Qed.

Lemma GetGroupBalance_step_range g dest balance coin :
  in_int64 balance -> in_int64 (GetGroupBalance_step g dest balance coin).
Proof.
  intros Hb. unfold GetGroupBalance_step.
  destruct (bool_decide _ && negb _); [| done].
  destruct (useit dest coin); [apply accumulate_range | done].
Qed.

(** The wallet-wide scan without authorities, read at one group, is the
    per-group scan. *)
Lemma GetAllGroupBalances_fold coins : forall balances g,
  g <> NoGroup ->
  balanceAt (fold_left GetAllGroupBalances_step coins balances) g
  = fold_left (GetGroupBalance_step g CNoDestination) coins (balanceAt balances g).
Proof.
  induction coins as [| coin coins IH]; intros balances g Hg; [reflexivity |].
  cbn [fold_left]. rewrite (IH _ g Hg). f_equal.
  unfold GetAllGroupBalances_step, GetGroupBalance_step.
  rewrite useit_no_destination.
  destruct (decide (associatedGroup (groupInfo coin) = g)) as [Heq | Hne].
  - subst g. rewrite !bool_decide_eq_true_2 by done. simpl.
    destruct (isAuthority (groupInfo coin)); simpl; [done |].
    rewrite balanceAt_insert. by destruct (decide _).
  - rewrite (bool_decide_eq_false_2 (g = _)) by congruence. simpl.
    destruct (bool_decide _ && negb _); [| done].
    rewrite balanceAt_insert. by destruct (decide _).
Qed.

(** The same for the scan that also collects authorities, as long as the
    balance read is an [int64_t] value. *)
Lemma GetAllGroupBalancesAndAuthorities_agree coins : forall balances authorities g,
  g <> NoGroup ->
  in_int64 (balanceAt balances g) ->
  balanceAt (fold_left GetAllGroupBalancesAndAuthorities_step coins
               (balances, authorities)).1 g
  = fold_left (GetGroupBalance_step g CNoDestination) coins (balanceAt balances g).
Proof.
  induction coins as [| coin coins IH]; intros balances authorities g Hg Hb; [reflexivity |].
  cbn [fold_left].
  assert (Hstep : in_int64 (balanceAt
             (GetAllGroupBalancesAndAuthorities_step (balances, authorities) coin).1 g)
          /\ balanceAt (GetAllGroupBalancesAndAuthorities_step (balances, authorities) coin).1 g
             = GetGroupBalance_step g CNoDestination (balanceAt balances g) coin).
  { unfold GetAllGroupBalancesAndAuthorities_step, GetGroupBalance_step.
    rewrite useit_no_destination.
    destruct (decide (associatedGroup (groupInfo coin) = g)) as [Heq | Hne].
    - subst g. rewrite !bool_decide_eq_true_2 by done. simpl.
      destruct (isAuthority (groupInfo coin)); simpl;
        rewrite balanceAt_insert; destruct (decide _); try done.
      + rewrite add64_exact by (by rewrite Z.add_0_r). by rewrite Z.add_0_r.
      + split; [apply accumulate_range | done].
    - rewrite (bool_decide_eq_false_2 (g = _)) by congruence. simpl.
      destruct (bool_decide (associatedGroup (groupInfo coin) <> NoGroup)); [| done].
      destruct (negb (isAuthority (groupInfo coin))); simpl;
        rewrite balanceAt_insert; by destruct (decide _). }
  destruct Hstep as [Hrange Heq].
  destruct (GetAllGroupBalancesAndAuthorities_step (balances, authorities) coin)
    as [balances' authorities'].
  simpl in Hrange, Heq. by rewrite (IH _ _ g Hg Hrange), Heq.
Qed.

(** The per-group scan with authorities computes the same balance as the
    one without. *)
Lemma GetGroupBalanceAndAuthorities_agree g dest coins : forall balance authorities,
  in_int64 balance ->
  (fold_left (GetGroupBalanceAndAuthorities_step g dest) coins (balance, authorities)).1
  = fold_left (GetGroupBalance_step g dest) coins balance.
Proof.
  induction coins as [| coin coins IH]; intros balance authorities Hb; [reflexivity |].
  cbn [fold_left].
  assert (Hstep : (GetGroupBalanceAndAuthorities_step g dest (balance, authorities) coin).1
                  = GetGroupBalance_step g dest balance coin).
  { unfold GetGroupBalanceAndAuthorities_step, GetGroupBalance_step.
    destruct (bool_decide (g = associatedGroup (groupInfo coin))); simpl; [| done].
    destruct (isAuthority (groupInfo coin)); simpl; destruct (useit dest coin); simpl;
      try done.
    rewrite add64_exact by (by rewrite Z.add_0_r). by rewrite Z.add_0_r. }
  pose proof (GetGroupBalance_step_range g dest balance coin Hb) as Hrange.
  destruct (GetGroupBalanceAndAuthorities_step g dest (balance, authorities) coin)
    as [balance' authorities'].
  simpl in Hstep. subst balance'. by apply IH.
Qed.

(** X1.  The four balance functions agree: for a user group, the balance
    that [GetAllGroupBalances] and [GetAllGroupBalancesAndAuthorities] file
    under the group is the balance [GetGroupBalance] computes for it without
    a destination filter, and [GetGroupBalanceAndAuthorities] returns the
    balance of [GetGroupBalance] for every destination filter. *)
Theorem balance_functions_agree (w : CWallet) (g : CTokenGroupID) (dest : CTxDestination) :
  g <> NoGroup ->
  balanceAt (GetAllGroupBalances w ∅) g = GetGroupBalance g CNoDestination w
  /\ balanceAt (GetAllGroupBalancesAndAuthorities w ∅ ∅).1 g
     = GetGroupBalance g CNoDestination w
  /\ (GetGroupBalanceAndAuthorities g dest w).1 = GetGroupBalance g dest w.
Proof.
  intros Hg.
  unfold GetAllGroupBalances, GetAllGroupBalancesAndAuthorities,
    GetGroupBalanceAndAuthorities, GetGroupBalance, FilterCoinsState.
  assert (H0 : in_int64 0) by (unfold in_int64, INT64_MIN, INT64_MAX; lia).
  split; [by rewrite GetAllGroupBalances_fold |].
  split; [by rewrite GetAllGroupBalancesAndAuthorities_agree |].
  by apply GetGroupBalanceAndAuthorities_agree.
Qed.

End BalanceAgreement.

Lemma balance_functions_agree_witness :
  exGroup20 <> NoGroup
  /\ balanceAt (GetAllGroupBalances exRichWallet ∅) exGroup20
     = @GetGroupBalance exEnv exGroup20 CNoDestination exRichWallet
  /\ (@GetGroupBalanceAndAuthorities exEnv exGroup20 exOwner exRichWallet).1
     = @GetGroupBalance exEnv exGroup20 exOwner exRichWallet.
Proof.
  assert (Hg : exGroup20 <> NoGroup) by discriminate.
  destruct (@balance_functions_agree exEnv exRichWallet exGroup20 exOwner Hg)
    as (H1 & _ & H3).
  split; [exact Hg |]. split; [exact H1 | exact H3].
Defined.

Lemma flagsAt_insert (m : gmap CTokenGroupID Z) g v g' :
  flagsAt (<[g := v]> m) g' = if decide (g = g') then v else flagsAt m g'.
Proof.
  unfold flagsAt. rewrite lookup_insert.
  destruct (decide (g = g')); reflexivity.
Qed.

Lemma unionFlags_testbit g coins : forall start n,
  Z.testbit (unionFlags g coins start) n = true
  <-> Z.testbit start n = true
      \/ exists coin, coin ∈ coins /\ associatedGroup (groupInfo coin) = g
                      /\ Z.testbit (controllingGroupFlags (groupInfo coin)) n = true.
Proof.
  unfold unionFlags.
  induction coins as [| coin coins IH]; intros start n; cbn [fold_left].
  - split; [by left | intros [H | (c & Hc & _)]; [done | by apply elem_of_nil in Hc]].
  - rewrite IH. destruct (bool_decide (associatedGroup (groupInfo coin) = g)) eqn:Hg.
    + apply bool_decide_eq_true in Hg. unfold flags_or. rewrite Z.lor_spec, orb_true_iff.
      split.
      * intros [[H | H] | (c & Hc & Hgc & Hbit)].
        -- by left.
        -- right. exists coin. split; [by left | done].
        -- right. exists c. split; [by right | done].
      * intros [H | (c & Hc & Hgc & Hbit)]; [by left; left |].
        apply elem_of_cons in Hc as [-> | Hc]; [by left; right |].
        right. by exists c.
    + apply bool_decide_eq_false in Hg. split.
      * intros [H | (c & Hc & Hgc & Hbit)]; [by left |].
        right. exists c. split; [by right | done].
      * intros [H | (c & Hc & Hgc & Hbit)]; [by left |].
        apply elem_of_cons in Hc as [-> | Hc]; [done |].
        right. by exists c.
Qed.

Lemma GetAllGroupBalancesAndAuthorities_flags coins : forall balances authorities g,
  g <> NoGroup ->
  flagsAt (fold_left GetAllGroupBalancesAndAuthorities_step coins
             (balances, authorities)).2 g
  = unionFlags g coins (flagsAt authorities g).
Proof.
  unfold unionFlags.
  induction coins as [| coin coins IH]; intros balances authorities g Hg; [reflexivity |].
  cbn [fold_left].
  assert (Hstep : flagsAt (GetAllGroupBalancesAndAuthorities_step
                             (balances, authorities) coin).2 g
                  = if bool_decide (associatedGroup (groupInfo coin) = g)
                    then flags_or (flagsAt authorities g)
                           (controllingGroupFlags (groupInfo coin))
                    else flagsAt authorities g).
  { unfold GetAllGroupBalancesAndAuthorities_step.
    destruct (decide (associatedGroup (groupInfo coin) = g)) as [Heq | Hne].
    - subst g. rewrite !bool_decide_eq_true_2 by done.
      destruct (negb (isAuthority (groupInfo coin))); simpl;
        rewrite flagsAt_insert; by destruct (decide _).
    - rewrite (bool_decide_eq_false_2 (_ = g)) by done.
      destruct (bool_decide (associatedGroup (groupInfo coin) <> NoGroup)); [| done].
      destruct (negb (isAuthority (groupInfo coin))); simpl;
        rewrite flagsAt_insert; by destruct (decide _). }
  destruct (GetAllGroupBalancesAndAuthorities_step (balances, authorities) coin)
    as [balances' authorities'].
  simpl in Hstep. by rewrite (IH _ _ g Hg), Hstep.
Qed.

Section AuthorityUnion.
Context `{Env : TokenGroupEnv}.

Lemma GetGroupBalanceAndAuthorities_flags g coins : forall balance authorities,
  (fold_left (GetGroupBalanceAndAuthorities_step g CNoDestination) coins
     (balance, authorities)).2
  = unionFlags g coins authorities.
Proof.
  unfold unionFlags.
  induction coins as [| coin coins IH]; intros balance authorities; [reflexivity |].
  cbn [fold_left].
  assert (Hstep : (GetGroupBalanceAndAuthorities_step g CNoDestination
                     (balance, authorities) coin).2
                  = if bool_decide (associatedGroup (groupInfo coin) = g)
                    then flags_or authorities (controllingGroupFlags (groupInfo coin))
                    else authorities).
  { unfold GetGroupBalanceAndAuthorities_step.
    rewrite (bool_decide_ext (g = associatedGroup (groupInfo coin))
                             (associatedGroup (groupInfo coin) = g)) by done.
    destruct (bool_decide (associatedGroup (groupInfo coin) = g)); [| done].
    rewrite useit_no_destination.
    by destruct (negb (isAuthority (groupInfo coin))). }
  destruct (GetGroupBalanceAndAuthorities_step g CNoDestination (balance, authorities) coin)
    as [balance' authorities'].
  simpl in Hstep. by rewrite IH, Hstep.
Qed.

(** X2.  The authority word that the wallet-wide aggregation files under a
    user group is exactly the bitwise union of the flag words of the
    wallet's coins of that group: it contains the flags of each such coin,
    each of its bits comes from one of them, and it is the word that
    [GetGroupBalanceAndAuthorities] returns for the group without a
    destination filter. *)
Theorem authorities_are_the_union (w : CWallet) (g : CTokenGroupID) :
  g <> NoGroup ->
  let authorities := flagsAt (GetAllGroupBalancesAndAuthorities w ∅ ∅).2 g in
  (forall coin, coin ∈ walletCoins w -> associatedGroup (groupInfo coin) = g ->
     hasCapability authorities (controllingGroupFlags (groupInfo coin)) = true)
  /\ (forall n, Z.testbit authorities n = true ->
        exists coin, coin ∈ walletCoins w /\ associatedGroup (groupInfo coin) = g
                     /\ Z.testbit (controllingGroupFlags (groupInfo coin)) n = true)
  /\ (GetGroupBalanceAndAuthorities g CNoDestination w).2 = authorities.
Proof.
  intros Hg. cbv zeta.
  unfold GetAllGroupBalancesAndAuthorities, GetGroupBalanceAndAuthorities, FilterCoinsState.
  rewrite GetAllGroupBalancesAndAuthorities_flags by done.
  rewrite GetGroupBalanceAndAuthorities_flags.
  change (flagsAt ∅ g) with NONE.
  split; [| split; [| reflexivity]].
  - intros coin Hin Hgrp. unfold hasCapability, flags_and. apply Z.eqb_eq.
    apply Z.bits_inj'. intros n Hn. rewrite Z.land_spec.
    destruct (Z.testbit (controllingGroupFlags (groupInfo coin)) n) eqn:Hbit;
      [| by rewrite andb_false_r].
    rewrite andb_true_r. apply unionFlags_testbit. right. by exists coin.
  - intros n Hbit. apply unionFlags_testbit in Hbit as [Hbit | Hbit]; [| done].
    unfold NONE in Hbit. by rewrite Z.bits_0 in Hbit.
Qed.

End AuthorityUnion.

Lemma authorities_are_the_union_witness :
  exGroup20 <> NoGroup
  /\ hasCapability (flagsAt (GetAllGroupBalancesAndAuthorities exRichWallet ∅ ∅).2 exGroup20)
       (controllingGroupFlags (groupInfo (exAuthority 32 exGroup20
                                            (Z.lor (@CTRL exEnv) (@MINT exEnv)))))
     = true.
Proof.
  assert (Hg : exGroup20 <> NoGroup) by discriminate.
  destruct (@authorities_are_the_union exEnv exRichWallet exGroup20 Hg) as (Hin & _ & _).
  split; [exact Hg |]. apply Hin; [| reflexivity].
  right. left.
Defined.

(** ** Which groups are reported, and what authorities do not change *)

Lemma GetAllGroupBalancesAndAuthorities_keys coins : forall balances authorities g,
  (is_Some ((fold_left GetAllGroupBalancesAndAuthorities_step coins
               (balances, authorities)).1 !! g)
   <-> is_Some (balances !! g)
       \/ (g <> NoGroup /\ exists coin, coin ∈ coins /\ associatedGroup (groupInfo coin) = g))
  /\ (is_Some ((fold_left GetAllGroupBalancesAndAuthorities_step coins
                  (balances, authorities)).2 !! g)
      <-> is_Some (authorities !! g)
          \/ (g <> NoGroup /\ exists coin, coin ∈ coins /\ associatedGroup (groupInfo coin) = g)).
Proof.
  induction coins as [| coin coins IH]; intros balances authorities g; cbn [fold_left].
  - split; (split; [by left | intros [H | (_ & c & Hc & _)];
                               [done | by apply elem_of_nil in Hc]]).
  - assert (Hstep : forall g',
      (is_Some ((GetAllGroupBalancesAndAuthorities_step (balances, authorities) coin).1 !! g')
       <-> is_Some (balances !! g')
           \/ (g' <> NoGroup /\ associatedGroup (groupInfo coin) = g'))
      /\ (is_Some ((GetAllGroupBalancesAndAuthorities_step (balances, authorities) coin).2 !! g')
          <-> is_Some (authorities !! g')
              \/ (g' <> NoGroup /\ associatedGroup (groupInfo coin) = g'))).
    { intros g'. unfold GetAllGroupBalancesAndAuthorities_step.
      destruct (bool_decide (associatedGroup (groupInfo coin) <> NoGroup)) eqn:Hng.
      - apply bool_decide_eq_true in Hng.
        destruct (negb (isAuthority (groupInfo coin))); simpl;
          rewrite !lookup_insert_is_Some;
          (split; (split; [intros [<- | [_ H]]; [by right | by left]
                          | intros [H | [_ H]];
                            [destruct (decide (associatedGroup (groupInfo coin) = g'));
                               [by left | by right]
                            | by left]])).
      - apply bool_decide_eq_false in Hng. apply dec_stable in Hng. simpl.
        split; (split; [by left | intros [H | [H1 H2]]; [done | congruence]]). }
    destruct (GetAllGroupBalancesAndAuthorities_step (balances, authorities) coin)
      as [balances' authorities'].
    specialize (IH balances' authorities' g). destruct IH as [IH1 IH2].
    destruct (Hstep g) as [Hs1 Hs2]. simpl in Hs1, Hs2.
    rewrite IH1, IH2, Hs1, Hs2.
    split; (split;
      [ intros [[H | [Hg Hc]] | (Hg & c & Hc & Hgc)];
          [ by left
          | right; split; [done |]; exists coin; split; [by left | done]
          | right; split; [done |]; exists c; split; [by right | done] ]
      | intros [H | (Hg & c & Hc & Hgc)]; [by left; left |];
          apply elem_of_cons in Hc as [-> | Hc];
          [ by left; right | right; split; [done |]; by exists c ] ]).
Qed.

Lemma GetAllGroupBalances_keys coins : forall balances g,
  is_Some (fold_left GetAllGroupBalances_step coins balances !! g)
  <-> is_Some (balances !! g)
      \/ (g <> NoGroup
          /\ exists coin, coin ∈ coins /\ associatedGroup (groupInfo coin) = g
                          /\ isAuthority (groupInfo coin) = false).
Proof.
  induction coins as [| coin coins IH]; intros balances g; cbn [fold_left].
  - split; [by left | intros [H | (_ & c & Hc & _)]; [done | by apply elem_of_nil in Hc]].
  - assert (Hstep : is_Some (GetAllGroupBalances_step balances coin !! g)
                    <-> is_Some (balances !! g)
                        \/ (g <> NoGroup /\ associatedGroup (groupInfo coin) = g
                            /\ isAuthority (groupInfo coin) = false)).
    { unfold GetAllGroupBalances_step.
      destruct (bool_decide (associatedGroup (groupInfo coin) <> NoGroup)) eqn:Hng;
        destruct (isAuthority (groupInfo coin)) eqn:Hauth; simpl.
      - split; [by left | intros [H | (_ & _ & H)]; [done | discriminate]].
      - apply bool_decide_eq_true in Hng. rewrite lookup_insert_is_Some. split.
        + intros [<- | [_ H]]; [by right | by left].
        + intros [H | (_ & H & _)];
            [destruct (decide (associatedGroup (groupInfo coin) = g));
               [by left | by right]
            | by left].
      - split; [by left | intros [H | (_ & _ & H)]; [done | discriminate]].
      - apply bool_decide_eq_false in Hng. apply dec_stable in Hng.
        split; [by left | intros [H | (H1 & H2 & _)]; [done | congruence]]. }
    rewrite IH, Hstep. split.
    + intros [[H | (Hg & Hgc & Ha)] | (Hg & c & Hc & Hgc & Ha)].
      * by left.
      * right. split; [done |]. exists coin. split; [by left | done].
      * right. split; [done |]. exists c. split; [by right | done].
    + intros [H | (Hg & c & Hc & Hgc & Ha)]; [by left; left |].
      apply elem_of_cons in Hc as [-> | Hc]; [by left; right |].
      right. split; [done |]. by exists c.
Qed.

(** X3.  Which groups the aggregations report.  The scan that also collects
    authorities makes an entry, in both of its maps, for exactly the user
    groups of which the wallet holds some output, authority or not; the
    scan without authorities makes an entry for exactly the user groups of
    which the wallet holds a non-authority output.  The no-group identifier
    never gets an entry. *)
Theorem reported_groups (w : CWallet) (g : CTokenGroupID) :
  (is_Some ((GetAllGroupBalancesAndAuthorities w ∅ ∅).1 !! g)
   <-> g <> NoGroup
       /\ exists coin, coin ∈ walletCoins w /\ associatedGroup (groupInfo coin) = g)
  /\ (is_Some ((GetAllGroupBalancesAndAuthorities w ∅ ∅).2 !! g)
      <-> is_Some ((GetAllGroupBalancesAndAuthorities w ∅ ∅).1 !! g))
  /\ (is_Some (GetAllGroupBalances w ∅ !! g)
      <-> g <> NoGroup
          /\ exists coin, coin ∈ walletCoins w /\ associatedGroup (groupInfo coin) = g
                          /\ isAuthority (groupInfo coin) = false).
Proof.
  unfold GetAllGroupBalancesAndAuthorities, GetAllGroupBalances, FilterCoinsState.
  destruct (GetAllGroupBalancesAndAuthorities_keys (walletCoins w) ∅ ∅ g) as [H1 H2].
  pose proof (GetAllGroupBalances_keys (walletCoins w) ∅ g) as H3.
  rewrite H1, H2, H3, lookup_empty.
  assert (Hnone : ~ is_Some (@None Z)) by (intros [x Hx]; discriminate).
  repeat split; try tauto.
Qed.

Lemma fold_left_filter_skip {A B} (f : A -> B -> A) (keep : B -> bool) (l : list B) :
  (forall a b, keep b = false -> f a b = a) ->
  forall a, fold_left f (List.filter keep l) a = fold_left f l a.
Proof.
  intros Hskip. induction l as [| b l IH]; intros a; [reflexivity |].
  cbn [List.filter fold_left]. destruct (keep b) eqn:Hb; cbn [fold_left].
  - apply IH.
  - rewrite (Hskip a b Hb). apply IH.
Qed.

Section AuthoritiesDoNotCount.
Context `{Env : TokenGroupEnv}.

(** X4.  Authority coins never count towards a balance: taking every
    authority coin out of the wallet changes neither the balance of any
    group under any destination filter nor the map of all balances, and
    leaves nothing for [ListAllGroupAuthorities] to list.  The
    authorities listed for one group are those of the list of all
    authorities that carry the group. *)
Theorem authorities_do_not_count (w : CWallet) (g : CTokenGroupID) (dest : CTxDestination) :
  GetGroupBalance g dest (withoutAuthorities w) = GetGroupBalance g dest w
  /\ GetAllGroupBalances (withoutAuthorities w) ∅ = GetAllGroupBalances w ∅
  /\ ListAllGroupAuthorities (withoutAuthorities w) = []
  /\ ListGroupAuthorities w g
     = List.filter (fun coin => bool_decide (associatedGroup (groupInfo coin) = g))
                   (ListAllGroupAuthorities w).
Proof.
  unfold GetGroupBalance, GetAllGroupBalances, FilterCoinsState, ListAllGroupAuthorities,
    ListGroupAuthorities, FilterCoins, withoutAuthorities. cbn [walletCoins].
  split; [| split; [| split]].
  - apply fold_left_filter_skip. intros a coin Hk. apply negb_false_iff in Hk.
    unfold GetGroupBalance_step. by rewrite Hk, andb_false_r.
  - apply fold_left_filter_skip. intros a coin Hk. apply negb_false_iff in Hk.
    unfold GetAllGroupBalances_step. by rewrite Hk, andb_false_r.
  - induction (walletCoins w) as [| coin coins IH]; [reflexivity |].
    cbn [List.filter]. destruct (isAuthority (groupInfo coin)) eqn:Ha; simpl; [done |].
    by rewrite Ha.
  - induction (walletCoins w) as [| coin coins IH]; [reflexivity |].
    cbn [List.filter]. destruct (isAuthority (groupInfo coin)); simpl; [| done].
    destruct (bool_decide (associatedGroup (groupInfo coin) = g)); simpl; by rewrite IH.
Qed.

End AuthoritiesDoNotCount.

(** ** Groups, addresses and subgroups *)

Lemma token_subgroup_Ok (grpID : CTokenGroupID) (data : UniValue) (sub : CTokenGroupID) :
  token_subgroup grpID data = Ok sub ->
  exists postfix,
    parsePostfix data = Ok postfix /\ postfix <> [] /\ grpID <> [] /\ sub = grpID ++ postfix.
Proof.
  unfold token_subgroup. destruct grpID as [| b g]; [discriminate |]. simpl.
  destruct (parsePostfix data) as [postfix | code message]; simpl; [| discriminate].
  destruct postfix as [| c postfix]; simpl; [discriminate |].
  intros [= <-]. exists (c :: postfix). by rewrite subgroupbytes_app.
Qed.

(** X5.  A group made from a key or script identifier of 20 bytes has that
    identifier as its controlling address, of the kind asked for; a group
    whose identifier is not 20 bytes long has none.  In particular a
    subgroup derived by [token subgroup] from a 20-byte group has no
    controlling address of its own, and its first 20 bytes are the parent
    group. *)
Theorem controlling_address_round_trip (h : list byte) (grp : CTokenGroupID)
    (addrType : txnouttype) (data : UniValue) (sub : CTokenGroupID) :
  (length h = 20%nat ->
   ControllingAddress (GetTokenGroup (CKeyID h)) TX_OTHER = CKeyID h
   /\ ControllingAddress (GetTokenGroup (CScriptID h)) TX_SCRIPTHASH = CScriptID h)
  /\ (length grp <> 20%nat -> ControllingAddress grp addrType = CNoDestination)
  /\ (length grp = 20%nat -> token_subgroup grp data = Ok sub ->
      ControllingAddress sub addrType = CNoDestination /\ take 20 sub = grp)
  /\ GetTokenGroup (ControllingAddress grp addrType)
     = (if (length grp =? 20)%nat then grp else NoGroup).
Proof.
  unfold ControllingAddress. split; [| split; [| split]].
  - intros Hlen. simpl. by rewrite Hlen.
  - intros Hlen. apply Nat.eqb_neq in Hlen. by rewrite Hlen.
  - intros Hlen Hsub.
    apply token_subgroup_Ok in Hsub as (postfix & _ & Hne & _ & ->).
    assert (Hlong : (length (grp ++ postfix) =? 20)%nat = false).
    { apply Nat.eqb_neq. rewrite length_app, Hlen.
      destruct postfix; [done | simpl; lia]. }
    rewrite Hlong. split; [reflexivity |].
    rewrite take_app_length'; done.
  - destruct (length grp =? 20)%nat; [by destruct addrType | reflexivity].
Qed.

Lemma controlling_address_round_trip_witness :
  length exGroup20 = 20%nat
  /\ ControllingAddress (GetTokenGroup (CKeyID exGroup20)) TX_OTHER = CKeyID exGroup20
  /\ token_subgroup exGroup20 (VNUM 7) = Ok (exGroup20 ++ WRITEDATA64 7)
  /\ ControllingAddress (exGroup20 ++ WRITEDATA64 7) TX_OTHER = CNoDestination
  /\ length exGroup32 <> 20%nat
  /\ ControllingAddress exGroup32 TX_SCRIPTHASH = CNoDestination.
Proof.
  assert (H20 : length exGroup20 = 20%nat) by reflexivity.
  assert (H32 : length exGroup32 <> 20%nat) by discriminate.
  assert (Hsub : token_subgroup exGroup20 (VNUM 7) = Ok (exGroup20 ++ WRITEDATA64 7))
    by reflexivity.
  destruct (controlling_address_round_trip exGroup20 exGroup20 TX_OTHER (VNUM 7)
              (exGroup20 ++ WRITEDATA64 7)) as (Hkey & _ & Hderived & _).
  destruct (controlling_address_round_trip exGroup20 exGroup32 TX_SCRIPTHASH (VNUM 7) [])
    as (_ & Hnone & _ & _).
  split; [exact H20 |]. split; [exact (proj1 (Hkey H20)) |]. split; [exact Hsub |].
  split; [exact (proj1 (Hderived H20 Hsub)) |]. split; [exact H32 | exact (Hnone H32)].
Defined.

Lemma byte_of_Z_value (z : Z) : Z.of_N (Byte.to_N (byte_of_Z z)) = z mod 256.
Proof.
  unfold byte_of_Z.
  pose proof (Z.mod_pos_bound z 256 ltac:(lia)) as Hm.
  pose proof (Byte.to_of_N_option_map (Z.to_N (z mod 256))) as H.
  assert (Hle : N.leb (Z.to_N (z mod 256)) 255 = true) by (apply N.leb_le; lia).
  rewrite Hle in H.
  destruct (Byte.of_N (Z.to_N (z mod 256))) as [b |]; simpl in H; [| discriminate].
  injection H as H. simpl. rewrite H. lia.
Qed.

Lemma le_value_le_bytes (count : nat) : forall v,
  le_value (le_bytes count v) = v mod 2 ^ (8 * Z.of_nat count).
Proof.
  induction count as [| count IH]; intros v.
  - simpl. by rewrite Z.mod_1_r.
  - cbn [le_bytes le_value foldr]. fold (le_value (le_bytes count (Z.shiftr v 8))).
    rewrite IH, byte_of_Z_value, Z.shiftr_div_pow2 by lia.
    replace (8 * Z.of_nat (S count)) with (8 + 8 * Z.of_nat count) by lia.
    rewrite Z.pow_add_r by lia.
    change (2 ^ 8) with 256.
    rewrite (Z.rem_mul_r v 256 (2 ^ (8 * Z.of_nat count))) by lia. reflexivity.
Qed.

Lemma length_le_bytes (count : nat) : forall v, length (le_bytes count v) = count.
Proof. induction count as [| count IH]; intros v; simpl; [done | by rewrite IH]. Qed.

(** X6.  A numeric subgroup postfix is the eight-byte little-endian image
    of the number read as [uint64_t]: for a user group the subgroup
    identifier is the group followed by eight bytes from which the number
    is recovered, so two [int64_t] numbers give the same subgroup only if
    they are equal; and a string that is a decimal number gives the
    subgroup of that number, not of its characters. *)
Theorem numeric_subgroup_postfix (b : byte) (g : list byte) (i j : Z) (s : string) :
  in_int64 i -> in_int64 j ->
  token_subgroup (b :: g) (VNUM i) = Ok ((b :: g) ++ WRITEDATA64 (to_uint64 i))
  /\ length (WRITEDATA64 (to_uint64 i)) = 8%nat
  /\ le_value (WRITEDATA64 (to_uint64 i)) = to_uint64 i
  /\ (token_subgroup (b :: g) (VNUM i) = token_subgroup (b :: g) (VNUM j) -> i = j)
  /\ (lexical_cast_int64 s = Some i ->
      token_subgroup (b :: g) (VSTR s) = token_subgroup (b :: g) (VNUM i)).
Proof.
  intros Hi Hj.
  assert (Hval : forall k, le_value (WRITEDATA64 (to_uint64 k)) = to_uint64 k).
  { intros k. unfold WRITEDATA64. rewrite le_value_le_bytes.
    change (2 ^ (8 * Z.of_nat 8)) with (2 ^ 64).
    unfold to_uint64. apply Z.mod_mod. lia. }
  assert (Hnum : forall k, in_int64 k ->
                           token_subgroup (b :: g) (VNUM k)
                           = Ok ((b :: g) ++ WRITEDATA64 (to_uint64 k))).
  { intros k [Hlo Hhi].
    rewrite (token_subgroup_of_postfix (b :: g) (VNUM k) (WRITEDATA64 (to_uint64 k)));
      [reflexivity |].
    rewrite parsePostfix_VNUM.
    apply Z.leb_le in Hlo, Hhi. by rewrite Hlo, Hhi. }
  split; [by apply Hnum |]. split; [apply length_le_bytes |]. split; [apply Hval |]. split.
  - rewrite !Hnum by done. intros [= Heq]. apply app_inv_head in Heq.
    apply (f_equal le_value) in Heq. rewrite !Hval in Heq.
    unfold to_uint64, in_int64, INT64_MIN, INT64_MAX in *.
    destruct (Z_lt_le_dec i 0), (Z_lt_le_dec j 0).
    + replace i with ((i + 2 ^ 64) + (-1) * 2 ^ 64) in Heq by lia.
      replace j with ((j + 2 ^ 64) + (-1) * 2 ^ 64) in Heq by lia.
      rewrite !Z.mod_add in Heq by lia. rewrite !Z.mod_small in Heq by lia. lia.
    + replace i with ((i + 2 ^ 64) + (-1) * 2 ^ 64) in Heq by lia.
      rewrite Z.mod_add in Heq by lia. rewrite !Z.mod_small in Heq by lia. lia.
    + replace j with ((j + 2 ^ 64) + (-1) * 2 ^ 64) in Heq by lia.
      rewrite Z.mod_add in Heq by lia. rewrite !Z.mod_small in Heq by lia. lia.
    + rewrite !Z.mod_small in Heq by lia. lia.
  - intros Hcast. rewrite Hnum by done.
    rewrite (token_subgroup_of_postfix (b :: g) (VSTR s) (WRITEDATA64 (to_uint64 i))).
    + reflexivity.
    + unfold parsePostfix.
      destruct (Ascii.eqb (char0 s) "0" && Ascii.eqb (char0 s) "x") eqn:Hguard.
      * apply andb_true_iff in Hguard as [H0 Hx].
        apply Ascii.eqb_eq in H0. rewrite H0 in Hx. discriminate.
      * by rewrite Hcast.
Qed.

Lemma numeric_subgroup_postfix_witness :
  in_int64 (-2) /\ in_int64 258
  /\ lexical_cast_int64 "258" = Some 258
  /\ token_subgroup [x01] (VSTR "258") = token_subgroup [x01] (VNUM 258)
  /\ le_value (WRITEDATA64 (to_uint64 (-2))) = 2 ^ 64 - 2.
Proof.
  assert (H1 : in_int64 (-2)) by (vm_compute; split; discriminate).
  assert (H2 : in_int64 258) by (vm_compute; split; discriminate).
  destruct (numeric_subgroup_postfix x01 [] 258 (-2) "258" H2 H1) as (_ & _ & _ & _ & Hs).
  destruct (numeric_subgroup_postfix x01 [] (-2) 258 "258" H1 H2) as (_ & _ & Hv & _ & _).
  split; [exact H1 |]. split; [exact H2 |]. split; [reflexivity |].
  split; [exact (Hs eq_refl) | exact Hv].
Defined.

(** ** Reading a script back *)

Section ScriptInjective.
Context `{Env : TokenGroupEnv}.

(** X7.  The script of a destination determines what was encoded: two
    encodings to key-hash or script-hash destinations are equal only if the
    destinations are equal, both or neither carry a user group, and, when
    they carry one, the group identifiers and the serialized amounts are
    equal; a tagged script is never the script of an untagged encoding.
    Encoding to no destination gives the empty script whatever the group
    and amount, and no other destination gives the empty script. *)
Theorem script_encoding_injective (dest dest' : CTxDestination)
    (g g' : CTokenGroupID) (q q' : Z) :
  (dest <> CNoDestination ->
   GetScriptForDestination dest g q = GetScriptForDestination dest' g' q' ->
   dest = dest'
   /\ isUserGroup g = isUserGroup g'
   /\ (isUserGroup g = true -> g = g' /\ SerializeAmount q = SerializeAmount q'))
  /\ GetScriptForDestination CNoDestination g q = []
  /\ (dest <> CNoDestination -> GetScriptForDestination dest g q <> []).
Proof.
  unfold GetScriptForDestination. split; [| split].
  - intros Hdest.
    destruct dest as [| h | h]; [done | |];
      destruct dest' as [| h' | h']; simpl;
      destruct (isUserGroup g) eqn:Hg; destruct (isUserGroup g') eqn:Hg'; simpl;
      intros Heq; try discriminate Heq;
      injection Heq as Heq; subst;
      repeat split; try done; intros; try discriminate; by repeat split.
  - reflexivity.
  - intros Hdest. destruct dest as [| h | h]; [done | |]; simpl;
      destruct (isUserGroup g); discriminate.
Qed.

End ScriptInjective.

Lemma script_encoding_injective_witness :
  exOwner <> CNoDestination
  /\ @GetScriptForDestination exEnv exOwner exGroup20 300 <> []
  /\ @GetScriptForDestination exEnv CNoDestination exGroup20 300 = [].
Proof.
  assert (Hd : exOwner <> CNoDestination) by discriminate.
  destruct (@script_encoding_injective exEnv exOwner exOwner exGroup20 exGroup20 300 300)
    as (_ & Hnone & Hsome).
  split; [exact Hd |]. split; [exact (Hsome Hd) | exact Hnone].
Defined.

(** ** Parsing authority flags *)

Lemma tolower_idem (c : ascii) : tolower (tolower c) = tolower c.
Proof. destruct c as [[] [] [] [] [] [] [] []]; reflexivity. Qed.

Lemma lowercase_idem (s : string) : lowercase (lowercase s) = lowercase s.
Proof. induction s as [| c s IH]; simpl; [done | by rewrite tolower_idem, IH]. Qed.

Lemma flags_or_contains_l (a c : Z) : hasCapability (flags_or a c) a = true.
Proof.
  unfold hasCapability, flags_and, flags_or. apply Z.eqb_eq.
  apply Z.bits_inj'. intros n Hn. rewrite Z.land_spec, Z.lor_spec.
  by destruct (Z.testbit a n), (Z.testbit c n).
Qed.

Section AuthorityParamsProperties.
Context `{Env : TokenGroupEnv}.

(** One recognised name: it is one of the six names, the flags keep CTRL
    (CTRL and CCHILD being disjoint), and they gain no bit besides those of
    the capability named. *)
Lemma applyAuthorityFlag_Some sflag flags flags' :
  applyAuthorityFlag sflag flags = Some flags' ->
  isAuthorityFlagName sflag = true
  /\ (0 <= CTRL < 2 ^ 64 -> Z.land CTRL CCHILD = 0 ->
      hasCapability flags CTRL = true -> hasCapability flags' CTRL = true)
  /\ (forall n, Z.testbit flags' n = true ->
        Z.testbit flags n = true \/ Z.testbit (flagNamed sflag) n = true).
Proof.
  assert (Hor : forall F,
    (hasCapability flags CTRL = true -> hasCapability (flags_or flags F) CTRL = true)
    /\ (forall n, Z.testbit (flags_or flags F) n = true ->
          Z.testbit flags n = true \/ Z.testbit F n = true)).
  { intros F. split.
    - unfold hasCapability, flags_and, flags_or. rewrite !Z.eqb_eq. intros H.
      apply Z.bits_inj'. intros n Hn.
      apply (f_equal (fun z => Z.testbit z n)) in H.
      rewrite Z.land_spec in H. rewrite Z.land_spec, Z.lor_spec.
      destruct (Z.testbit CTRL n), (Z.testbit flags n), (Z.testbit F n); simpl in *; congruence.
    - intros n. unfold flags_or. rewrite Z.lor_spec. by intros ?%orb_true_iff. }
  unfold applyAuthorityFlag, flagNamed.
  destruct (String.eqb sflag "mint") eqn:E1;
    [apply String.eqb_eq in E1; subst; intros [= <-];
     split; [reflexivity |]; destruct (Hor MINT); split; auto |].
  destruct (String.eqb sflag "melt") eqn:E2;
    [apply String.eqb_eq in E2; subst; intros [= <-];
     split; [reflexivity |]; destruct (Hor MELT); split; auto |].
  destruct (String.eqb sflag "nochild") eqn:E3.
  { apply String.eqb_eq in E3; subst. intros [= <-]. split; [reflexivity |]. split.
    - intros Hctrl Hdisj. unfold hasCapability, flags_and, flags_not. rewrite !Z.eqb_eq.
      intros H. apply Z.bits_inj'. intros n Hn.
      apply (f_equal (fun z => Z.testbit z n)) in H.
      rewrite Z.land_spec in H.
      rewrite !Z.land_spec, Z.lnot_spec, testbit_ones64 by lia.
      pose proof (testbit_disjoint CTRL CCHILD n Hdisj) as Hd.
      destruct (n <? 64) eqn:Hlt.
      + destruct (Z.testbit CTRL n), (Z.testbit flags n), (Z.testbit CCHILD n);
          simpl in *; congruence.
      + apply Z.ltb_ge in Hlt. rewrite (testbit_above64 CTRL n) by lia.
        by rewrite !andb_false_r.
    - intros n. unfold flags_and. rewrite Z.land_spec.
      intros [H _]%andb_true_iff. by left. }
  destruct (String.eqb sflag "child") eqn:E4;
    [apply String.eqb_eq in E4; subst; intros [= <-];
     split; [reflexivity |]; destruct (Hor CCHILD); split; auto |].
  destruct (String.eqb sflag "rescript") eqn:E5;
    [apply String.eqb_eq in E5; subst; intros [= <-];
     split; [reflexivity |]; destruct (Hor RESCRIPT); split; auto |].
  destruct (String.eqb sflag "subgroup") eqn:E6;
    [apply String.eqb_eq in E6; subst; intros [= <-];
     split; [reflexivity |]; destruct (Hor SUBGROUP); split; auto |].
  discriminate.
Qed.

Lemma applyAuthorityFlag_None sflag flags :
  applyAuthorityFlag sflag flags = None -> isAuthorityFlagName sflag = false.
Proof.
  unfold applyAuthorityFlag, isAuthorityFlagName. simpl.
  destruct (String.eqb sflag "mint"); [discriminate |].
  destruct (String.eqb sflag "melt"); [discriminate |].
  destruct (String.eqb sflag "nochild"); [discriminate |].
  destruct (String.eqb sflag "child"); [discriminate |].
  destruct (String.eqb sflag "rescript"); [discriminate |].
  destruct (String.eqb sflag "subgroup"); [discriminate |].
  reflexivity.
Qed.

Lemma ParseAuthorityParams_loop_lower rest : forall flags curparam,
  ParseAuthorityParams_loop (lowerParam <$> rest) flags curparam
  = ParseAuthorityParams_loop rest flags curparam.
Proof.
  induction rest as [| v rest IH]; intros flags curparam; [reflexivity |].
  destruct v as [i | | p |]; try reflexivity.
  cbn [fmap list_fmap lowerParam ParseAuthorityParams_loop]. rewrite lowercase_idem.
  destruct (applyAuthorityFlag (lowercase p) flags) as [flags' |]; [| reflexivity].
  destruct rest as [| v' rest]; [reflexivity |].
  exact (IH flags' (S curparam)).
Qed.

Lemma ParseAuthorityParams_loop_spec rest : forall flags0 c flags cp,
  ParseAuthorityParams_loop rest flags0 c = Ok (flags, cp) ->
  exists k,
    cp = (c + k)%nat /\ (k <= length rest)%nat /\ rest <> []
    /\ (forall i, (i < k)%nat ->
          exists s, rest !! i = Some (VSTR s) /\ isAuthorityFlagName (lowercase s) = true)
    /\ ((k < length rest)%nat ->
          exists s, rest !! k = Some (VSTR s) /\ isAuthorityFlagName (lowercase s) = false)
    /\ (0 <= CTRL < 2 ^ 64 -> Z.land CTRL CCHILD = 0 ->
        hasCapability flags0 CTRL = true -> hasCapability flags CTRL = true)
    /\ (forall n, Z.testbit flags n = true ->
          Z.testbit flags0 n = true
          \/ exists i s, (i < k)%nat /\ rest !! i = Some (VSTR s)
                         /\ Z.testbit (flagNamed (lowercase s)) n = true).
Proof.
  induction rest as [| v rest IH]; intros flags0 c flags cp Hrun; [discriminate |].
  destruct v as [i | | p |]; try discriminate. cbn [ParseAuthorityParams_loop] in Hrun.
  destruct (applyAuthorityFlag (lowercase p) flags0) as [flags1 |] eqn:Hflag.
  - apply applyAuthorityFlag_Some in Hflag as (Hname & Hctrl & Hbits).
    destruct rest as [| v' rest].
    + injection Hrun as <- <-. exists 1%nat.
      split; [lia |]. split; [simpl; lia |]. split; [done |]. split.
      { intros [| i] Hi; [| lia]. by exists p. }
      split; [simpl; lia |]. split; [auto |].
      intros n Hn. destruct (Hbits n Hn) as [H | H]; [by left |].
      right. exists 0%nat, p. split; [lia | done].
    + apply IH in Hrun as (k & -> & Hk & _ & Hnames & Hstop & Hc & Hb).
      exists (S k). split; [lia |]. split; [simpl in *; lia |]. split; [done |]. split.
      { intros [| i] Hi; [by exists p |]. apply (Hnames i). lia. }
      split; [intros Hlt; apply Hstop; simpl in *; lia |]. split; [auto |].
      intros n Hn. destruct (Hb n Hn) as [H | (i & s & Hi & Hs & Hbit)].
      * destruct (Hbits n H) as [H' | H']; [by left |].
        right. exists 0%nat, p. split; [lia | done].
      * right. exists (S i), s. split; [lia | done].
  - injection Hrun as <- <-. exists 0%nat.
    split; [lia |]. split; [simpl; lia |]. split; [done |]. split; [intros i Hi; lia |].
    split; [intros _; exists p; split; [done | by eapply applyAuthorityFlag_None] |].
    split; [auto |]. intros n Hn. by left.
Qed.

(** X8.  [ParseAuthorityParams] reads flag names without regard to case.
    When it returns, [curparam] has moved over a run of recognised names
    that ends at the end of the parameters or in front of a string that is
    no flag name; the flags contain CTRL (CTRL and CCHILD being disjoint
    words), and every bit of them is a bit of CTRL, of CCHILD, or of a
    capability named in that run.  Called with [curparam] at or beyond the
    end of the parameters it throws. *)
Theorem parse_authority_params (params : list UniValue) (curparam : nat)
    (flags : Z) (cp : nat) :
  ParseAuthorityParams (lowerParam <$> params) curparam
  = ParseAuthorityParams params curparam
  /\ (ParseAuthorityParams params curparam = Ok (flags, cp) ->
      (curparam <= cp <= length params)%nat /\ (curparam < length params)%nat
      /\ (forall i, (curparam <= i < cp)%nat ->
            exists s, params !! i = Some (VSTR s)
                      /\ isAuthorityFlagName (lowercase s) = true)
      /\ ((cp < length params)%nat ->
            exists s, params !! cp = Some (VSTR s)
                      /\ isAuthorityFlagName (lowercase s) = false)
      /\ (0 <= CTRL < 2 ^ 64 -> Z.land CTRL CCHILD = 0 -> hasCapability flags CTRL = true)
      /\ (forall n, Z.testbit flags n = true ->
            Z.testbit (flags_or CTRL CCHILD) n = true
            \/ exists i s, (curparam <= i < cp)%nat /\ params !! i = Some (VSTR s)
                           /\ Z.testbit (flagNamed (lowercase s)) n = true))
  /\ ((length params <= curparam)%nat ->
      ParseAuthorityParams params curparam
      = Throw STD_RUNTIME_ERROR "JSON value is not a string as expected").
Proof.
  unfold ParseAuthorityParams. split; [| split].
  - rewrite <- fmap_drop. apply ParseAuthorityParams_loop_lower.
  - intros Hrun.
    apply ParseAuthorityParams_loop_spec in Hrun
      as (k & -> & Hk & Hne & Hnames & Hstop & Hctrl & Hbits).
    rewrite length_drop in Hk, Hstop.
    assert (Hlen : (curparam < length params)%nat).
    { destruct (decide (curparam < length params)%nat) as [H | H]; [done |].
      rewrite drop_ge in Hne by lia. done. }
    split; [lia |]. split; [done |]. split.
    { intros i Hi. destruct (Hnames (i - curparam)%nat ltac:(lia)) as (s & Hs & Hn).
      exists s. split; [| done]. rewrite lookup_drop in Hs.
      by replace (curparam + (i - curparam))%nat with i in Hs by lia. }
    split.
    { intros Hlt. destruct (Hstop ltac:(lia)) as (s & Hs & Hn).
      exists s. split; [| done]. by rewrite lookup_drop in Hs. }
    split.
    { intros Hrange Hdisj. apply Hctrl; [done | done |]. apply flags_or_contains_l. }
    intros n Hn. destruct (Hbits n Hn) as [H | (i & s & Hi & Hs & Hbit)]; [by left |].
    right. exists (curparam + i)%nat, s. split; [lia |].
    split; [by rewrite lookup_drop in Hs | done].
  - intros Hlen. by rewrite drop_ge.
Qed.

End AuthorityParamsProperties.

Lemma parse_authority_params_witness :
  @ParseAuthorityParams exEnv exAuthorityParams 3
  = Ok (Z.lor (@CTRL exEnv) (@MINT exEnv), 5%nat)
  /\ (3 <= 5 <= length exAuthorityParams)%nat
  /\ hasCapability (Z.lor (@CTRL exEnv) (@MINT exEnv)) (@CTRL exEnv) = true
  /\ (length exAuthorityParams <= 5)%nat
  /\ @ParseAuthorityParams exEnv exAuthorityParams 5
     = Throw STD_RUNTIME_ERROR "JSON value is not a string as expected".
Proof.
  assert (Hrun : @ParseAuthorityParams exEnv exAuthorityParams 3
                 = Ok (Z.lor (@CTRL exEnv) (@MINT exEnv), 5%nat)) by reflexivity.
  assert (Hlen : (length exAuthorityParams <= 5)%nat) by (simpl; lia).
  destruct (@parse_authority_params exEnv exAuthorityParams 3
              (Z.lor (@CTRL exEnv) (@MINT exEnv)) 5) as (_ & Hok & _).
  destruct (Hok Hrun) as (Hbounds & _ & _ & _ & Hctrl & _).
  destruct (@parse_authority_params exEnv exAuthorityParams 5 0 0) as (_ & _ & Hthrow).
  split; [exact Hrun |]. split; [exact Hbounds |].
  split; [apply Hctrl; [vm_compute; split; [discriminate | reflexivity] | reflexivity] |].
  split; [exact Hlen | exact (Hthrow Hlen)].
Defined.

(** ** Transaction assembly, step by step *)

Section AssemblySteps.
Context `{Env : TokenGroupEnv}.

Lemma addInputs_vin (chosenCoins : list COutput) : forall vin inpSize approxSize,
  (addInputs chosenCoins (vin, inpSize, approxSize)).1.1
  = vin ++ map (fun coin => mkTxIn (GetOutPoint coin)) chosenCoins.
Proof.
  unfold addInputs.
  induction chosenCoins as [| coin coins IH]; intros vin inpSize approxSize; simpl.
  - by rewrite app_nil_r.
  - rewrite IH. by rewrite <- app_assoc.
Qed.

(** A successful run of [ConstructTx], as the sequence of its steps. *)
Lemma ConstructTx_steps chosenCoins outputs totalAvailable totalNeeded
    totalGroupedAvailable totalGroupedNeeded totalXDMAvailable totalXDMNeeded
    grpID w tx w' :
  ConstructTx chosenCoins outputs totalAvailable totalNeeded totalGroupedAvailable
    totalGroupedNeeded totalXDMAvailable totalXDMNeeded grpID w = Ok (tx, w') ->
  exists size approx1 vout1 approx2 rk1 pool1 vout2 approx3 rk2 pool2 available rk3 pool3,
    let fee := GetRequiredFee w size in
    groupChange totalGroupedAvailable totalGroupedNeeded grpID
      (map txoutOfRecipient outputs, approx1, None, setKeyPool w)
    = Ok (vout1, approx2, rk1, pool1)
    /\ groupChange totalXDMAvailable totalXDMNeeded DarkMatterID (vout1, approx2, rk1, pool1)
       = Ok (vout2, approx3, rk2, pool2)
    /\ feeInput w totalAvailable totalNeeded fee
         (map (fun coin => mkTxIn (GetOutPoint coin)) chosenCoins)
       = Ok (vin tx, available)
    /\ feeChange available totalNeeded fee vout2 None pool2 = Ok (vout tx, rk3, pool3)
    /\ SignTransaction w tx = true
    /\ CommitTransaction w tx = true
    /\ w' = withKeyPool w pool3.
Proof.
  unfold ConstructTx.
  pose proof (addOutputs_vout outputs [] 0) as Hout.
  destruct (addOutputs outputs ([], 0)) as [vout0 approx0]. simpl in Hout. subst vout0.
  pose proof (addInputs_vin chosenCoins [] 0 approx0) as Hin.
  destruct (addInputs chosenCoins ([], 0, approx0)) as [[vin0 inpSize] approx1].
  simpl in Hin. subst vin0.
  unfold mbind, Result_bind.
  match goal with
  | |- context [groupChange ?a ?b ?c ?d] =>
      destruct (groupChange a b c d) as [[[[vout1 approx2] rk1] pool1] |] eqn:Hg1
  end; [| intros; discriminate].
  match goal with
  | |- context [groupChange ?a ?b ?c ?d] =>
      destruct (groupChange a b c d) as [[[[vout2 approx3] rk2] pool2] |] eqn:Hg2
  end; [| intros; discriminate].
  set (fee := GetRequiredFee w (addU32 approx3 (mulU32 inpSize 3))).
  match goal with
  | |- context [feeInput ?a ?b ?c ?d ?e] =>
      destruct (feeInput a b c d e) as [[vin1 available] |] eqn:Hfi
  end; [| intros; discriminate].
  match goal with
  | |- context [feeChange ?a ?b ?c ?d ?e ?f] =>
      destruct (feeChange a b c d e f) as [[[vout3 rk3] pool3] |] eqn:Hfc
  end; [| intros; discriminate].
  destruct (SignTransaction w _) eqn:Hsign; [| intros; discriminate].
  destruct (CommitTransaction w _) eqn:Hcommit; [| intros; discriminate].
  simpl. intros [= <- <-].
  exists (addU32 approx3 (mulU32 inpSize 3)), approx1, vout1, approx2, rk1, pool1,
         vout2, approx3, rk2, pool2, available, rk3, pool3.
  cbv zeta. fold fee. simpl. by repeat split.
Qed.

(** The token-change step, by cases. *)
Lemma groupChange_cases available needed grp vout approxSize rk pool
    vout' approxSize' rk' pool' :
  groupChange available needed grp (vout, approxSize, rk, pool)
  = Ok (vout', approxSize', rk', pool') ->
  if available >? needed
  then exists key,
         GetReservedKey rk pool = (Some key, rk', pool')
         /\ vout' = vout ++ [groupedOutput key grp (sub64 available needed)]
  else vout' = vout /\ rk' = rk /\ pool' = pool.
Proof.
  unfold groupChange. destruct (available >? needed).
  - destruct (GetReservedKey rk pool) as [[[key |] rk1] pool1]; [| discriminate].
    intros [= <- _ <- <-]. by exists key.
  - by intros [= <- _ <- <-].
Qed.

(** The base-change step, by cases. *)
Lemma feeChange_cases totalAvailable totalNeeded fee vout rk pool vout' rk' pool' :
  feeChange totalAvailable totalNeeded fee vout rk pool = Ok (vout', rk', pool') ->
  if totalAvailable >? add64 totalNeeded (mul64 FEE_FUDGE fee)
  then exists key,
         GetReservedKey rk pool = (Some key, rk', pool')
         /\ vout' = vout ++ [plainOutput key (sub64 (sub64 totalAvailable totalNeeded) fee)]
  else vout' = vout /\ rk' = rk /\ pool' = pool.
Proof.
  unfold feeChange. destruct (totalAvailable >? add64 totalNeeded (mul64 FEE_FUDGE fee)).
  - destruct (GetReservedKey rk pool) as [[[key |] rk1] pool1]; [| discriminate].
    intros [= <- <- <-]. by exists key.
  - by intros [= <- <- <-].
Qed.

Lemma GetReservedKey_None pool key rk' pool' :
  GetReservedKey None pool = (Some key, rk', pool') ->
  pool = key :: pool' /\ rk' = Some key.
Proof. destruct pool as [| k pool]; simpl; [discriminate |]. by intros [= -> <- <-]. Qed.

Lemma GetReservedKey_Some k pool key rk' pool' :
  GetReservedKey (Some k) pool = (Some key, rk', pool') ->
  key = k /\ rk' = Some k /\ pool' = pool.
Proof. simpl. by intros [= <- <- <-]. Qed.

(** The keys that the change outputs of a committed transaction are paid
    to, and the key pool afterwards. *)
Lemma ConstructTx_keys chosenCoins outputs totalAvailable totalNeeded
    totalGroupedAvailable totalGroupedNeeded totalXDMAvailable totalXDMNeeded
    grpID w tx w' :
  ConstructTx chosenCoins outputs totalAvailable totalNeeded totalGroupedAvailable
    totalGroupedNeeded totalXDMAvailable totalXDMNeeded grpID w = Ok (tx, w') ->
  exists size available,
    let fee := GetRequiredFee w size in
    let tokenKeys :=
      if (totalGroupedAvailable >? totalGroupedNeeded)
         || (totalXDMAvailable >? totalXDMNeeded) then 1%nat else 0%nat in
    let baseKeys :=
      if available >? add64 totalNeeded (mul64 FEE_FUDGE fee) then 1%nat else 0%nat in
    let tokenKey := default [] (setKeyPool w !! 0%nat) in
    let baseKey := default [] (setKeyPool w !! tokenKeys) in
    feeInput w totalAvailable totalNeeded fee
      (map (fun coin => mkTxIn (GetOutPoint coin)) chosenCoins) = Ok (vin tx, available)
    /\ (tokenKeys + baseKeys <= length (setKeyPool w))%nat
    /\ setKeyPool w' = drop (tokenKeys + baseKeys) (setKeyPool w)
    /\ vout tx
       = map txoutOfRecipient outputs
         ++ (if totalGroupedAvailable >? totalGroupedNeeded
             then [groupedOutput tokenKey grpID
                     (sub64 totalGroupedAvailable totalGroupedNeeded)] else [])
         ++ (if totalXDMAvailable >? totalXDMNeeded
             then [groupedOutput tokenKey DarkMatterID
                     (sub64 totalXDMAvailable totalXDMNeeded)] else [])
         ++ (if available >? add64 totalNeeded (mul64 FEE_FUDGE fee)
             then [plainOutput baseKey (sub64 (sub64 available totalNeeded) fee)]
             else []).
Proof.
  intros Hrun.
  apply ConstructTx_steps in Hrun
    as (size & approx1 & vout1 & approx2 & rk1 & pool1 & vout2 & approx3 & rk2 & pool2
        & available & rk3 & pool3 & Hg1 & Hg2 & Hfi & Hfc & _ & _ & ->).
  exists size, available.
  cbv zeta in *. split; [exact Hfi |].
  apply groupChange_cases in Hg1. apply groupChange_cases in Hg2.
  apply feeChange_cases in Hfc. cbn [withKeyPool setKeyPool walletCoins].
  remember (setKeyPool w) as pool0 eqn:Hpool0. clear Hpool0 Hfi.
  destruct (totalGroupedAvailable >? totalGroupedNeeded);
    destruct (totalXDMAvailable >? totalXDMNeeded);
    destruct (available >? add64 totalNeeded (mul64 FEE_FUDGE (GetRequiredFee w size)));
    simpl orb; cbv iota;
    repeat match goal with
    | H : exists _, _ |- _ => destruct H as (? & ? & ?)
    | H : _ /\ _ |- _ => destruct H
    end;
    repeat match goal with
    | H : GetReservedKey None _ = (Some _, _, _) |- _ =>
        apply GetReservedKey_None in H as [? ?]
    | H : GetReservedKey (Some _) _ = (Some _, _, _) |- _ =>
        apply GetReservedKey_Some in H as (? & ? & ?)
    end; subst;
    repeat match goal with
    | H : GetReservedKey None _ = (Some _, _, _) |- _ =>
        apply GetReservedKey_None in H as [? ?]; subst
    | H : GetReservedKey (Some _) _ = (Some _, _, _) |- _ =>
        apply GetReservedKey_Some in H as (? & ? & ?); subst
    end;
    simpl; rewrite <- ?app_assoc; repeat split; simpl; try lia; try done;
    match goal with
    | H : vout tx = _ |- _ =>
        rewrite H; rewrite <- ?app_assoc; simpl; by rewrite ?app_nil_r
    end.
Qed.

(** X9.  Where the change of a committed transaction goes.  The grouped
    change and the change of the auxiliary fee token are paid to one and
    the same key, the oldest key of the wallet's pool; the base-currency
    change is paid to the next unused key.  The wallet returned has
    exactly the keys used taken from the front of its pool. *)
Theorem change_keys chosenCoins outputs totalAvailable totalNeeded
    totalGroupedAvailable totalGroupedNeeded totalXDMAvailable totalXDMNeeded
    grpID w tx w' :
  ConstructTx chosenCoins outputs totalAvailable totalNeeded totalGroupedAvailable
    totalGroupedNeeded totalXDMAvailable totalXDMNeeded grpID w = Ok (tx, w') ->
  exists size vin0 available,
    let fee := GetRequiredFee w size in
    let tokenKeys :=
      if (totalGroupedAvailable >? totalGroupedNeeded)
         || (totalXDMAvailable >? totalXDMNeeded) then 1%nat else 0%nat in
    let baseKeys :=
      if available >? add64 totalNeeded (mul64 FEE_FUDGE fee) then 1%nat else 0%nat in
    let tokenKey := default [] (setKeyPool w !! 0%nat) in
    let baseKey := default [] (setKeyPool w !! tokenKeys) in
    feeInput w totalAvailable totalNeeded fee vin0 = Ok (vin tx, available)
    /\ (tokenKeys + baseKeys <= length (setKeyPool w))%nat
    /\ setKeyPool w' = drop (tokenKeys + baseKeys) (setKeyPool w)
    /\ vout tx
       = map txoutOfRecipient outputs
         ++ (if totalGroupedAvailable >? totalGroupedNeeded
             then [groupedOutput tokenKey grpID
                     (sub64 totalGroupedAvailable totalGroupedNeeded)] else [])
         ++ (if totalXDMAvailable >? totalXDMNeeded
             then [groupedOutput tokenKey DarkMatterID
                     (sub64 totalXDMAvailable totalXDMNeeded)] else [])
         ++ (if available >? add64 totalNeeded (mul64 FEE_FUDGE fee)
             then [plainOutput baseKey (sub64 (sub64 available totalNeeded) fee)]
             else []).
Proof.
  intros Hrun. destruct (ConstructTx_keys _ _ _ _ _ _ _ _ _ _ _ _ Hrun)
    as (size & available & Hkeys).
  by exists size, (map (fun coin => mkTxIn (GetOutPoint coin)) chosenCoins), available.
Qed.

End AssemblySteps.

Lemma change_keys_witness :
  exists tx w',
    exTwoChangeRun = Ok (tx, w')
    /\ exists size vin0 available,
         let fee := GetRequiredFee exWallet size in
         let tokenKeys := if (5 >? 2) || (9 >? 4) then 1%nat else 0%nat in
         let baseKeys :=
           if available >? add64 0 (mul64 FEE_FUDGE fee) then 1%nat else 0%nat in
         let tokenKey := default [] (setKeyPool exWallet !! 0%nat) in
         let baseKey := default [] (setKeyPool exWallet !! tokenKeys) in
         feeInput exWallet 100000 0 fee vin0 = Ok (vin tx, available)
         /\ (tokenKeys + baseKeys <= length (setKeyPool exWallet))%nat
         /\ setKeyPool w' = drop (tokenKeys + baseKeys) (setKeyPool exWallet)
         /\ vout tx
            = map txoutOfRecipient []
              ++ (if 5 >? 2 then [@groupedOutput exEnv tokenKey exGroup32 (sub64 5 2)] else [])
              ++ (if 9 >? 4
                  then [@groupedOutput exEnv tokenKey (@DarkMatterID exEnv) (sub64 9 4)]
                  else [])
              ++ (if available >? add64 0 (mul64 FEE_FUDGE fee)
                  then [@plainOutput exEnv baseKey (sub64 (sub64 available 0) fee)]
                  else []).
Proof.
  destruct exTwoChangeRun as [[tx w'] | code message] eqn:Hrun;
    [| vm_compute in Hrun; discriminate Hrun].
  exists tx, w'. split; [reflexivity |].
  exact (@change_keys exEnv _ _ _ _ _ _ _ _ _ _ _ _ Hrun).
Defined.

(** The run of the example: both token changes go to the first key of the
    pool, the base change to the second, and the third key stays. *)
Example exTwoChangeRun_result :
  exists tx w',
    exTwoChangeRun = Ok (tx, w')
    /\ vout tx = [@groupedOutput exEnv exKeyA exGroup32 3;
                  @groupedOutput exEnv exKeyA (@DarkMatterID exEnv) 5;
                  @plainOutput exEnv exKeyB 99000]
    /\ setKeyPool w' = [exKeyC].
Proof.
  destruct exTwoChangeRun as [[tx w'] | code message] eqn:Hrun;
    [| vm_compute in Hrun; discriminate Hrun].
  exists tx, w'. split; [reflexivity |].
  vm_compute in Hrun. injection Hrun as <- <-. split; reflexivity.
Qed.

(** ** Inputs of a transaction, and how assembly fails *)

Lemma NearestGreaterCoin_found coins amt c0 feeCoin :
  NearestGreaterCoin coins amt c0 = (true, feeCoin) ->
  feeCoin ∈ coins /\ amt < GetValue feeCoin < INT64_MAX
  /\ Forall (fun c => amt < GetValue c -> GetValue feeCoin <= GetValue c) coins.
Proof.
  unfold NearestGreaterCoin.
  pose proof (NearestGreaterCoin_scan coins amt c0) as H.
  destruct (fold_left (NearestGreaterCoin_step amt) coins (false, INT64_MAX, c0))
    as [[ret best] c].
  intros [= -> ->]. destruct H as (Hin & Hval & Hrange & Hmin). by subst best.
Qed.


Lemma ungroupedCoins_elem_of w c :
  c ∈ ungroupedCoins w
  <-> c ∈ walletCoins w /\ associatedGroup (groupInfo c) = NoGroup.
Proof.
  unfold ungroupedCoins, FilterCoins. rewrite list_elem_of_In, filter_In.
  rewrite <- list_elem_of_In, bool_decide_eq_true.
  split; intros [H1 H2]; split; congruence.
Qed.

(** The fee-input step, by cases. *)
Lemma feeInput_cases w totalAvailable totalNeeded fee vin vin' available :
  feeInput w totalAvailable totalNeeded fee vin = Ok (vin', available) ->
  if totalAvailable <? add64 totalNeeded fee
  then exists feeCoin,
         feeCoin ∈ walletCoins w
         /\ associatedGroup (groupInfo feeCoin) = NoGroup
         /\ fee < GetValue feeCoin < INT64_MAX
         /\ (forall c, c ∈ walletCoins w -> associatedGroup (groupInfo c) = NoGroup ->
               fee < GetValue c -> GetValue feeCoin <= GetValue c)
         /\ available = add64 totalAvailable (GetValue feeCoin)
         /\ vin' = vin ++ [feeTxIn feeCoin]
  else available = totalAvailable /\ vin' = vin.
Proof.
  unfold feeInput. cbv zeta. fold (ungroupedCoins w).
  destruct (totalAvailable <? add64 totalNeeded fee); [| by intros [= <- <-]].
  destruct (NearestGreaterCoin (ungroupedCoins w) fee nullCOutput) as [found feeCoin] eqn:Hn.
  destruct found; simpl; [| discriminate].
  intros [= <- <-]. apply NearestGreaterCoin_found in Hn as (Hin & Hrange & Hmin).
  apply ungroupedCoins_elem_of in Hin as [Hin Hgrp].
  exists feeCoin. split; [done |]. split; [done |]. split; [done |].
  split; [| done].
  intros c Hc Hg Hgt. rewrite Forall_forall in Hmin. apply Hmin; [| done].
  by apply ungroupedCoins_elem_of.
Qed.

Section AssemblyInputs.
Context `{Env : TokenGroupEnv}.

(** X10.  The inputs of a committed transaction are the chosen coins, in
    the order given, followed by at most one fee input.  The fee input is
    present exactly when the base currency handed in is below
    [needed + fee]; it then spends an ungrouped coin of the wallet worth
    more than the fee, the cheapest such coin, with sequence number
    [UINT_MAX - 1], and only its value is added to what is at hand.  A
    transaction is returned only if the wallet signed and committed it. *)
Theorem transaction_inputs chosenCoins outputs totalAvailable totalNeeded
    totalGroupedAvailable totalGroupedNeeded totalXDMAvailable totalXDMNeeded
    grpID w tx w' :
  ConstructTx chosenCoins outputs totalAvailable totalNeeded totalGroupedAvailable
    totalGroupedNeeded totalXDMAvailable totalXDMNeeded grpID w = Ok (tx, w') ->
  SignTransaction w tx = true
  /\ CommitTransaction w tx = true
  /\ exists size,
       let fee := GetRequiredFee w size in
       let inputs := map (fun coin => mkTxIn (GetOutPoint coin)) chosenCoins in
       if totalAvailable <? add64 totalNeeded fee
       then exists feeCoin,
              feeCoin ∈ walletCoins w
              /\ associatedGroup (groupInfo feeCoin) = NoGroup
              /\ fee < GetValue feeCoin < INT64_MAX
              /\ (forall c, c ∈ walletCoins w -> associatedGroup (groupInfo c) = NoGroup ->
                    fee < GetValue c -> GetValue feeCoin <= GetValue c)
              /\ vin tx = inputs ++ [feeTxIn feeCoin]
       else vin tx = inputs.
Proof.
  intros Hrun.
  apply ConstructTx_steps in Hrun
    as (size & approx1 & vout1 & approx2 & rk1 & pool1 & vout2 & approx3 & rk2 & pool2
        & available & rk3 & pool3 & _ & _ & Hfi & _ & Hsign & Hcommit & _).
  split; [exact Hsign |]. split; [exact Hcommit |].
  exists size. cbv zeta in *. apply feeInput_cases in Hfi.
  destruct (totalAvailable <? add64 totalNeeded (GetRequiredFee w size)).
  - destruct Hfi as (feeCoin & H1 & H2 & H3 & H4 & _ & H6). by exists feeCoin.
  - by destruct Hfi.
Qed.

End AssemblyInputs.

Lemma transaction_inputs_witness :
  exists tx w',
    exMeltRun = Ok (tx, w')
    /\ SignTransaction exWallet tx = true
    /\ CommitTransaction exWallet tx = true.
Proof.
  destruct exMeltRun as [[tx w'] | code message] eqn:Hrun;
    [| vm_compute in Hrun; discriminate Hrun].
  exists tx, w'. split; [reflexivity |].
  assert (Hc : @ConstructTx exEnv
                 [exToken 2 exGroup32 7;
                  exAuthority 1 exGroup32 (Z.lor (@CTRL exEnv) (@MELT exEnv))]
                 [] 1 0 3 0 0 0 exGroup32 exWallet = Ok (tx, w')).
  { rewrite <- Hrun. reflexivity. }
  destruct (@transaction_inputs exEnv _ _ _ _ _ _ _ _ _ _ _ _ Hc) as (Hs & Hm & _).
  split; [exact Hs | exact Hm].
Defined.

Section AssemblyFailures.
Context `{Env : TokenGroupEnv}.




(** The pool left by a token-change step that did not fail: the pool it
    was given, or that pool without its first key. *)
Lemma groupChange_pool available needed grp vout approxSize rk pool
    vout' approxSize' rk' pool' :
  groupChange available needed grp (vout, approxSize, rk, pool)
  = Ok (vout', approxSize', rk', pool') ->
  pool' = pool \/ exists key, pool = key :: pool'.
Proof.
  intros H. apply groupChange_cases in H. destruct (available >? needed).
  - destruct H as (key & Hk & _). destruct rk as [k |].
    + apply GetReservedKey_Some in Hk as (_ & _ & ->). by left.
    + apply GetReservedKey_None in Hk as [-> _]. right. by exists key.
  - destruct H as (_ & _ & ->). by left.
Qed.

(** Two token-change steps in a row, starting without a reservation,
    take at most one key: the second reuses the reservation of the first. *)
Lemma groupChange_twice a1 n1 g1 a2 n2 g2 vout approxSize pool
    vout1 approx1 rk1 pool1 vout2 approx2 rk2 pool2 :
  groupChange a1 n1 g1 (vout, approxSize, None, pool) = Ok (vout1, approx1, rk1, pool1) ->
  groupChange a2 n2 g2 (vout1, approx1, rk1, pool1) = Ok (vout2, approx2, rk2, pool2) ->
  pool2 = pool \/ exists key, pool = key :: pool2.
Proof.
  intros H1 H2. apply groupChange_cases in H1, H2.
  destruct (a1 >? n1).
  - destruct H1 as (key & Hk & _). apply GetReservedKey_None in Hk as [-> ->].
    right. exists key. destruct (a2 >? n2).
    + destruct H2 as (key2 & Hk2 & _). by apply GetReservedKey_Some in Hk2 as (_ & _ & ->).
    + by destruct H2 as (_ & _ & ->).
  - destruct H1 as (_ & -> & ->). destruct (a2 >? n2).
    + destruct H2 as (key2 & Hk2 & _). apply GetReservedKey_None in Hk2 as [-> _].
      right. by exists key2.
    + destruct H2 as (_ & _ & ->). by left.
Qed.




Lemma groupChange_empty_pool available needed grp vout approxSize :
  groupChange available needed grp (vout, approxSize, None, [])
  = if available >? needed
    then Throw RPC_WALLET_KEYPOOL_RAN_OUT
               "Error: Keypool ran out, please call keypoolrefill first"
    else Ok (vout, approxSize, None, []).
Proof. reflexivity. Qed.

(** X12.  With an empty key pool, an assembly that owes token change
    (of the group or of the auxiliary fee token) fails with the key-pool
    error, whatever the coins, the outputs and the fee. *)
Theorem no_keys_no_token_change chosenCoins outputs totalAvailable totalNeeded
    totalGroupedAvailable totalGroupedNeeded totalXDMAvailable totalXDMNeeded
    grpID w :
  setKeyPool w = [] ->
  totalGroupedNeeded < totalGroupedAvailable \/ totalXDMNeeded < totalXDMAvailable ->
  ConstructTx chosenCoins outputs totalAvailable totalNeeded totalGroupedAvailable
    totalGroupedNeeded totalXDMAvailable totalXDMNeeded grpID w
  = Throw RPC_WALLET_KEYPOOL_RAN_OUT
          "Error: Keypool ran out, please call keypoolrefill first".
Proof.
  intros Hpool Hchange. unfold ConstructTx.
  destruct (addOutputs outputs ([], 0)) as [vout0 approx0].
  destruct (addInputs chosenCoins ([], 0, approx0)) as [[vin0 inpSize] approx1].
  unfold mbind, Result_bind. rewrite Hpool, groupChange_empty_pool.
  destruct (totalGroupedAvailable >? totalGroupedNeeded) eqn:Hg; [reflexivity |].
  rewrite groupChange_empty_pool.
  destruct (totalXDMAvailable >? totalXDMNeeded) eqn:Hx; [reflexivity |].
  rewrite Z.gtb_ltb, Z.ltb_ge in Hg, Hx. lia.
Qed.

End AssemblyFailures.


Lemma no_keys_no_token_change_witness :
  @ConstructTx exEnv [exToken 2 exGroup32 7] [] 0 0 7 4 0 0 exGroup32 exNoKeysWallet
  = Throw RPC_WALLET_KEYPOOL_RAN_OUT
          "Error: Keypool ran out, please call keypoolrefill first".
Proof.
  apply (@no_keys_no_token_change exEnv); [reflexivity | left; lia].
Defined.

(** ** What a melt spends, and when it is refused *)

Lemma filter_elem_of_iff (pred : COutput -> bool) (l : list COutput) (c : COutput) :
  c ∈ List.filter pred l <-> c ∈ l /\ pred c = true.
Proof. by rewrite !list_elem_of_In, filter_In. Qed.

Section MeltInputs.
Context `{Env : TokenGroupEnv}.

(** The steps of a melt that returns a transaction. *)
Lemma GroupMelt_steps grpID totalNeeded w tx w' :
  GroupMelt grpID totalNeeded w = Ok (tx, w') ->
  exists authority T chosen renewNeeded outputs rk pool,
    authority ∈ walletCoins w
    /\ allowsMelt (groupInfo authority) = true
    /\ (associatedGroup (groupInfo authority) = grpID
        \/ (isSubgroup grpID = true
            /\ associatedGroup (groupInfo authority) = parentGroup grpID
            /\ isAuthority (groupInfo authority) = true
            /\ allowsRenew (groupInfo authority) = true
            /\ allowsSubgroup (groupInfo authority) = true
            /\ forall c, c ∈ walletCoins w -> associatedGroup (groupInfo c) = grpID ->
                 allowsMelt (groupInfo c) = false))
    /\ GroupCoinSelection (meltableCoins grpID w) totalNeeded [] = (T, chosen)
    /\ totalNeeded <= T
    /\ RenewAuthority authority [] None (setKeyPool w) = (renewNeeded, outputs, rk, pool)
    /\ ConstructTx (chosen ++ [authority]) outputs (add64 0 (nValue (txout authority)))
         (wrap64 (0 + renewNeeded)) (sub64 T totalNeeded) 0 0 0 grpID (withKeyPool w pool)
       = Ok (tx, w').
Proof.
  unfold GroupMelt, meltableCoins. cbv zeta.
  set (direct := FilterCoins w _).
  set (fallback := FilterCoins w _).
  set (tokens := FilterCoins w _).
  assert (Hauth : forall c,
            c ∈ (if (length direct =? 0)%nat && isSubgroup grpID then fallback else direct) ->
            c ∈ walletCoins w
            /\ allowsMelt (groupInfo c) = true
            /\ (associatedGroup (groupInfo c) = grpID
                \/ (isSubgroup grpID = true
                    /\ associatedGroup (groupInfo c) = parentGroup grpID
                    /\ isAuthority (groupInfo c) = true
                    /\ allowsRenew (groupInfo c) = true
                    /\ allowsSubgroup (groupInfo c) = true
                    /\ forall c', c' ∈ walletCoins w ->
                         associatedGroup (groupInfo c') = grpID ->
                         allowsMelt (groupInfo c') = false))).
  { intros c Hc.
    destruct ((length direct =? 0)%nat && isSubgroup grpID) eqn:Hsub.
    - apply andb_true_iff in Hsub as [Hnone Hsubgroup].
      apply Nat.eqb_eq, nil_length_inv in Hnone.
      apply filter_elem_of_iff in Hc as [Hin Hp].
      repeat (apply andb_true_iff in Hp as [Hp ?]).
      match goal with H : bool_decide _ = true |- _ => apply bool_decide_eq_true in H end.
      split; [done |]. split; [done |]. right. repeat split; try done.
      intros c' Hc' Hg. destruct (allowsMelt (groupInfo c')) eqn:Hm; [| done].
      assert (Hd : c' ∈ direct).
      { apply filter_elem_of_iff. split; [done |].
        apply andb_true_iff. split; [by apply bool_decide_eq_true | done]. }
      rewrite Hnone in Hd. by apply elem_of_nil in Hd.
    - apply filter_elem_of_iff in Hc as [Hin Hp].
      apply andb_true_iff in Hp as [Hg Hm]. apply bool_decide_eq_true in Hg.
      split; [done |]. split; [done |]. by left. }
  destruct (if (length direct =? 0)%nat && isSubgroup grpID then fallback else direct)
    as [| authority others]; [intros; discriminate |].
  specialize (Hauth authority ltac:(by left)). destruct Hauth as (Hin & Hmelt & Hgrp).
  destruct (GroupCoinSelection tokens totalNeeded []) as [T chosen] eqn:Hsel.
  destruct (T <? totalNeeded) eqn:Hlt; [intros; discriminate |].
  apply Z.ltb_ge in Hlt.
  destruct (RenewAuthority authority [] None (setKeyPool w))
    as [[[renewNeeded outputs] rk] pool] eqn:Hrenew.
  intros Hrun.
  exists authority, T, chosen, renewNeeded, outputs, rk, pool.
  by repeat (split; [done |]).
Qed.

(** X13.  A melt that returns a transaction spends a melt authority of
    the wallet: an output of the melted group with the melt capability or,
    for a subgroup none of whose own outputs has it, an authority of the
    parent group that is renewable and has the subgroup and the melt
    capability.  Its inputs are, in this order, a run of the wallet's
    non-authority coins of the melted group taken from the first one on,
    holding at least the quantity to melt, then the authority, then at
    most one fee input. *)
Theorem melt_spends_authority grpID totalNeeded w tx w' :
  GroupMelt grpID totalNeeded w = Ok (tx, w') ->
  exists authority chosen feeInputs,
    authority ∈ walletCoins w
    /\ allowsMelt (groupInfo authority) = true
    /\ (associatedGroup (groupInfo authority) = grpID
        \/ (isSubgroup grpID = true
            /\ associatedGroup (groupInfo authority) = parentGroup grpID
            /\ isAuthority (groupInfo authority) = true
            /\ allowsRenew (groupInfo authority) = true
            /\ allowsSubgroup (groupInfo authority) = true
            /\ forall c, c ∈ walletCoins w -> associatedGroup (groupInfo c) = grpID ->
                 allowsMelt (groupInfo c) = false))
    /\ chosen `prefix_of` meltableCoins grpID w
    /\ totalNeeded <= total64 tokenQuantity chosen
    /\ (length feeInputs <= 1)%nat
    /\ vin tx = map (fun coin => mkTxIn (GetOutPoint coin)) (chosen ++ [authority])
                ++ feeInputs.
Proof.
  intros Hrun.
  apply GroupMelt_steps in Hrun
    as (authority & T & chosen & renewNeeded & outputs & rk & pool
        & Hin & Hmelt & Hgrp & Hsel & Hle & _ & Hrun).
  apply ConstructTx_steps in Hrun
    as (size & approx1 & vout1 & approx2 & rk1 & pool1 & vout2 & approx3 & rk2 & pool2
        & available & rk3 & pool3 & _ & _ & Hfi & _).
  cbv zeta in Hfi. apply feeInput_cases in Hfi.
  unfold GroupCoinSelection in Hsel.
  destruct (selection_loop_prefix (fun coin => quantity (groupInfo coin))
              (meltableCoins grpID w) totalNeeded 0) as [Hpre Htot].
  rewrite Hsel in Hpre, Htot. simpl in Hpre, Htot.
  exists authority, chosen.
  match type of Hfi with
  | if ?b then _ else _ => destruct b
  end.
  - destruct Hfi as (feeCoin & _ & _ & _ & _ & _ & Hvin).
    exists [feeTxIn feeCoin]. repeat (split; [done |]).
    split; [by rewrite Htot in Hle |]. split; [simpl; lia | exact Hvin].
  - destruct Hfi as [_ Hvin]. exists []. repeat (split; [done |]).
    split; [by rewrite Htot in Hle |]. split; [simpl; lia |].
    by rewrite app_nil_r.
Qed.

(** X14.  A melt of more tokens than the wallet's non-authority coins of
    the group hold is refused with the insufficient-funds error, whether
    or not a melt authority is at hand; nothing is signed. *)
Theorem melt_beyond_holdings grpID totalNeeded w :
  Forall (fun c => 0 <= tokenQuantity c) (meltableCoins grpID w) ->
  total tokenQuantity (meltableCoins grpID w) <= INT64_MAX ->
  total tokenQuantity (meltableCoins grpID w) < totalNeeded ->
  exists message,
    GroupMelt grpID totalNeeded w = Throw RPC_WALLET_INSUFFICIENT_FUNDS message.
Proof.
  intros Hpos Hsum Hshort.
  destruct (greedy_contract tokenQuantity (meltableCoins grpID w) totalNeeded Hpos Hsum)
    as (_ & _ & _ & _ & Hall).
  specialize (Hall Hshort). destruct Hall as [_ Htotal].
  unfold GroupMelt. cbv zeta.
  match goal with
  | |- context [match ?l with [] => _ | _ :: _ => _ end] => destruct l as [| authority others]
  end; [by eexists |].
  fold (meltableCoins grpID w). unfold GroupCoinSelection.
  change (fun coin => quantity (groupInfo coin)) with tokenQuantity.
  destruct (selection_loop tokenQuantity (meltableCoins grpID w) totalNeeded 0 [])
    as [T chosen]. simpl in Htotal. subst T.
  apply Z.ltb_lt in Hshort. rewrite Hshort. by eexists.
Qed.

End MeltInputs.

Lemma melt_spends_authority_witness :
  exists tx w',
    exMeltRun = Ok (tx, w')
    /\ exists authority chosen feeInputs,
         authority ∈ walletCoins exWallet
         /\ @allowsMelt exEnv (groupInfo authority) = true
         /\ chosen `prefix_of` meltableCoins exGroup32 exWallet
         /\ 4 <= total64 tokenQuantity chosen
         /\ (length feeInputs <= 1)%nat
         /\ vin tx = map (fun coin => mkTxIn (GetOutPoint coin)) (chosen ++ [authority])
                     ++ feeInputs.
Proof.
  destruct exMeltRun as [[tx w'] | code message] eqn:Hrun;
    [| vm_compute in Hrun; discriminate Hrun].
  exists tx, w'. split; [reflexivity |].
  destruct (@melt_spends_authority exEnv _ _ _ _ _ Hrun)
    as (authority & chosen & feeInputs & H1 & H2 & _ & H4 & H5 & H6 & H7).
  exists authority, chosen, feeInputs.
  split; [exact H1 |]. split; [exact H2 |]. split; [exact H4 |].
  split; [exact H5 |]. split; [exact H6 | exact H7].
Defined.

Lemma melt_beyond_holdings_witness :
  exists message,
    @GroupMelt exEnv exGroup32 13 exWallet = Throw RPC_WALLET_INSUFFICIENT_FUNDS message.
Proof.
  apply (@melt_beyond_holdings exEnv).
  - apply Forall_cons_2; [vm_compute; discriminate |].
    apply Forall_cons_2; [vm_compute; discriminate |]. apply Forall_nil_2.
  - vm_compute. discriminate.
  - vm_compute. reflexivity.
Defined.

(** ** Sending tokens *)

Lemma fold_add64_exact value (l : list COutput) : forall cur,
  0 <= cur ->
  Forall (fun c => 0 <= value c) l ->
  cur + total value l <= INT64_MAX ->
  fold_left (fun acc coin => add64 acc (value coin)) l cur = cur + total value l.
Proof.
  induction l as [| c l IH]; intros cur Hcur Hpos Hsum; simpl in *; [lia |].
  apply Forall_cons in Hpos as [Hc Hpos].
  pose proof (total_nonneg value l Hpos) as Hl.
  rewrite add64_exact by (unfold in_int64, INT64_MIN, INT64_MAX in *; lia).
  rewrite IH; [lia | lia | done | lia].
Qed.

Lemma total64_exact value (l : list COutput) :
  Forall (fun c => 0 <= value c) l ->
  total value l <= INT64_MAX ->
  total64 value l = total value l.
Proof.
  intros Hpos Hsum. unfold total64. rewrite fold_add64_exact; [lia | lia | done | lia].
Qed.

(** The filter of [GroupSend] accepts the non-authority outputs of the
    group and adds up their quantities. *)
Lemma FilterCoinsWith_sendFilter g w :
  FilterCoinsWith w (sendFilter g) 0
  = (total64 tokenQuantity (meltableCoins g w), meltableCoins g w).
Proof.
  unfold FilterCoinsWith, meltableCoins, FilterCoins, total64.
  assert (Hgen : forall l s acc,
    fold_left (fun '(s, coins) coin =>
                 let '(s', keep) := sendFilter g s coin in
                 (s', if keep then coins ++ [coin] else coins)) l (s, acc)
    = (fold_left (fun cur coin => add64 cur (tokenQuantity coin))
         (List.filter (fun coin => bool_decide (g = associatedGroup (groupInfo coin))
                                   && negb (isAuthority (groupInfo coin))) l) s,
       acc ++ List.filter (fun coin => bool_decide (g = associatedGroup (groupInfo coin))
                                       && negb (isAuthority (groupInfo coin))) l)).
  { induction l as [| c l IH]; intros s acc; simpl; [by rewrite app_nil_r |].
    unfold sendFilter at 2.
    destruct (bool_decide (g = associatedGroup (groupInfo c))
              && negb (isAuthority (groupInfo c))); simpl.
    - rewrite IH. by rewrite <- app_assoc.
    - by rewrite IH. }
  by rewrite Hgen.
Qed.

Section SendProperties.
Context `{Env : TokenGroupEnv}.
Variable MatchesDarkMatter : CTokenGroupID -> bool.

(** The first part of [GroupSend], by cases. *)
Lemma GroupSend_XDM_spec grpID totalNeeded totalXDMNeeded w needed xdmNeeded xdmAvailable
    chosenXDM :
  GroupSend_XDM MatchesDarkMatter grpID totalNeeded totalXDMNeeded w
  = Ok (needed, xdmNeeded, xdmAvailable, chosenXDM) ->
  needed = (if MatchesDarkMatter grpID then add64 totalNeeded totalXDMNeeded
            else totalNeeded)
  /\ xdmNeeded = (if MatchesDarkMatter grpID then 0 else totalXDMNeeded)
  /\ chosenXDM `prefix_of` meltableCoins DarkMatterID w
  /\ (MatchesDarkMatter grpID = true \/ totalXDMNeeded <= 0 ->
      chosenXDM = [] /\ xdmAvailable = 0).
Proof.
  unfold GroupSend_XDM. cbv zeta.
  destruct (MatchesDarkMatter grpID).
  { intros [= <- <- <- <-]. repeat split; try done. by apply prefix_nil. }
  destruct (totalXDMNeeded >? 0) eqn:Hpos.
  2:{ intros [= <- <- <- <-]. repeat split; try done. by apply prefix_nil. }
  apply Z.gtb_lt in Hpos.
  rewrite FilterCoinsWith_sendFilter.
  destruct (_ <? totalXDMNeeded); [discriminate |].
  unfold GroupCoinSelection.
  destruct (selection_loop_prefix (fun coin => quantity (groupInfo coin))
              (meltableCoins DarkMatterID w) totalXDMNeeded 0) as [Hpre _].
  destruct (selection_loop _ (meltableCoins DarkMatterID w) totalXDMNeeded 0 [])
    as [T chosen] eqn:Hsel.
  intros [= <- <- <- <-]. simpl in Hpre.
  split; [done |]. split; [done |]. split; [done |].
  intros [Hm | Hle]; [discriminate | lia].
Qed.

(** X15.  A send that returns a transaction conserves the tokens of the
    group.  The quantity to provide is the quantity asked for, plus the
    fee quantity when the group is the auxiliary fee token itself.  With
    non-negative quantities whose sum is representable, the inputs are a
    run of the wallet's fee-token coins (none when the group is the fee
    token or no fee quantity is asked for), then a run [chosen] of the
    wallet's non-authority coins of the group, each run taken from the
    first such coin on, then at most one fee input; the run holds at least
    the quantity to provide, and the outputs are the recipients' outputs in
    the order given, a grouped change output paying exactly the surplus
    of [chosen] back when there is one, at most one change output of the
    fee token, and at most one base-currency change output. *)
Theorem send_conserves_tokens grpID outputs totalNeeded totalXDMNeeded w tx w' :
  0 <= totalNeeded ->
  0 <= totalXDMNeeded ->
  totalNeeded + totalXDMNeeded <= INT64_MAX ->
  Forall (fun c => 0 <= tokenQuantity c) (meltableCoins grpID w) ->
  total tokenQuantity (meltableCoins grpID w) <= INT64_MAX ->
  GroupSend MatchesDarkMatter grpID outputs totalNeeded totalXDMNeeded w = Ok (tx, w') ->
  let needed := if MatchesDarkMatter grpID then totalNeeded + totalXDMNeeded
                else totalNeeded in
  exists chosenXDM chosen feeInputs changeKey xdmChange baseChange,
    chosenXDM `prefix_of` meltableCoins DarkMatterID w
    /\ (MatchesDarkMatter grpID = true \/ totalXDMNeeded <= 0 -> chosenXDM = [])
    /\ chosen `prefix_of` meltableCoins grpID w
    /\ needed <= total tokenQuantity chosen
    /\ (length feeInputs <= 1)%nat
    /\ vin tx = map (fun coin => mkTxIn (GetOutPoint coin)) (chosenXDM ++ chosen)
                ++ feeInputs
    /\ (length xdmChange <= 1)%nat
    /\ Forall (fun out => exists key amount, out = groupedOutput key DarkMatterID amount)
              xdmChange
    /\ (length baseChange <= 1)%nat
    /\ Forall (fun out => exists key value, out = plainOutput key value) baseChange
    /\ vout tx
       = map txoutOfRecipient outputs
         ++ (if total tokenQuantity chosen >? needed
             then [groupedOutput changeKey grpID (total tokenQuantity chosen - needed)]
             else [])
         ++ xdmChange ++ baseChange.
Proof.
  intros Hn Hx Hnx Hpos Hsum. unfold GroupSend. unfold mbind at 1, Result_bind at 1.
  destruct (GroupSend_XDM MatchesDarkMatter grpID totalNeeded totalXDMNeeded w)
    as [[[[needed' xdmNeeded] xdmAvailable] chosenXDM] |] eqn:Hxdm; [| discriminate].
  apply GroupSend_XDM_spec in Hxdm as (Hneeded & _ & HpreX & HnoX).
  assert (Hneeded' : needed' = if MatchesDarkMatter grpID
                               then totalNeeded + totalXDMNeeded else totalNeeded).
  { rewrite Hneeded. destruct (MatchesDarkMatter grpID); [| done].
    apply add64_exact. unfold in_int64, INT64_MIN, INT64_MAX in *. lia. }
  clear Hneeded. cbv zeta. rewrite <- Hneeded'.
  assert (Hneeded0 : 0 <= needed').
  { rewrite Hneeded'. destruct (MatchesDarkMatter grpID); lia. }
  clear Hneeded'.
  rewrite FilterCoinsWith_sendFilter, (total64_exact _ _ Hpos Hsum).
  destruct (_ <? needed') eqn:Hshort; [discriminate |]. apply Z.ltb_ge in Hshort.
  unfold GroupCoinSelection.
  rewrite (selection_loop_frame _ (meltableCoins grpID w) needed' 0 chosenXDM).
  change (fun coin => quantity (groupInfo coin)) with tokenQuantity.
  destruct (greedy_contract tokenQuantity (meltableCoins grpID w) needed' Hpos Hsum)
    as (Hpre & Htot & _ & Hreach & _).
  specialize (Hreach Hshort).
  destruct (selection_loop tokenQuantity (meltableCoins grpID w) needed' 0 [])
    as [T chosen]. simpl in Hpre, Htot, Hreach. subst T.
  assert (Hle : total tokenQuantity chosen <= INT64_MAX).
  { pose proof Hpre as [rest Hrest]. rewrite Hrest, total_app in Hsum.
    rewrite Hrest in Hpos. apply Forall_app in Hpos as [_ Hpos].
    pose proof (total_nonneg _ _ Hpos). lia. }
  intros Hrun. simpl in Hrun.
  pose proof (ConstructTx_vout _ _ _ _ _ _ _ _ _ _ _ _ Hrun)
    as (size & vin0 & available & groupKey & xdmKey & feeKey & _ & Hvout).
  apply ConstructTx_steps in Hrun
    as (size' & approx1 & vout1 & approx2 & rk1 & pool1 & vout2 & approx3 & rk2 & pool2
        & available' & rk3 & pool3 & _ & _ & Hfi & _).
  cbv zeta in Hfi, Hvout. apply feeInput_cases in Hfi.
  rewrite sub64_exact in Hvout by (unfold in_int64, INT64_MIN, INT64_MAX in *; lia).
  assert (Hvin : exists feeInputs,
            (length feeInputs <= 1)%nat
            /\ vin tx = map (fun coin => mkTxIn (GetOutPoint coin)) (chosenXDM ++ chosen)
                        ++ feeInputs).
  { match type of Hfi with
    | if ?b then _ else _ => destruct b
    end.
    - destruct Hfi as (feeCoin & _ & _ & _ & _ & _ & ->).
      exists [feeTxIn feeCoin]. split; [simpl; lia | done].
    - destruct Hfi as [_ ->]. exists []. split; [simpl; lia | by rewrite app_nil_r]. }
  destruct Hvin as (feeInputs & Hlen & Hvin).
  exists chosenXDM, chosen, feeInputs, groupKey.
  match type of Hvout with
  | _ = _ ++ _ ++ ?x ++ ?b => exists x, b
  end.
  split; [done |]. split; [by intros H; apply HnoX in H as [-> _] |].
  split; [done |]. split; [done |].
  split; [done |]. split; [done |].
  split; [destruct (xdmAvailable >? xdmNeeded); simpl; lia |].
  split; [destruct (xdmAvailable >? xdmNeeded); repeat constructor; by eexists _, _ |].
  split; [destruct (available >? _); simpl; lia |].
  split; [destruct (available >? _); repeat constructor; by eexists _, _ |].
  exact Hvout.
Qed.

End SendProperties.

Lemma send_conserves_tokens_witness :
  exists tx w',
    exSendRun = Ok (tx, w')
    /\ exists chosen changeKey baseChange,
         chosen `prefix_of` meltableCoins exGroup32 exWallet
         /\ 9 <= total tokenQuantity chosen
         /\ vout tx
            = [txoutOfRecipient (@recipientFor exEnv true exGroup32 exOwner 9)]
              ++ (if total tokenQuantity chosen >? 9
                  then [@groupedOutput exEnv changeKey exGroup32
                          (total tokenQuantity chosen - 9)]
                  else [])
              ++ baseChange.
Proof.
  destruct exSendRun as [[tx w'] | code message] eqn:Hrun;
    [| vm_compute in Hrun; discriminate Hrun].
  exists tx, w'. split; [reflexivity |].
  assert (Hpos : Forall (fun c => 0 <= tokenQuantity c) (meltableCoins exGroup32 exWallet)).
  { apply Forall_cons_2; [vm_compute; discriminate |].
    apply Forall_cons_2; [vm_compute; discriminate |]. apply Forall_nil_2. }
  assert (Hsum : total tokenQuantity (meltableCoins exGroup32 exWallet) <= INT64_MAX).
  { vm_compute. discriminate. }
  destruct (@send_conserves_tokens exEnv (fun _ => false) exGroup32 _ 9 0 exWallet tx w'
              ltac:(lia) ltac:(lia) ltac:(vm_compute; discriminate) Hpos Hsum Hrun)
    as (chosenXDM & chosen & feeInputs & changeKey & xdmChange & baseChange
        & _ & HnoX & Hpre & Hle & _ & _ & Hx & _ & _ & _ & Hvout).
  exists chosen, changeKey, (xdmChange ++ baseChange).
  split; [exact Hpre |]. split; [exact Hle | exact Hvout].
Defined.

Section SendRefusals.
Context `{Env : TokenGroupEnv}.
Variable MatchesDarkMatter : CTokenGroupID -> bool.

(** X16.  A send is refused with the insufficient-funds error when the
    wallet's non-authority coins of the group, added up in 64-bit
    arithmetic, hold less than the quantity to provide: the quantity asked
    for, plus the fee quantity when the group is the fee token itself. *)
Theorem send_beyond_holdings grpID outputs totalNeeded totalXDMNeeded w :
  total64 tokenQuantity (meltableCoins grpID w)
  < (if MatchesDarkMatter grpID then add64 totalNeeded totalXDMNeeded else totalNeeded) ->
  exists message,
    GroupSend MatchesDarkMatter grpID outputs totalNeeded totalXDMNeeded w
    = Throw RPC_WALLET_INSUFFICIENT_FUNDS message.
Proof.
  intros Hshort. unfold GroupSend. unfold mbind at 1, Result_bind at 1.
  destruct (GroupSend_XDM MatchesDarkMatter grpID totalNeeded totalXDMNeeded w)
    as [[[[needed' xdmNeeded] xdmAvailable] chosenXDM] | code message] eqn:Hxdm.
  - apply GroupSend_XDM_spec in Hxdm as (Hneeded & _). rewrite <- Hneeded in Hshort.
    rewrite FilterCoinsWith_sendFilter. apply Z.ltb_lt in Hshort. rewrite Hshort.
    by eexists.
  - unfold GroupSend_XDM in Hxdm. cbv zeta in Hxdm.
    destruct (MatchesDarkMatter grpID); [discriminate |].
    destruct (totalXDMNeeded >? 0); [| discriminate].
    destruct (FilterCoinsWith w (sendFilter DarkMatterID) 0) as [total' coins].
    destruct (total' <? totalXDMNeeded).
    + injection Hxdm as <- <-. by eexists.
    + destruct (GroupCoinSelection coins totalXDMNeeded []). discriminate.
Qed.

End SendRefusals.

Lemma send_beyond_holdings_witness :
  exists message,
    @GroupSend exEnv (fun _ => false) exGroup32 [] 13 0 exWallet
    = Throw RPC_WALLET_INSUFFICIENT_FUNDS message.
Proof.
  apply (@send_beyond_holdings exEnv (fun _ => false)). vm_compute. reflexivity.
Defined.

(** ** Group, address and amount parameters *)

Section GroupAddrValueProperties.
Context `{Env : TokenGroupEnv}.
Variable GetTokenGroup_str : string -> CTokenGroupID.
Variable DecodeDestination : string -> CTxDestination.
Variable AmountFromTokenValue : UniValue -> CTokenGroupID -> Result Z.

Lemma ParseGroupAddrValue_loop_spec grpID grouped : forall bound rest outputs totalValue
    curparam curparam' outputs' totalValue',
  (length rest <= bound)%nat ->
  ParseGroupAddrValue_loop DecodeDestination AmountFromTokenValue grpID grouped rest
    outputs totalValue curparam = Ok (curparam', outputs', totalValue') ->
  exists pays : list (CTxDestination * Z),
    Forall (fun pay => pay.1 <> CNoDestination /\ 0 < pay.2) pays
    /\ outputs' = outputs ++ map (fun pay => recipientFor grouped grpID pay.1 pay.2) pays
    /\ totalValue' = fold_left add64 (map snd pays) totalValue
    /\ curparam' = (curparam + 2 * length pays)%nat
    /\ (length rest <= 2 * length pays + 1)%nat
    /\ (2 * length pays <= length rest)%nat
    /\ forall i pay, pays !! i = Some pay ->
         exists addr value, rest !! (2 * i)%nat = Some addr
                            /\ rest !! (2 * i + 1)%nat = Some value
                            /\ exists s, addr = VSTR s /\ DecodeDestination s = pay.1
                                         /\ AmountFromTokenValue value grpID = Ok pay.2.
Proof.
  induction bound as [| bound IH]; intros rest outputs totalValue curparam curparam'
    outputs' totalValue' Hlen.
  - destruct rest; [| simpl in Hlen; lia]. simpl. intros [= <- <- <-].
    exists []. simpl. rewrite app_nil_r, Nat.add_0_r.
    repeat (split; [done || lia |]). intros i pay Hi. by rewrite lookup_nil in Hi.
  - destruct rest as [| addr [| value rest']].
    + simpl. intros [= <- <- <-]. exists []. simpl. rewrite app_nil_r, Nat.add_0_r.
      repeat (split; [done || lia |]). intros i pay Hi. by rewrite lookup_nil in Hi.
    + simpl. intros [= <- <- <-]. exists []. simpl. rewrite app_nil_r, Nat.add_0_r.
      repeat (split; [done || lia |]). intros i pay Hi. by rewrite lookup_nil in Hi.
    + simpl. unfold mbind, Result_bind.
      destruct addr as [i | | s |]; simpl; try discriminate.
      destruct (DecodeDestination s) as [| h | h] eqn:Hdst; [discriminate | |].
      all: destruct (AmountFromTokenValue value grpID) as [amount |] eqn:Hamt;
        [| discriminate].
      all: destruct (amount <=? 0) eqn:Hle; [discriminate |]; apply Z.leb_gt in Hle.
      all: intros Hrun; apply IH in Hrun; [| simpl in Hlen; lia].
      all: destruct Hrun as (pays & Hall & Hout & Htot & Hcur & Hlen1 & Hlen2 & Hread).
      all: match type of Hdst with _ = ?d => exists ((d, amount) :: pays) end.
      all: split; [apply Forall_cons; split; [split; [discriminate | exact Hle] | exact Hall] |].
      all: split; [rewrite Hout, <- app_assoc; reflexivity |].
      all: split; [exact Htot |].
      all: split; [simpl; lia |].
      all: split; [simpl in *; lia |].
      all: split; [simpl in *; lia |].
      all: intros [| i] pay Hi; simpl in Hi.
      all: try (injection Hi as <-; exists (VSTR s), value;
                split; [reflexivity |]; split; [reflexivity |];
                exists s; by repeat split).
      all: apply Hread in Hi as (addr' & value' & Ha & Hv & Hr);
        exists addr', value'.
      all: split; [| split; [| exact Hr]].
      all: first
        [ match goal with
          | |- _ !! ?k = _ => replace k with (S (S (2 * i))) by lia
          end; exact Ha
        | match goal with
          | |- _ !! ?k = _ => replace k with (S (S (2 * i + 1))) by lia
          end; exact Hv ].
Qed.

(** X17.  What [ParseGroupAddrValue] hands back.  The group is a user
    group, named by the parameter at [curparam].  The parameters after it
    are read two by two, an address and an amount, up to the last complete
    pair: at most one parameter is left unread.  Every pair gives one
    recipient, appended to the outputs in the order of the command line,
    with a destination that is not the empty one and an amount above zero;
    a grouped recipient carries [GROUPED_SATOSHI_AMT] and the amount in its
    script.  The total is the sum, in 64-bit arithmetic, of the amounts. *)
Theorem parsed_payments params curparam outputs0 grouped curparam' grpID outputs totalValue :
  ParseGroupAddrValue GetTokenGroup_str DecodeDestination AmountFromTokenValue
    params curparam outputs0 grouped = Ok (curparam', grpID, outputs, totalValue) ->
  isUserGroup grpID = true
  /\ (exists s, params !! curparam = Some (VSTR s) /\ grpID = GetTokenGroup_str s)
  /\ exists pays : list (CTxDestination * Z),
       Forall (fun pay => pay.1 <> CNoDestination /\ 0 < pay.2) pays
       /\ outputs = outputs0 ++ map (fun pay => recipientFor grouped grpID pay.1 pay.2) pays
       /\ totalValue = fold_left add64 (map snd pays) 0
       /\ curparam' = (curparam + 1 + 2 * length pays)%nat
       /\ (curparam' <= length params <= curparam' + 1)%nat
       /\ forall i pay, pays !! i = Some pay ->
            exists s value,
              params !! (curparam + 1 + 2 * i)%nat = Some (VSTR s)
              /\ params !! (curparam + 2 + 2 * i)%nat = Some value
              /\ DecodeDestination s = pay.1
              /\ AmountFromTokenValue value grpID = Ok pay.2.
Proof.
  unfold ParseGroupAddrValue, get_str. unfold mbind at 1, Result_bind at 1.
  destruct (params !! curparam) as [[i | | s |] |] eqn:Hgrp; try discriminate.
  destruct (isUserGroup (GetTokenGroup_str s)) eqn:Huser; simpl; [| discriminate].
  unfold mbind, Result_bind.
  destruct (ParseGroupAddrValue_loop _ _ _ _ _ _ _ _) as [[[cur outs] tot] |] eqn:Hloop;
    [| discriminate].
  intros [= <- <- <- <-].
  apply (ParseGroupAddrValue_loop_spec _ _ (length (drop (S curparam) params))) in Hloop
    as (pays & Hall & Hout & Htot & Hcur & Hlen1 & Hlen2 & Hread); [| done].
  split; [done |]. split; [by exists s |].
  exists pays. rewrite length_drop in Hlen1, Hlen2.
  apply lookup_lt_Some in Hgrp as Hlt.
  split; [done |]. split; [done |]. split; [done |]. split; [lia |]. split; [lia |].
  intros i pay Hi. apply Hread in Hi as (addr & value & Ha & Hv & s' & -> & Hd & Hamt).
  rewrite lookup_drop in Ha, Hv.
  exists s', value. split; [| split; [| done]].
  - rewrite <- Ha. f_equal. lia.
  - rewrite <- Hv. f_equal. lia.
Qed.

End GroupAddrValueProperties.

Lemma parsed_payments_witness :
  exists pays : list (CTxDestination * Z),
    @ParseGroupAddrValue exEnv exGetTokenGroup exDecodeDestination exAmountFromTokenValue
      exSendParams 1 [] true
    = Ok (4%nat, exGroup32,
          map (fun pay => @recipientFor exEnv true exGroup32 pay.1 pay.2) pays,
          fold_left add64 (map snd pays) 0)
    /\ Forall (fun pay => pay.1 <> CNoDestination /\ 0 < pay.2) pays.
Proof.
  destruct (@ParseGroupAddrValue exEnv exGetTokenGroup exDecodeDestination
              exAmountFromTokenValue exSendParams 1 [] true)
    as [[[[cur g] outs] tot] | code message] eqn:Hrun;
    [| vm_compute in Hrun; discriminate Hrun].
  destruct (@parsed_payments exEnv exGetTokenGroup exDecodeDestination
              exAmountFromTokenValue _ _ _ _ _ _ _ _ Hrun)
    as (_ & _ & pays & Hall & Hout & Htot & Hcur & _ & _).
  exists pays. split; [| exact Hall].
  rewrite Hout, Htot. simpl.
  pose proof Hrun as Hrun'. vm_compute in Hrun'. injection Hrun' as Hc Hg _ _.
  rewrite <- Hg, <- Hc. reflexivity.
Defined.

(** ** Creating an authority *)

Section CreateAuthorityProperties.
Context `{Env : TokenGroupEnv}.
Variable GetTokenGroup_str : string -> CTokenGroupID.
Variable DecodeDestination : string -> CTxDestination.
Variable ALL : Z.



End CreateAuthorityProperties.


(** ** The input of a new group *)

Section NewGroupProperties.
Variable MaxMoneyOut : Z.

(** The state of the filter of [token new] after a run of coins. *)
Lemma newCoinFilter_scan (l : list COutput) :
  let '(lowest, coins) :=
    fold_left (fun '(s, coins) coin =>
                 let '(s', keep) := newCoinFilter s coin in
                 (s', if keep then coins ++ [coin] else coins)) l (MaxMoneyOut, []) in
  match last coins with
  | None =>
      coins = [] /\ lowest = MaxMoneyOut
      /\ Forall (fun c => associatedGroup (groupInfo c) = NoGroup ->
                          MaxMoneyOut <= GetValue c) l
  | Some coin =>
      exists before after,
        l = before ++ coin :: after
        /\ associatedGroup (groupInfo coin) = NoGroup
        /\ GetValue coin = lowest /\ lowest < MaxMoneyOut
        /\ Forall (fun c => associatedGroup (groupInfo c) = NoGroup ->
                            GetValue coin < GetValue c) before
        /\ Forall (fun c => associatedGroup (groupInfo c) = NoGroup ->
                            GetValue coin <= GetValue c) after
  end.
Proof.
  induction l as [| c l IH] using rev_ind; simpl.
  - repeat split. constructor.
  - rewrite fold_left_app. simpl.
    destruct (fold_left _ l (MaxMoneyOut, [])) as [lowest coins].
    unfold newCoinFilter. fold (GetValue c).
    destruct (bool_decide (associatedGroup (groupInfo c) = NoGroup)
              && (GetValue c <? lowest)) eqn:Hcond.
    + apply andb_true_iff in Hcond as [Hg Hlt].
      apply bool_decide_eq_true in Hg. apply Z.ltb_lt in Hlt.
      rewrite last_snoc. exists l, []. split; [done |]. split; [done |]. split; [done |].
      destruct (last coins) as [coin |].
      * destruct IH as (before & after & -> & Hgc & Hval & Hmax & Hbefore & Hafter).
        split; [lia |]. split; [| constructor].
        apply Forall_app. split.
        -- eapply Forall_impl; [exact Hbefore |]. simpl. intros c' Hc' Hg'.
           specialize (Hc' Hg'). lia.
        -- apply Forall_cons. split; [intros _; lia |].
           eapply Forall_impl; [exact Hafter |]. simpl. intros c' Hc' Hg'.
           specialize (Hc' Hg'). lia.
      * destruct IH as (_ & -> & Hall). split; [done |]. split; [| constructor].
        eapply Forall_impl; [exact Hall |]. simpl. intros c' Hc' Hg'.
        specialize (Hc' Hg'). lia.
    + destruct (last coins) as [coin |].
      * destruct IH as (before & after & -> & Hgc & Hval & Hmax & Hbefore & Hafter).
        exists before, (after ++ [c]). rewrite <- app_assoc. split; [done |].
        repeat (split; [done |]).
        apply Forall_app. split; [done |]. apply Forall_singleton. intros Hg.
        apply andb_false_iff in Hcond as [Hng | Hge].
        -- apply bool_decide_eq_false in Hng. done.
        -- apply Z.ltb_ge in Hge. lia.
      * destruct IH as (-> & -> & Hall). repeat (split; [done |]).
        apply Forall_app. split; [done |]. apply Forall_singleton. intros Hg.
        apply andb_false_iff in Hcond as [Hng | Hge].
        -- apply bool_decide_eq_false in Hng. done.
        -- by apply Z.ltb_ge in Hge.
Qed.

(** X19.  [token new] spends the cheapest ungrouped coin of the wallet:
    the coin it picks carries no group, is worth less than the money
    supply limit, is worth no more than any other ungrouped coin, and is
    the first coin of that value in wallet order.  It gives up with the
    invalid-parameters error exactly when no ungrouped coin is worth less
    than that limit. *)
Theorem new_spends_cheapest_coin (w : CWallet) :
  match new_coin MaxMoneyOut w with
  | Ok coin =>
      exists before after,
        walletCoins w = before ++ coin :: after
        /\ associatedGroup (groupInfo coin) = NoGroup
        /\ GetValue coin < MaxMoneyOut
        /\ Forall (fun c => associatedGroup (groupInfo c) = NoGroup ->
                            GetValue coin < GetValue c) before
        /\ Forall (fun c => associatedGroup (groupInfo c) = NoGroup ->
                            GetValue coin <= GetValue c) after
  | Throw code message =>
      code = RPC_INVALID_PARAMS
      /\ Forall (fun c => associatedGroup (groupInfo c) = NoGroup ->
                          MaxMoneyOut <= GetValue c) (walletCoins w)
  end.
Proof.
  unfold new_coin, FilterCoinsWith. cbv zeta.
  pose proof (newCoinFilter_scan (walletCoins w)) as H.
  destruct (fold_left _ (walletCoins w) (MaxMoneyOut, [])) as [lowest coins].
  rewrite last_lookup in H.
  replace (Nat.pred (length coins)) with (length coins - 1)%nat in H by lia.
  destruct (coins !! (length coins - 1)%nat) as [coin |] eqn:Hlast.
  - apply lookup_lt_Some in Hlast as Hlen.
    destruct (0 =? length coins)%nat eqn:Hz; [apply Nat.eqb_eq in Hz; lia |].
    simpl. destruct H as (before & after & Heq & Hg & Hval & Hmax & Hb & Ha).
    exists before, after. repeat (split; [done || lia |]). done.
  - destruct H as (-> & _ & Hall). simpl. done.
Qed.

End NewGroupProperties.

(** ** Searching for a group identifier *)

Section FindGroupIdProperties.
Context `{Env : TokenGroupEnv}.
Variable GetHash : list HashItem -> CTokenGroupID.

Lemma nextNonce_masked nonce : Z.land (nextNonce nonce) ALL_BITS = 0.
Proof.
  unfold nextNonce, flags_not, to_uint64. apply Z.bits_inj'. intros i Hi.
  rewrite !Z.land_spec, Z.bits_0, Z.lnot_spec by done.
  destruct (Z.testbit ALL_BITS i); [| by rewrite andb_false_r].
  simpl. by rewrite andb_false_r.
Qed.

Lemma nextNonce_range nonce : 0 <= nextNonce nonce < 2 ^ 64.
Proof.
  unfold nextNonce, flags_not. rewrite Z.land_assoc, Z.land_ones by lia.
  apply Z.mod_pos_bound. lia.
Qed.

(** X20.  [findGroupId] returns the first identifier, in the order of the
    nonces tried, whose last byte is the flag byte asked for: it returns
    within [fuel] rounds exactly when one of the first [fuel] nonces gives
    such an identifier, and then returns the identifier of the first such
    nonce together with that nonce.  The nonces tried are obtained from
    the nonce handed in by repeatedly adding one and clearing the bits of
    [ALL_BITS], so the nonce returned is a 64-bit word without any bit of
    [ALL_BITS]. *)
Theorem findGroupId_first_hit fuel input opRetTokDesc flags nonce ret nonce' :
  (findGroupId GetHash fuel input opRetTokDesc flags nonce = Some (ret, nonce')
   <-> exists k, (k < fuel)%nat
         /\ nonce' = Nat.iter (S k) nextNonce nonce
         /\ ret = groupIdCandidate GetHash input opRetTokDesc nonce'
         /\ ret !! 31%nat = Some flags
         /\ forall j, (j < k)%nat ->
              groupIdCandidate GetHash input opRetTokDesc (Nat.iter (S j) nextNonce nonce)
                !! 31%nat <> Some flags)
  /\ (findGroupId GetHash fuel input opRetTokDesc flags nonce = Some (ret, nonce') ->
      Z.land nonce' ALL_BITS = 0 /\ 0 <= nonce' < 2 ^ 64).
Proof.
  assert (Hiff : forall fuel nonce,
    findGroupId GetHash fuel input opRetTokDesc flags nonce = Some (ret, nonce')
    <-> exists k, (k < fuel)%nat
          /\ nonce' = Nat.iter (S k) nextNonce nonce
          /\ ret = groupIdCandidate GetHash input opRetTokDesc nonce'
          /\ ret !! 31%nat = Some flags
          /\ forall j, (j < k)%nat ->
               groupIdCandidate GetHash input opRetTokDesc (Nat.iter (S j) nextNonce nonce)
                 !! 31%nat <> Some flags).
  { assert (Hit : forall m x,
              Nat.iter (S m) nextNonce (nextNonce x) = Nat.iter (S (S m)) nextNonce x).
    { intros m x. symmetry. apply Nat.iter_succ_r. }
    clear fuel nonce. induction fuel as [| fuel IH]; intros nonce; cbn [findGroupId].
    - split; [discriminate |]. intros (k & Hk & _). lia.
    - cbv zeta.
      destruct (bool_decide
                  (groupIdCandidate GetHash input opRetTokDesc (nextNonce nonce) !! 31%nat
                   <> Some flags)) eqn:Hmiss.
      + apply bool_decide_eq_true in Hmiss. rewrite IH. split.
        * intros (k & Hk & Hn & Hr & Hhit & Hfirst). exists (S k).
          split; [lia |]. rewrite Hit in Hn.
          split; [done |]. split; [done |]. split; [done |].
          intros [| j] Hj; [done |]. specialize (Hfirst j ltac:(lia)).
          by rewrite Hit in Hfirst.
        * intros (k & Hk & Hn & Hr & Hhit & Hfirst). destruct k as [| k].
          { cbn [Nat.iter nat_rect] in Hn. subst nonce' ret. done. }
          exists k. split; [lia |]. rewrite Hit.
          split; [done |]. split; [done |]. split; [done |].
          intros j Hj. specialize (Hfirst (S j) ltac:(lia)).
          by rewrite Hit.
      + apply bool_decide_eq_false in Hmiss. apply dec_stable in Hmiss. split.
        * intros [= <- <-]. exists 0%nat. split; [lia |].
          repeat (split; [done |]). intros j Hj. lia.
        * intros (k & Hk & Hn & Hr & Hhit & Hfirst). destruct k as [| k].
          { cbn [Nat.iter nat_rect] in Hn. by subst nonce' ret. }
          specialize (Hfirst 0%nat ltac:(lia)). done. }
  split; [apply Hiff |].
  intros Hrun. apply Hiff in Hrun as (k & _ & -> & _). cbn [Nat.iter nat_rect].
  split; [apply nextNonce_masked | apply nextNonce_range].
Qed.

End FindGroupIdProperties.

(** With the sample hash, whose last byte is the nonce modulo 4, the
    search for the flag byte 3 from nonce 0 stops in the third round. *)
Example findGroupId_exGetHash :
  @findGroupId exEnv exGetHash 10 {| hash := 1; n := 0 |} [] x03 0
  = Some (le_bytes 32 (3 * 2 ^ 248), 3).
Proof. vm_compute. reflexivity. Qed.

(** ** Token description parameters *)

Lemma get_str_Ok params i s : get_str params i = Ok s -> params !! i = Some (VSTR s).
Proof.
  unfold get_str. destruct (params !! i) as [[z | | s' |] |]; try discriminate.
  by intros [= ->].
Qed.

Section GroupDescParamsProperties.
Variable ParseInt32 : string -> option Z.
Variable SetHex : string -> list byte.

(** X21.  [ParseGroupDescParams] returns five fields or throws.  The
    first two are the ticker, of at most eight characters, and the name.
    With nothing after the name the other three are empty.  Otherwise the
    third is a single byte, the decimal position, between 0 and 16; with
    nothing after it the last two are empty; otherwise the fourth is a URL
    that contains a colon and the fifth is the document hash, which must
    be there.  [curparam] is left at the last parameter read when all five
    are given, and behind the last one otherwise. *)
Theorem description_fields params curparam ret cp :
  ParseGroupDescParams ParseInt32 SetHex params curparam = Ok (ret, cp) ->
  exists ticker name,
    params !! curparam = Some (VSTR ticker)
    /\ (String.length ticker <= 8)%nat
    /\ params !! (curparam + 1)%nat = Some (VSTR name)
    /\ ((length params = curparam + 2
         /\ ret = [list_byte_of_string ticker; list_byte_of_string name; []; []; []]
         /\ cp = curparam + 2)%nat
        \/ exists s d,
             params !! (curparam + 2)%nat = Some (VSTR s)
             /\ ParseInt32 s = Some d /\ 0 <= d <= 16
             /\ ((length params = curparam + 3
                  /\ ret = [list_byte_of_string ticker; list_byte_of_string name;
                            [byte_of_Z d]; []; []]
                  /\ cp = curparam + 3)%nat
                 \/ exists url hexDocHash,
                      params !! (curparam + 3)%nat = Some (VSTR url)
                      /\ has_colon url = true
                      /\ params !! (curparam + 4)%nat = Some (VSTR hexDocHash)
                      /\ ret = [list_byte_of_string ticker; list_byte_of_string name;
                                [byte_of_Z d]; list_byte_of_string url; SetHex hexDocHash]
                      /\ cp = (curparam + 4)%nat)).
Proof.
  unfold ParseGroupDescParams. cbv zeta. unfold mbind, Result_bind.
  destruct (get_str params curparam) as [ticker |] eqn:Ht; [| discriminate].
  apply get_str_Ok in Ht.
  destruct (8 <? String.length ticker)%nat eqn:Hlen; [discriminate |].
  apply Nat.ltb_ge in Hlen.
  destruct (length params <=? S curparam)%nat eqn:H1; [discriminate |].
  destruct (get_str params (S curparam)) as [name |] eqn:Hn; [| discriminate].
  apply get_str_Ok in Hn.
  replace (S curparam) with (curparam + 1)%nat in Hn by lia.
  apply Nat.leb_gt in H1.
  destruct (length params <=? S (S curparam))%nat eqn:H2.
  { apply Nat.leb_le in H2. intros [= <- <-]. exists ticker, name.
    repeat (split; [done |]). left. split; [lia |]. split; [done | lia]. }
  apply Nat.leb_gt in H2.
  destruct (get_str params (S (S curparam))) as [s |] eqn:Hs; [| discriminate].
  apply get_str_Ok in Hs.
  replace (S (S curparam)) with (curparam + 2)%nat in Hs by lia.
  destruct (ParseInt32 s) as [d |] eqn:Hd; [| discriminate].
  destruct ((d >? 16) || (d <? 0)) eqn:Hrange; [discriminate |].
  apply orb_false_iff in Hrange as [Hhi Hlo].
  rewrite Z.gtb_ltb in Hhi. apply Z.ltb_ge in Hhi, Hlo.
  destruct (length params <=? S (S (S curparam)))%nat eqn:H3.
  { apply Nat.leb_le in H3. intros [= <- <-]. exists ticker, name.
    repeat (split; [done |]). right. exists s, d.
    repeat (split; [done || lia |]). left. split; [lia |]. split; [done | lia]. }
  apply Nat.leb_gt in H3.
  destruct (get_str params (S (S (S curparam)))) as [url |] eqn:Hu; [| discriminate].
  apply get_str_Ok in Hu.
  replace (S (S (S curparam))) with (curparam + 3)%nat in Hu by lia.
  destruct (has_colon url) eqn:Hcolon; simpl; [| discriminate].
  destruct (length params <=? S (S (S (S curparam))))%nat eqn:H4; [discriminate |].
  destruct (get_str params (S (S (S (S curparam))))) as [h |] eqn:Hh; [| discriminate].
  apply get_str_Ok in Hh.
  replace (S (S (S (S curparam)))) with (curparam + 4)%nat in Hh by lia.
  intros [= <- <-]. exists ticker, name.
  repeat (split; [done |]). right. exists s, d.
  repeat (split; [done || lia |]). right. exists url, h.
  repeat (split; [done |]). lia.
Qed.

End GroupDescParamsProperties.

Lemma description_fields_witness :
  exists ret cp,
    ParseGroupDescParams exParseInt32 (fun _ => [x00; xff]) exDescParams 1 = Ok (ret, cp)
    /\ exists ticker name,
         exDescParams !! 1%nat = Some (VSTR ticker)
         /\ (String.length ticker <= 8)%nat
         /\ exDescParams !! 2%nat = Some (VSTR name).
Proof.
  destruct (ParseGroupDescParams exParseInt32 (fun _ => [x00; xff]) exDescParams 1)
    as [[ret cp] | code message] eqn:Hrun; [| vm_compute in Hrun; discriminate Hrun].
  exists ret, cp. split; [reflexivity |].
  destruct (description_fields _ _ _ _ _ _ Hrun) as (ticker & name & H1 & H2 & H3 & _).
  exists ticker, name. split; [exact H1 |]. split; [exact H2 | exact H3].
Defined.

(** ** Dropping capabilities step by step *)

Section DropComposition.
Context `{Env : TokenGroupEnv}.

Lemma controllingGroupFlags_range tg : 0 <= controllingGroupFlags tg < 2 ^ 64.
Proof.
  unfold controllingGroupFlags, to_uint64, NONE.
  destruct (isAuthority tg); [apply Z.mod_pos_bound |]; lia.
Qed.

Lemma authoritiesToKeep_range tg drop : 0 <= authoritiesToKeep tg drop < 2 ^ 64.
Proof.
  unfold authoritiesToKeep, flags_and, flags_not.
  rewrite Z.land_assoc, Z.land_ones by lia. apply Z.mod_pos_bound. lia.
Qed.

(** X22.  Dropping capabilities never adds one, and composes.  The flags
    kept are contained in the flags of the coin and hold none of the
    dropped bits; and dropping [drop2] from the replacement authority,
    whose amount field carries the flags kept after dropping [drop1], keeps
    what dropping both at once from the first coin keeps. *)
Theorem drop_never_adds (tg : CTokenGroupInfo) (g : CTokenGroupID) (drop1 drop2 : Z) :
  let keep := authoritiesToKeep tg drop1 in
  let replacement :=
    {| associatedGroup := g; isAuthority := true; quantity := to_CAmount keep |} in
  hasCapability (controllingGroupFlags tg) keep = true
  /\ (forall i, 0 <= i < 64 -> Z.testbit drop1 i = true -> Z.testbit keep i = false)
  /\ controllingGroupFlags replacement = keep
  /\ authoritiesToKeep replacement drop2 = authoritiesToKeep tg (flags_or drop1 drop2).
Proof.
  cbv zeta.
  assert (Hback : controllingGroupFlags
                    {| associatedGroup := g; isAuthority := true;
                       quantity := to_CAmount (authoritiesToKeep tg drop1) |}
                  = authoritiesToKeep tg drop1).
  { unfold controllingGroupFlags. simpl.
    apply to_uint64_to_CAmount, authoritiesToKeep_range. }
  split; [| split; [| split; [exact Hback |]]].
  - unfold hasCapability, authoritiesToKeep, flags_and. apply Z.eqb_eq.
    apply Z.bits_inj'. intros i Hi. rewrite !Z.land_spec.
    destruct (Z.testbit (controllingGroupFlags tg) i),
      (Z.testbit (flags_not drop1) i); reflexivity.
  - intros i Hi Hd. unfold authoritiesToKeep, flags_and, flags_not.
    rewrite !Z.land_spec, Z.lnot_spec, Hd by lia. simpl.
    destruct (Z.testbit (controllingGroupFlags tg) i); reflexivity.
  - unfold authoritiesToKeep at 1. rewrite Hback.
    unfold authoritiesToKeep, flags_and, flags_not, flags_or.
    apply Z.bits_inj'. intros i Hi.
    rewrite !Z.land_spec, !Z.lnot_spec, Z.lor_spec by done.
    destruct (Z.testbit (controllingGroupFlags tg) i), (Z.testbit drop1 i),
      (Z.testbit drop2 i), (Z.testbit (Z.ones 64) i); reflexivity.
Qed.

End DropComposition.

(** ** Edges of the greedy selections *)

(** X23.  Offered no coin, the selections return a total of zero and
    leave the chosen coins as they were.  Offered at least one coin, they
    always take the first one, whatever the target; a target that the
    first coin meets, in particular a target of zero or less met by a
    non-negative coin, selects that coin alone. *)
Theorem selection_edges (coin : COutput) (rest chosenCoins : list COutput) (amt : Z) :
  (CoinSelection [] amt chosenCoins = (0, chosenCoins)
   /\ GroupCoinSelection [] amt chosenCoins = (0, chosenCoins))
  /\ ((chosenCoins ++ [coin]) `prefix_of` (CoinSelection (coin :: rest) amt chosenCoins).2
      /\ (chosenCoins ++ [coin])
           `prefix_of` (GroupCoinSelection (coin :: rest) amt chosenCoins).2)
  /\ (in_int64 (GetValue coin) -> amt <= GetValue coin ->
      CoinSelection (coin :: rest) amt chosenCoins = (GetValue coin, chosenCoins ++ [coin]))
  /\ (in_int64 (tokenQuantity coin) -> amt <= tokenQuantity coin ->
      GroupCoinSelection (coin :: rest) amt chosenCoins
      = (tokenQuantity coin, chosenCoins ++ [coin])).
Proof.
  assert (Hfirst : forall value,
            (chosenCoins ++ [coin])
              `prefix_of` (selection_loop value (coin :: rest) amt 0 chosenCoins).2).
  { intros value. simpl. destruct (add64 0 (value coin) >=? amt); simpl; [done |].
    rewrite selection_loop_frame. simpl. by apply prefix_app_r. }
  assert (Hone : forall value, in_int64 (value coin) -> amt <= value coin ->
            selection_loop value (coin :: rest) amt 0 chosenCoins
            = (value coin, chosenCoins ++ [coin])).
  { intros value Hrange Hle. cbn [selection_loop].
    assert (Hadd : add64 0 (value coin) = value coin).
    { unfold add64. rewrite Z.add_0_l. by apply wrap64_id. }
    rewrite Hadd.
    destruct (value coin >=? amt) eqn:Hge; [reflexivity |].
    rewrite Z.geb_leb in Hge. apply Z.leb_gt in Hge. lia. }
  split; [split; reflexivity |]. split; [split; apply Hfirst |].
  split; [apply Hone | apply (Hone tokenQuantity)].
Qed.

Lemma selection_edges_witness :
  CoinSelection (exPlain 4 100000 :: exPool) (-1) [] = (100000, [exPlain 4 100000])
  /\ GroupCoinSelection exPool 0 [] = (3, [exCoin 11 5 exGroup20 false 3]).
Proof.
  split.
  - apply (selection_edges (exPlain 4 100000) exPool [] (-1)); vm_compute; [split |];
      discriminate.
  - apply (selection_edges (exCoin 11 5 exGroup20 false 3)
             [exCoin 12 7 exGroup20 false 4; exCoin 13 9 exGroup20 false 5] [] 0);
      vm_compute; [split |]; discriminate.
Defined.

(** ** The capabilities to drop *)

Section DropFlagsProperties.
Context `{Env : TokenGroupEnv}.
Variable ALL : Z.

Lemma applyDropFlag_spec sflag flags :
  applyDropFlag ALL sflag flags
  = if isDropFlagName sflag then Some (flags_or flags (dropFlagNamed ALL sflag)) else None.
Proof.
  unfold applyDropFlag, isDropFlagName, dropFlagNamed. simpl.
  repeat match goal with
         | |- context [String.eqb sflag ?s] => destruct (String.eqb sflag s); simpl; try done
         end.
Qed.

Lemma dropauthorities_loop_named names : forall flags c,
  names <> [] ->
  Forall (fun s => isDropFlagName (lowercase s) = true) names ->
  dropauthorities_loop ALL (VSTR <$> names) flags c
  = Ok (unionOfNamed (dropFlagNamed ALL) names flags, (c + length names)%nat).
Proof.
  induction names as [| s names IH]; intros flags c Hne Hall; [done |].
  apply Forall_cons in Hall as [Hs Hall]. cbn [fmap list_fmap dropauthorities_loop].
  rewrite applyDropFlag_spec, Hs.
  destruct names as [| s' names].
  - simpl. do 2 f_equal. lia.
  - change (VSTR s' :: list_fmap _ _ VSTR names) with (VSTR <$> (s' :: names)).
    cbn [fmap list_fmap]. 
    change (VSTR s' :: list_fmap _ _ VSTR names) with (VSTR <$> (s' :: names)).
    rewrite IH by done. simpl. do 2 f_equal. lia.
Qed.

Lemma dropauthorities_loop_spec rest : forall flags c flags' c',
  dropauthorities_loop ALL rest flags c = Ok (flags', c') ->
  exists names tail,
    rest = (VSTR <$> names) ++ tail
    /\ c' = (c + length names)%nat
    /\ Forall (fun s => isDropFlagName (lowercase s) = true) names
    /\ flags' = unionOfNamed (dropFlagNamed ALL) names flags
    /\ (tail = [] /\ names <> [] \/ exists s tl, tail = VSTR s :: tl).
Proof.
  induction rest as [| v rest IH]; intros flags c flags' c' Hrun; [discriminate |].
  destruct v as [i | | p |]; try discriminate. cbn [dropauthorities_loop] in Hrun.
  rewrite applyDropFlag_spec in Hrun.
  destruct (isDropFlagName (lowercase p)) eqn:Hp.
  - destruct rest as [| v' rest].
    + injection Hrun as <- <-. exists [p], []. simpl.
      split; [done |]. split; [lia |]. split; [by apply Forall_singleton |].
      split; [done |]. by left.
    + apply IH in Hrun as (names & tail & Hrest & Hc & Hall & Hflags & Htail).
      exists (p :: names), tail. simpl. rewrite Hrest.
      split; [done |]. split; [lia |]. split; [by apply Forall_cons |].
      split; [done |]. destruct Htail as [[-> _] | Htail]; [by left | by right].
  - injection Hrun as <- <-. exists [], (VSTR p :: rest). simpl.
    split; [done |]. split; [lia |]. split; [constructor |]. split; [done |].
    right. by eexists _, _.
Qed.

(** X24.  [token dropauthorities] accepts the capabilities to drop
    exactly when there is at least one parameter left and every one of
    them is a string that names, in any mix of upper and lower case, one
    of mint, melt, child, rescript, subgroup and all; the flags to drop
    are then the union of the capabilities named, starting from none. *)
Theorem dropauthorities_flags_accepts (params : list UniValue) (curparam : nat) (flags : Z) :
  dropauthorities_flags ALL params curparam = Ok flags
  <-> exists names,
        names <> []
        /\ drop curparam params = VSTR <$> names
        /\ Forall (fun s => isDropFlagName (lowercase s) = true) names
        /\ flags = unionOfNamed (dropFlagNamed ALL) names NONE.
Proof.
  unfold dropauthorities_flags. cbv zeta. split.
  - destruct (curparam <? length params)%nat eqn:Hlen; [| discriminate].
    apply Nat.ltb_lt in Hlen. unfold mbind, Result_bind.
    destruct (dropauthorities_loop ALL (drop curparam params) NONE curparam)
      as [[flags' c'] |] eqn:Hloop; [| discriminate].
    apply dropauthorities_loop_spec in Hloop
      as (names & tail & Hrest & Hc & Hall & Hflags & Htail).
    destruct (c' <? length params)%nat eqn:Hc'.
    { destruct (get_str params c'); discriminate. }
    apply Nat.ltb_ge in Hc'. intros [= <-].
    assert (Hl : length (drop curparam params) = (length names + length tail)%nat).
    { by rewrite Hrest, length_app, length_fmap. }
    rewrite length_drop in Hl.
    assert (Ht : tail = []) by (apply nil_length_inv; lia). subst tail.
    rewrite app_nil_r in Hrest. exists names.
    split; [| done]. intros ->. simpl in Hl. lia.
  - intros (names & Hne & Hdrop & Hall & ->).
    assert (Hl : length (drop curparam params) = length names).
    { by rewrite Hdrop, length_fmap. }
    rewrite length_drop in Hl.
    assert (0 < length names)%nat by (destruct names; [done | simpl; lia]).
    assert (Hlen : (curparam <? length params)%nat = true) by (apply Nat.ltb_lt; lia).
    rewrite Hlen, Hdrop, dropauthorities_loop_named by done.
    unfold mbind, Result_bind.
    assert (Hend : (curparam + length names <? length params)%nat = false)
      by (apply Nat.ltb_ge; lia).
    by rewrite Hend.
Qed.

End DropFlagsProperties.

(** Dropping [Melt] and [MINT] on the command line. *)
Example dropauthorities_flags_example :
  @dropauthorities_flags exEnv exALL
    [VSTR "dropauthorities"; VSTR "group"; VSTR "txid"; VSTR "0"; VSTR "Melt"; VSTR "MINT"] 4
  = Ok (Z.lor (@MELT exEnv) (@MINT exEnv)).
Proof. vm_compute. reflexivity. Qed.

(** ** What a melt destroys *)

Section MeltDestroys.
Context `{Env : TokenGroupEnv}.

(** The renewal step from a fresh reservation: the output it adds and the
    key pool it leaves. *)
Lemma RenewAuthority_fresh authority pool renewNeeded outputs rk pool' :
  RenewAuthority authority [] None pool = (renewNeeded, outputs, rk, pool') ->
  map txoutOfRecipient outputs
  = (if allowsRenew (groupInfo authority)
     then [groupedOutput (default [] (pool !! 0%nat))
             (associatedGroup (groupInfo authority))
             (to_CAmount (flags_and (controllingGroupFlags (groupInfo authority))
                                    ALL_BITS))]
     else [])
  /\ pool' = (if allowsRenew (groupInfo authority) then drop 1 pool else pool).
Proof.
  unfold RenewAuthority. destruct (allowsRenew (groupInfo authority)).
  - destruct pool as [| k pool]; simpl; intros [= <- <- <- <-]; by split.
  - intros [= <- <- <- <-]. by split.
Qed.

(** C1, as amended.  Take a wallet whose token quantities are
    non-negative amounts, a quantity to melt that is not negative, and let
    [chosen] be the coins that the greedy selection takes from the wallet's
    non-authority coins of the group, with a representable sum [T].  When
    the melt returns a transaction, [T] is at least the quantity; the
    inputs are [chosen], then the melt authority, then at most one fee
    input, which spends an ungrouped coin; and the outputs are, in this
    order: when the authority is renewable, its renewal, paid to the first
    key of the wallet's pool; exactly when [T] exceeds the quantity, one
    grouped change output that returns the surplus [T - quantity] of the
    melted group to the next key of the pool, which is then there; and at
    most one untagged base-currency change output.  So the tokens of the
    inputs less the tokens of the outputs are exactly the quantity: that,
    and not the surplus, is destroyed, and there is no melt output. *)
Theorem melt_destroys_quantity (grpID : CTokenGroupID) (totalNeeded : Z) (w : CWallet)
    (tx : CMutableTransaction) (w' : CWallet) :
  0 <= totalNeeded ->
  Forall quantityOk (walletCoins w) ->
  total tokenQuantity (GroupCoinSelection (meltableCoins grpID w) totalNeeded []).2
    <= INT64_MAX ->
  GroupMelt grpID totalNeeded w = Ok (tx, w') ->
  let chosen := (GroupCoinSelection (meltableCoins grpID w) totalNeeded []).2 in
  let T := total tokenQuantity chosen in
  chosen `prefix_of` meltableCoins grpID w
  /\ totalNeeded <= T
  /\ T - (if T >? totalNeeded then T - totalNeeded else 0) = totalNeeded
  /\ exists authority feeInputs baseChange,
       authority ∈ walletCoins w
       /\ allowsMelt (groupInfo authority) = true
       /\ (associatedGroup (groupInfo authority) = grpID
           \/ (isSubgroup grpID = true
               /\ associatedGroup (groupInfo authority) = parentGroup grpID))
       /\ (length feeInputs <= 1)%nat
       /\ Forall (fun txin => exists feeCoin,
                    feeCoin ∈ walletCoins w
                    /\ associatedGroup (groupInfo feeCoin) = NoGroup
                    /\ txin = feeTxIn feeCoin) feeInputs
       /\ vin tx = map (fun coin => mkTxIn (GetOutPoint coin)) (chosen ++ [authority])
                   ++ feeInputs
       /\ (let renewable := allowsRenew (groupInfo authority) in
           let renewKey := default [] (setKeyPool w !! 0%nat) in
           let changeAt := if renewable then 1%nat else 0%nat in
           let changeKey := default [] (setKeyPool w !! changeAt) in
           (totalNeeded < T -> setKeyPool w !! changeAt = Some changeKey)
           /\ (length baseChange <= 1)%nat
           /\ Forall (fun out => exists key value, out = plainOutput key value) baseChange
           /\ vout tx
              = (if renewable
                 then [groupedOutput renewKey (associatedGroup (groupInfo authority))
                         (to_CAmount
                            (flags_and (controllingGroupFlags (groupInfo authority))
                                       ALL_BITS))]
                 else [])
                ++ (if T >? totalNeeded
                    then [groupedOutput changeKey grpID (T - totalNeeded)] else [])
                ++ baseChange).
Proof.
  intros Hneeded Hok Hsum Hrun. cbv zeta.
  apply GroupMelt_steps in Hrun
    as (authority & T & chosen & renewNeeded & outputs & rk & pool
        & Hin & Hmelt & Hgrp & Hsel & Hle & Hrenew & Hrun).
  rewrite Hsel in Hsum |- *. simpl in Hsum |- *.
  destruct (selection_loop_prefix (fun coin => quantity (groupInfo coin))
              (meltableCoins grpID w) totalNeeded 0) as [Hpre Htot].
  unfold GroupCoinSelection in Hsel. rewrite Hsel in Hpre, Htot. simpl in Hpre, Htot.
  assert (Hpos : Forall (fun c => 0 <= tokenQuantity c) chosen).
  { apply Forall_forall. intros c Hc.
    assert (Hm : c ∈ meltableCoins grpID w) by (eapply elem_of_prefix; eauto).
    apply filter_elem_of_iff in Hm as [Hw Hp].
    apply andb_true_iff in Hp as [_ Hna]. apply negb_true_iff in Hna.
    rewrite Forall_forall in Hok. specialize (Hok c Hw Hna). lia. }
  assert (HT : T = total tokenQuantity chosen).
  { rewrite Htot. apply (fold_add64_exact tokenQuantity chosen 0); [lia | done | lia]. }
  clear Htot. subst T.
  set (T := total tokenQuantity chosen) in *.
  assert (Hsurplus : sub64 T totalNeeded = T - totalNeeded).
  { apply sub64_exact. unfold in_int64, INT64_MIN, INT64_MAX in *. lia. }
  assert (Hsurplus0 : sub64 (T - totalNeeded) 0 = T - totalNeeded).
  { unfold sub64. rewrite wrap64_id; [lia |].
    unfold in_int64, INT64_MIN, INT64_MAX in *. lia. }
  assert (Htest : (T - totalNeeded >? 0) = (T >? totalNeeded)).
  { rewrite !Z.gtb_ltb. destruct (totalNeeded <? T) eqn:H1.
    - apply Z.ltb_lt in H1. apply Z.ltb_lt. lia.
    - apply Z.ltb_ge in H1. apply Z.ltb_ge. lia. }
  split; [done |]. split; [done |]. split.
  { destruct (T >? totalNeeded) eqn:Hgt; [lia |].
    rewrite Z.gtb_ltb in Hgt. apply Z.ltb_ge in Hgt. lia. }
  apply RenewAuthority_fresh in Hrenew as [Hrenewed Hpool].
  rewrite Hsurplus in Hrun.
  apply ConstructTx_keys in Hrun as (size & available & Hfi & Hcount & _ & Hvout).
  cbv zeta in Hfi, Hcount, Hvout. cbn [withKeyPool setKeyPool] in Hcount, Hvout.
  rewrite Hsurplus0, Htest, Hrenewed in Hvout. rewrite Htest in Hcount.
  apply feeInput_cases in Hfi. cbn [withKeyPool walletCoins GetRequiredFee] in Hfi.
  assert (Hvin : exists feeInputs,
            (length feeInputs <= 1)%nat
            /\ Forall (fun txin => exists feeCoin,
                         feeCoin ∈ walletCoins w
                         /\ associatedGroup (groupInfo feeCoin) = NoGroup
                         /\ txin = feeTxIn feeCoin) feeInputs
            /\ vin tx = map (fun coin => mkTxIn (GetOutPoint coin)) (chosen ++ [authority])
                        ++ feeInputs).
  { match type of Hfi with
    | if ?b then _ else _ => destruct b
    end.
    - destruct Hfi as (feeCoin & Hf1 & Hf2 & _ & _ & _ & ->).
      exists [feeTxIn feeCoin]. split; [simpl; lia |].
      split; [| done]. apply Forall_singleton. by exists feeCoin.
    - destruct Hfi as [_ ->]. exists []. split; [simpl; lia |].
      split; [constructor | by rewrite app_nil_r]. }
  destruct Hvin as (feeInputs & Hlen & Hfee & Hvin).
  exists authority, feeInputs.
  match type of Hvout with
  | _ = _ ++ _ ++ _ ++ ?base => exists base
  end.
  split; [done |]. split; [done |].
  split; [destruct Hgrp as [Hg | (Hs & Hg & _)]; [by left | by right] |].
  split; [done |]. split; [done |]. split; [done |].
  assert (Hkey : default [] (pool !! 0%nat)
                 = default [] (setKeyPool w
                               !! (if allowsRenew (groupInfo authority)
                                   then 1%nat else 0%nat))).
  { rewrite Hpool. destruct (allowsRenew (groupInfo authority)); [| done].
    by rewrite lookup_drop. }
  split.
  { intros Hgt. apply Z.gtb_lt in Hgt. rewrite Hgt in Hcount. simpl in Hcount.
    rewrite Hpool in Hcount.
    destruct (setKeyPool w
              !! (if allowsRenew (groupInfo authority) then 1%nat else 0%nat))
      as [k |] eqn:Hk; [reflexivity |].
    apply lookup_ge_None in Hk. exfalso. revert Hk Hcount. clear.
    destruct (allowsRenew (groupInfo authority)), (available >? _);
      rewrite ?length_drop; simpl; unfold CPubKey; intros Hk Hcount; lia. }
  split; [destruct (available >? _); simpl; lia |].
  split; [destruct (available >? _); repeat constructor; by eexists _, _ |].
  rewrite Hvout, Hkey. simpl. reflexivity.
Qed.

End MeltDestroys.

Lemma melt_destroys_quantity_witness :
  0 <= 4
  /\ Forall quantityOk (walletCoins exWallet)
  /\ exists tx w',
       exMeltRun = Ok (tx, w')
       /\ 4 <= total tokenQuantity
                 (GroupCoinSelection (meltableCoins exGroup32 exWallet) 4 []).2
       /\ exists authority feeInputs baseChange,
            vin tx
            = map (fun coin => mkTxIn (GetOutPoint coin))
                  ((GroupCoinSelection (meltableCoins exGroup32 exWallet) 4 []).2
                   ++ [authority])
              ++ feeInputs
            /\ vout tx
               = (if @allowsRenew exEnv (groupInfo authority)
                  then [@groupedOutput exEnv (default [] (setKeyPool exWallet !! 0%nat))
                          (associatedGroup (groupInfo authority))
                          (to_CAmount
                             (flags_and (controllingGroupFlags (groupInfo authority))
                                        (@ALL_BITS exEnv)))]
                  else [])
                 ++ (if total tokenQuantity
                          (GroupCoinSelection (meltableCoins exGroup32 exWallet) 4 []).2 >? 4
                     then [@groupedOutput exEnv
                             (default [] (setKeyPool exWallet
                                          !! (if @allowsRenew exEnv (groupInfo authority)
                                              then 1%nat else 0%nat)))
                             exGroup32
                             (total tokenQuantity
                                (GroupCoinSelection (meltableCoins exGroup32 exWallet) 4 []).2
                              - 4)]
                     else [])
                 ++ baseChange.
Proof.
  assert (H0 : 0 <= 4) by (vm_compute; discriminate).
  assert (Hok : Forall quantityOk (walletCoins exWallet)).
  { repeat (apply Forall_cons_2;
              [intros Hauth; vm_compute in Hauth |- *;
               first [discriminate Hauth | split; discriminate] |]).
    apply Forall_nil_2. }
  assert (Hsum : total tokenQuantity
                   (GroupCoinSelection (meltableCoins exGroup32 exWallet) 4 []).2
                 <= INT64_MAX) by (vm_compute; discriminate).
  split; [exact H0 |]. split; [exact Hok |].
  destruct exMeltRun as [[tx w'] | code message] eqn:Hrun;
    [| vm_compute in Hrun; discriminate Hrun].
  exists tx, w'. split; [reflexivity |].
  destruct (@melt_destroys_quantity exEnv exGroup32 4 exWallet tx w' H0 Hok Hsum Hrun)
    as (_ & Hle & _ & authority & feeInputs & baseChange
        & _ & _ & _ & _ & _ & Hvin & _ & _ & _ & Hvout).
  split; [exact Hle |].
  exists authority, feeInputs, baseChange. split; [exact Hvin | exact Hvout].
Defined.

(** ** The greedy selections in 64-bit arithmetic *)

(** The loop stops at the first coin at which the running total, as the
    loop computes it, reaches the target. *)
Lemma selection_loop_stops value coins : forall amt cur,
  let r := selection_loop value coins amt cur [] in
  (forall k, (0 < k < length r.2)%nat ->
     fold_left (fun acc coin => add64 acc (value coin)) (take k r.2) cur < amt)
  /\ (r.2 <> coins -> amt <= r.1).
Proof.
  induction coins as [| coin rest IH]; intros amt cur; cbn [selection_loop]; cbv zeta.
  - split; [simpl; intros k Hk; lia | done].
  - destruct (add64 cur (value coin) >=? amt) eqn:Hstop.
    + simpl. split; [intros k Hk; lia |]. intros _.
      rewrite Z.geb_leb in Hstop. by apply Z.leb_le in Hstop.
    + rewrite Z.geb_leb in Hstop. apply Z.leb_gt in Hstop.
      rewrite selection_loop_frame. cbn [fst snd app].
      destruct (IH amt (add64 cur (value coin))) as [Hrun Hend]. split.
      * intros [| [| k]] Hk; [lia | by simpl |].
        cbn [take fold_left]. apply Hrun. simpl in Hk. lia.
      * intros Hne. apply Hend. intros Heq. apply Hne. by rewrite Heq.
Qed.

(** X25.  What the two selections do on every coin list and target, in
    the 64-bit arithmetic of the code: the coins appended are an initial
    segment of the coins offered, the total returned is their 64-bit sum,
    the 64-bit running total after every coin but the last one appended is
    below the target, and when not all coins offered are appended the
    total returned has reached the target. *)
Theorem selection_in_64_bits (coins : list COutput) (amt : Z) :
  (let r := CoinSelection coins amt [] in
   r.2 `prefix_of` coins
   /\ r.1 = total64 GetValue r.2
   /\ (forall k, (0 < k < length r.2)%nat -> total64 GetValue (take k r.2) < amt)
   /\ (r.2 <> coins -> amt <= r.1))
  /\
  (let r := GroupCoinSelection coins amt [] in
   r.2 `prefix_of` coins
   /\ r.1 = total64 tokenQuantity r.2
   /\ (forall k, (0 < k < length r.2)%nat -> total64 tokenQuantity (take k r.2) < amt)
   /\ (r.2 <> coins -> amt <= r.1)).
Proof.
  unfold CoinSelection, GroupCoinSelection, total64. cbv zeta.
  change (fun coin => quantity (groupInfo coin)) with tokenQuantity.
  split.
  - destruct (selection_loop_prefix GetValue coins amt 0) as [Hpre Htot].
    destruct (selection_loop_stops GetValue coins amt 0) as [Hrun Hend].
    by repeat split.
  - destruct (selection_loop_prefix tokenQuantity coins amt 0) as [Hpre Htot].
    destruct (selection_loop_stops tokenQuantity coins amt 0) as [Hrun Hend].
    by repeat split.
Qed.
